(** * The IPC provider backend of Mist (modules/ipc/ipcProviderBackend2.js)

    A shallow embedding of the request gateway between the views of the
    browser and the socket of the Ethereum node: error synthesis
    ([makeError], [returnError]), the security filter ([testPayload],
    [filterRequestResponse]), the privileged-action gate ([checkRequests]),
    request correlation ([getResponseEvent], the socket's data handler,
    [timeout], [destroy]), connecting ([connect], the handler of
    [ipcProvider-create]), the request entry point ([sendRequest]) and the
    node-state handler of the class-based backend ([_onNodeStateChanged]).

    JavaScript values are trees; the five module-level JSON-RPC templates are
    the only objects the code shares between calls and mutates, so they live
    in a store and are referred to by name ([VRef]).  Every function that
    mutates state or can raise a TypeError runs in the monad [M]. *)

From Stdlib Require Import ZArith List String Ascii Bool Lia DecimalString.
Import ListNotations.

Set Warnings "-register-all".

Local Open Scope string_scope.
Local Open Scope list_scope.

(** ** JavaScript values *)

(** The five templates declared at the top of the module closure. *)
Inductive tref : Type :=
| errorMethod
| errorTimeout
| errorUnlock
| errorSendTxBatch
| nonExistingRequest.

Definition tref_eqb (a b : tref) : bool :=
  match a, b with
  | errorMethod, errorMethod
  | errorTimeout, errorTimeout
  | errorUnlock, errorUnlock
  | errorSendTxBatch, errorSendTxBatch
  | nonExistingRequest, nonExistingRequest => true
  | _, _ => false
  end.

(** Numbers are modelled as integers (request ids, error codes, gas
    amounts); an object is the list of its own properties in order; [VRef]
    is a reference to one of the shared templates. *)
Inductive value : Type :=
| VUndefined
| VNull
| VBool (b : bool)
| VNum (n : Z)
| VStr (s : string)
| VArr (elems : list value)
| VObj (props : list (string * value))
| VRef (r : tref).

(** The mutable part of a template: [error.message] and [id]. *)
Record template : Type := mkTemplate {
  t_message : string;
  t_id : value
}.

(** The store of the five templates. *)
Record templates : Type := mkTemplates {
  tm_errorMethod : template;
  tm_errorTimeout : template;
  tm_errorUnlock : template;
  tm_errorSendTxBatch : template;
  tm_nonExistingRequest : template
}.

Definition get_template (ts : templates) (r : tref) : template :=
  match r with
  | errorMethod => tm_errorMethod ts
  | errorTimeout => tm_errorTimeout ts
  | errorUnlock => tm_errorUnlock ts
  | errorSendTxBatch => tm_errorSendTxBatch ts
  | nonExistingRequest => tm_nonExistingRequest ts
  end.

Definition update_template (ts : templates) (r : tref) (t : template) : templates :=
  match r with
  | errorMethod =>
      mkTemplates t (tm_errorTimeout ts) (tm_errorUnlock ts)
                  (tm_errorSendTxBatch ts) (tm_nonExistingRequest ts)
  | errorTimeout =>
      mkTemplates (tm_errorMethod ts) t (tm_errorUnlock ts)
                  (tm_errorSendTxBatch ts) (tm_nonExistingRequest ts)
  | errorUnlock =>
      mkTemplates (tm_errorMethod ts) (tm_errorTimeout ts) t
                  (tm_errorSendTxBatch ts) (tm_nonExistingRequest ts)
  | errorSendTxBatch =>
      mkTemplates (tm_errorMethod ts) (tm_errorTimeout ts) (tm_errorUnlock ts)
                  t (tm_nonExistingRequest ts)
  | nonExistingRequest =>
      mkTemplates (tm_errorMethod ts) (tm_errorTimeout ts) (tm_errorUnlock ts)
                  (tm_errorSendTxBatch ts) t
  end.

(** [if (error.error)]: every template but [nonExistingRequest] has one. *)
Definition has_error (r : tref) : bool :=
  match r with
  | nonExistingRequest => false
  | _ => true
  end.

Definition error_code (r : tref) : Z :=
  match r with
  | errorMethod => (-32601)%Z
  | _ => (-32603)%Z
  end.

(** The object a template currently is. *)
Definition template_object (ts : templates) (r : tref) : value :=
  match r with
  | nonExistingRequest =>
      VObj [("jsonrpc", VStr "2.0");
            ("method", VStr "eth_nonExistingMethod");
            ("params", VArr []);
            ("id", t_id (get_template ts r))]
  | _ =>
      VObj [("jsonrpc", VStr "2.0");
            ("error", VObj [("code", VNum (error_code r));
                            ("message", VStr (t_message (get_template ts r)))]);
            ("id", t_id (get_template ts r))]
  end.

(** The templates as the module declares them. *)
Definition initial_templates : templates :=
  mkTemplates
    (mkTemplate "Method '__method__' not allowed." (VStr "__id__"))
    (mkTemplate "Request timed out for method  '__method__'." (VStr "__id__"))
    (mkTemplate "Transaction denied" (VStr "__id__"))
    (mkTemplate
       "Transactions denied, sendTransaction is not allowed in batch requests."
       (VStr "__id__"))
    (mkTemplate EmptyString (VStr "__id__")).

(** ** Primitive operations on values *)

Definition truthy (v : value) : bool :=
  match v with
  | VUndefined | VNull => false
  | VBool b => b
  | VNum n => negb (Z.eqb n 0)
  | VStr s => negb (String.eqb s EmptyString)
  | VArr _ | VObj _ | VRef _ => true
  end.

(** [a === b].  Arrays and objects compare by identity; the code only ever
    compares an object of one parsed message with a literal, or with an
    object of another message or another position, so two trees are never
    the same object.  Two references are the same object when they name the
    same template. *)
Definition strict_eq (a b : value) : bool :=
  match a, b with
  | VUndefined, VUndefined => true
  | VNull, VNull => true
  | VBool x, VBool y => Bool.eqb x y
  | VNum x, VNum y => Z.eqb x y
  | VStr x, VStr y => String.eqb x y
  | VRef x, VRef y => tref_eqb x y
  | _, _ => false
  end.

Fixpoint assoc (k : string) (props : list (string * value)) : option value :=
  match props with
  | [] => None
  | (k', v) :: rest => if String.eqb k k' then Some v else assoc k rest
  end.

(** The value of an own property of an object, [undefined] when absent. *)
Definition field (props : list (string * value)) (k : string) : value :=
  match assoc k props with
  | Some x => x
  | None => VUndefined
  end.

(** [obj[k] = v] on an object's own properties. *)
Fixpoint set_assoc (k : string) (v : value) (props : list (string * value))
  : list (string * value) :=
  match props with
  | [] => [(k, v)]
  | (k', v') :: rest =>
      if String.eqb k k' then (k, v) :: rest else (k', v') :: set_assoc k v rest
  end.

Definition string_of_nat (n : nat) : string :=
  NilZero.string_of_int (Z.to_int (Z.of_nat n)).

Definition string_of_Z (n : Z) : string :=
  NilZero.string_of_int (Z.to_int n).

Fixpoint chars (s : string) : list value :=
  match s with
  | EmptyString => []
  | String c rest => VStr (String c EmptyString) :: chars rest
  end.

(** [v[i]] for an index [i]; [None] is the TypeError of reading a property of
    [undefined] or [null]. *)
Definition get_index (v : value) (i : nat) : option value :=
  match v with
  | VUndefined | VNull => None
  | VBool _ | VNum _ => Some VUndefined
  | VStr s => Some (nth i (chars s) VUndefined)
  | VArr l => Some (nth i l VUndefined)
  | VObj props => Some (field props (string_of_nat i))
  | VRef _ => Some VUndefined
  end.

(** [v.k] for the property names the module reads ([error], [method],
    [result], [id], [params], [gas], [errors], [contracts], [permissions],
    [accounts], [type]): none of them is inherited from a prototype, so only
    own properties are consulted.  [None] is the TypeError of reading a
    property of [undefined] or [null]. *)
Definition get_prop (ts : templates) (v : value) (k : string) : option value :=
  match v with
  | VUndefined | VNull => None
  | VBool _ | VNum _ | VStr _ | VArr _ => Some VUndefined
  | VObj props => Some (field props k)
  | VRef r =>
      match template_object ts r with
      | VObj props => Some (field props k)
      | _ => Some VUndefined
      end
  end.

(** ToString, as used by string concatenation, [RegExp.prototype.test] and
    property keys. *)
Fixpoint to_string (v : value) : string :=
  match v with
  | VUndefined => "undefined"
  | VNull => "null"
  | VBool true => "true"
  | VBool false => "false"
  | VNum n => string_of_Z n
  | VStr s => s
  | VArr l =>
      (fix join (l : list value) : string :=
         match l with
         | [] => EmptyString
         | [x] => match x with
                  | VUndefined | VNull => EmptyString
                  | _ => to_string x
                  end
         | x :: rest =>
             ((match x with
               | VUndefined | VNull => EmptyString
               | _ => to_string x
               end) ++ "," ++ join rest)%string
         end) l
  | VObj _ | VRef _ => "[object Object]"
  end.

Definition isArray (v : value) : bool :=
  match v with VArr _ => true | _ => false end.

(** [_.isObject]: functions and objects that are not [null]. *)
Definition isObject (v : value) : bool :=
  match v with VArr _ | VObj _ | VRef _ => true | _ => false end.

(** [_.isEmpty]: [null] and everything without own enumerable properties. *)
Definition isEmpty (v : value) : bool :=
  match v with
  | VArr l => match l with [] => true | _ => false end
  | VStr s => String.eqb s EmptyString
  | VObj props => match props with [] => true | _ => false end
  | VRef _ => false
  | _ => true
  end.

(** ** [String.prototype.replace] with the pattern [/'[a-z_]*'/i] *)

Definition quote : ascii := "'"%char.

(** The class [[a-z_]] under the flag [i]. *)
Definition is_word_char (c : ascii) : bool :=
  let n := nat_of_ascii c in
  (((65 <=? n) && (n <=? 90)) || ((97 <=? n) && (n <=? 122)) || (n =? 95))%nat.

(** The longest run of class characters at the head of [s], and the rest. *)
Fixpoint span_word (s : string) : string * string :=
  match s with
  | EmptyString => (EmptyString, EmptyString)
  | String c rest =>
      if is_word_char c
      then let (w, r) := span_word rest in (String c w, r)
      else (EmptyString, s)
  end.

(** A match of the pattern at the head of [s]: the matched text and what
    follows it.  The closing quote is not in the class, so the greedy run is
    the only candidate. *)
Definition match_here (s : string) : option (string * string) :=
  match s with
  | EmptyString => None
  | String c rest =>
      if Ascii.eqb c quote then
        let (w, r) := span_word rest in
        match r with
        | String c' after =>
            if Ascii.eqb c' quote
            then Some (String quote (w ++ String quote EmptyString)%string, after)
            else None
        | EmptyString => None
        end
      else None
  end.

(** The leftmost match: the text before it, the match, the text after it. *)
Fixpoint find_match (s : string) : option (string * string * string) :=
  match match_here s with
  | Some (m, after) => Some (EmptyString, m, after)
  | None =>
      match s with
      | EmptyString => None
      | String c rest =>
          match find_match rest with
          | Some (before, m, after) => Some (String c before, m, after)
          | None => None
          end
      end
  end.

(** The replacement text: [$$], [$&], [$`] and [$'] are substituted; the
    pattern has no groups, so every other [$] stands for itself. *)
Fixpoint expand (matched before after repl : string) : string :=
  match repl with
  | EmptyString => EmptyString
  | String c tl =>
      if Ascii.eqb c "$"%char then
        match tl with
        | String d rest =>
            if Ascii.eqb d "$"%char then String "$"%char (expand matched before after rest)
            else if Ascii.eqb d "&"%char
                 then (matched ++ expand matched before after rest)%string
            else if Ascii.eqb d "`"%char
                 then (before ++ expand matched before after rest)%string
            else if Ascii.eqb d quote
                 then (after ++ expand matched before after rest)%string
            else String c (expand matched before after tl)
        | EmptyString => String c EmptyString
        end
      else String c (expand matched before after tl)
  end.

Definition js_replace (s repl : string) : string :=
  match find_match s with
  | Some (before, m, after) => (before ++ expand m before after repl ++ after)%string
  | None => s
  end.

(** [/^eth_|^shh_|^net_|^web3_|^db_/.test(s)] *)
Definition allowed_method (s : string) : bool :=
  String.prefix "eth_" s || String.prefix "shh_" s || String.prefix "net_" s
  || String.prefix "web3_" s || String.prefix "db_" s.

(** ** The state of one connection and the monad of the handlers *)

(** An IPC event object as the main process holds it.  [ev_uid] tells event
    objects apart; the other fields are the properties the module reads and
    writes. *)
Record event : Type := mkEvent {
  ev_uid : nat;
  ev_sender : Z;          (* event.sender.getId() *)
  ev_sync : bool;         (* event.sync *)
  ev_payload : value;     (* event.payload *)
  ev_eventId : value      (* event.eventId *)
}.

(** The first argument of the callback of [checkRequests]: [null], [true] or
    one of the error templates. *)
Inductive cb_error : Type :=
| CbNull
| CbTrue
| CbTemplate (r : tref).

(** What the handlers do to the outside.  [ReturnValue] is
    [event.returnValue = data] as the paths that answer a request assign
    it, [ConnectResult] is [event.returnValue = writable] as the listeners
    and the timer of [connect] assign it.  [Reply] is
    [event.sender.send('ipcProvider-data', data)] for the event [uid];
    [Send] is [this.sender.send(channel, data)]; the two differ only in the
    event they are recorded for.  [GotResult] is the line the callback of
    [sendRequest] logs when it is entered. *)
Inductive effect : Type :=
| ReturnValue (uid : nat) (data : value)
| Reply (uid : nat) (sender : Z) (data : value)
| Send (sender : Z) (channel : string) (data : value)
| SocketWrite (data : value)
| SocketDestroy
| CreatePopup (modal : nat) (sendData : value)
| ClosePopup (modal : nat)
| GotResult (uid : nat) (e : cb_error) (result : value)
| ConnectResult (uid : nat) (writable : bool).

(** A transaction waiting for its confirmation popup: the variables the two
    listeners of [checkRequests] close over. *)
Record gate : Type := mkGate {
  g_modal : nat;            (* modalWindow.id *)
  g_payload : value;        (* filteredPayload *)
  g_event : event;          (* the event of the callback *)
  g_jsonPayload : value;    (* the jsonPayload of the callback *)
  g_socket : nat;           (* the socket of the callback *)
  g_called : bool;          (* called *)
  g_armed : bool            (* the listener of ipc.once is still registered *)
}.

(** A call of [connect(event)] that found the socket not writable: the
    closure of the two listeners it registers with [once] and of its
    timer. *)
Record attempt : Type := mkAttempt {
  a_event : nat;            (* event *)
  a_socket : nat;           (* the GethConnection that is _this *)
  a_first : bool;           (* made by the constructor, before setupSocket *)
  a_timer : bool;           (* the timer is pending; timeoutId is set *)
  a_success : bool;         (* successEventFunc is registered for connect *)
  a_failure : bool          (* errorEventFunc is registered for error *)
}.

Record world : Type := mkWorld {
  w_templates : templates;
  w_syncEvents : list (string * event);
  w_asyncEvents : list (string * event);
  w_writable : bool;              (* ipcSocket.writable *)
  w_live : bool;                  (* registered in global.sockets, listeners on *)
  w_generation : nat;             (* which GethConnection of the sender this is *)
  w_closed_views : list Z;        (* senders for which isDestroyed() holds *)
  w_gates : list gate;
  w_next_modal : nat;
  w_trace : list effect;          (* oldest first *)
  w_attempts : list attempt       (* in the order of the calls of connect *)
}.

(** A handler returns, throws (the state reached at the throw stays), or
    leaves the model. *)
Inductive result (A : Type) : Type :=
| Ok (a : A)
| Throw (msg : string)
| Unmodelled.

Arguments Ok {A} a.
Arguments Throw {A} msg.
Arguments Unmodelled {A}.

Definition M (A : Type) : Type := world -> result A * world.

Definition ret {A} (a : A) : M A := fun w => (Ok a, w).

Definition bind {A B} (m : M A) (f : A -> M B) : M B :=
  fun w =>
    match m w with
    | (Ok a, w') => f a w'
    | (Throw msg, w') => (Throw msg, w')
    | (Unmodelled, w') => (Unmodelled, w')
    end.

Definition throw {A} (msg : string) : M A := fun w => (Throw msg, w).

Definition unmodelled {A} : M A := fun w => (Unmodelled, w).

Definition get : M world := fun w => (Ok w, w).

Definition modify (f : world -> world) : M unit := fun w => (Ok tt, f w).

Declare Scope js_scope.
Delimit Scope js_scope with js.
Notation "x <- m ;; k" := (bind m (fun x => k))
  (at level 61, m at next level, right associativity) : js_scope.
Notation "m ;;; k" := (bind m (fun _ => k))
  (at level 61, right associativity) : js_scope.
Local Open Scope js_scope.

(** [try { body } catch (e) { handler }] *)
Definition try_catch (body handler : M unit) : M unit :=
  fun w =>
    match body w with
    | (Throw _, w') => handler w'
    | r => r
    end.

Definition set_templates (ts : templates) (w : world) : world :=
  mkWorld ts (w_syncEvents w) (w_asyncEvents w) (w_writable w) (w_live w)
          (w_generation w) (w_closed_views w) (w_gates w) (w_next_modal w) (w_trace w)
          (w_attempts w).

Definition set_syncEvents (m : list (string * event)) (w : world) : world :=
  mkWorld (w_templates w) m (w_asyncEvents w) (w_writable w) (w_live w)
          (w_generation w) (w_closed_views w) (w_gates w) (w_next_modal w) (w_trace w)
          (w_attempts w).

Definition set_asyncEvents (m : list (string * event)) (w : world) : world :=
  mkWorld (w_templates w) (w_syncEvents w) m (w_writable w) (w_live w)
          (w_generation w) (w_closed_views w) (w_gates w) (w_next_modal w) (w_trace w)
          (w_attempts w).

Definition set_socket (writable live : bool) (w : world) : world :=
  mkWorld (w_templates w) (w_syncEvents w) (w_asyncEvents w) writable live
          (w_generation w) (w_closed_views w) (w_gates w) (w_next_modal w) (w_trace w)
          (w_attempts w).

(** [new GethConnection(event)]: fresh maps and a fresh socket. *)
Definition new_connection (writable : bool) (w : world) : world :=
  mkWorld (w_templates w) [] [] writable true
          (S (w_generation w)) (w_closed_views w) (w_gates w) (w_next_modal w) (w_trace w)
          (w_attempts w).

Definition set_gates (gs : list gate) (n : nat) (w : world) : world :=
  mkWorld (w_templates w) (w_syncEvents w) (w_asyncEvents w) (w_writable w)
          (w_live w) (w_generation w) (w_closed_views w) gs n (w_trace w)
          (w_attempts w).

Definition add_effect (e : effect) (w : world) : world :=
  mkWorld (w_templates w) (w_syncEvents w) (w_asyncEvents w) (w_writable w)
          (w_live w) (w_generation w) (w_closed_views w) (w_gates w) (w_next_modal w)
          (w_trace w ++ [e]) (w_attempts w).

Definition emit (e : effect) : M unit := modify (add_effect e).

Definition set_attempts (l : list attempt) (w : world) : world :=
  mkWorld (w_templates w) (w_syncEvents w) (w_asyncEvents w) (w_writable w)
          (w_live w) (w_generation w) (w_closed_views w) (w_gates w) (w_next_modal w)
          (w_trace w) l.

Definition add_effects (effects : list effect) (w : world) : world :=
  fold_left (fun w x => add_effect x w) effects w.

(** [v.k], raising the TypeError of a read on [undefined] or [null]. *)
Definition prop (v : value) (k : string) : M value :=
  fun w =>
    match get_prop (w_templates w) v k with
    | Some x => (Ok x, w)
    | None => (Throw "TypeError", w)
    end.

(** [v[i]] *)
Definition index (v : value) (i : nat) : M value :=
  fun w =>
    match get_index v i with
    | Some x => (Ok x, w)
    | None => (Throw "TypeError", w)
    end.

(** [_.map(list, f)] over an array, left to right. *)
Fixpoint mapM {A B} (f : A -> M B) (l : list A) : M (list B) :=
  match l with
  | [] => ret []
  | x :: rest => y <- f x ;; ys <- mapM f rest ;; ret (y :: ys)
  end.

(** [_.each(list, f)] *)
Fixpoint eachM {A} (f : A -> M unit) (l : list A) : M unit :=
  match l with
  | [] => ret tt
  | x :: rest => f x ;;; eachM f rest
  end.

(** [_.find(list, pred)]: the first element whose predicate is truthy, or
    [undefined]. *)
Fixpoint findM (pred : value -> M bool) (l : list value) : M value :=
  match l with
  | [] => ret VUndefined
  | x :: rest => b <- pred x ;; if b then ret x else findM pred rest
  end.

(** ** Error synthesis *)

(** [makeError(payload, error)]: the template is written to and returned. *)
Definition makeError (payload : value) (error : tref) : M value :=
  (if has_error error then
     method <- prop payload "method" ;;
     modify (fun w =>
       let t := get_template (w_templates w) error in
       set_templates
         (update_template (w_templates w) error
            (mkTemplate
               (js_replace (t_message t)
                  (String quote (to_string method ++ String quote EmptyString)%string))
               (t_id t)))
         w)
   else ret tt) ;;;
  id <- prop payload "id" ;;
  modify (fun w =>
    let t := get_template (w_templates w) error in
    set_templates
      (update_template (w_templates w) error (mkTemplate (t_message t) id)) w) ;;;
  ret (VRef error).

(** [returnError(payload, error)] *)
Definition returnError (payload : value) (error : tref) : M value :=
  match payload with
  | VArr loads =>
      errors <- mapM (fun load => makeError load error) loads ;;
      ret (VArr errors)
  | _ => makeError payload error
  end.

(** ** [JSON.stringify]

    The text is represented by the document it denotes: references are
    replaced by the template as it is now, properties whose value is
    [undefined] are left out, and [undefined] in an array reads [null].  The
    ids kept in the templates come from parsed messages and hold neither. *)
Fixpoint JSON_stringify (ts : templates) (v : value) : value :=
  match v with
  | VArr l =>
      VArr (map (fun x =>
                   match JSON_stringify ts x with
                   | VUndefined => VNull
                   | y => y
                   end) l)
  | VObj props =>
      VObj (flat_map (fun p =>
                        match JSON_stringify ts (snd p) with
                        | VUndefined => []
                        | y => [(fst p, y)]
                        end) props)
  | VRef r =>
      match template_object ts r with
      | VObj props =>
          VObj (flat_map (fun p =>
                            match snd p with
                            | VUndefined => []
                            | y => [(fst p, y)]
                            end) props)
      | other => other
      end
  | other => other
  end.

Definition stringify (v : value) : M value :=
  fun w => (Ok (JSON_stringify (w_templates w) v), w).

Definition initial_world : world :=
  mkWorld initial_templates [] [] true true 0 [] [] 0 [] [].

(** ** The underscore functions the module calls *)

(** [isArrayLike]: a numeric [length] between 0 and 2^53-1; the elements
    are then the values at the indices below it. *)
Definition array_like_elems (v : value) : option (list value) :=
  match v with
  | VArr l => Some l
  | VStr s => Some (chars s)
  | VObj props =>
      match assoc "length" props with
      | Some (VNum n) =>
          if ((0 <=? n) && (n <=? 9007199254740991))%Z
          then Some (map (fun i => field props (string_of_nat i))
                         (seq 0 (Z.to_nat n)))
          else None
      | _ => None
      end
  | _ => None
  end.

(** What [_.find] and [_.contains] enumerate: the elements of an array-like
    value, the own property values of any other object. *)
Definition collection_values (ts : templates) (v : value) : list value :=
  match array_like_elems v with
  | Some l => l
  | None =>
      match v with
      | VObj props => map snd props
      | VRef r =>
          match template_object ts r with
          | VObj props => map snd props
          | _ => []
          end
      | _ => []
      end
  end.

(** [_.contains(list, item)] *)
Definition contains (l : list value) (item : value) : bool :=
  existsb (fun x => strict_eq x item) l.

(** The loop of [_.intersection(array, other)]: an item is kept when it is
    not in the result yet and is contained in [other]. *)
Fixpoint intersection_loop (items other result : list value) : list value :=
  match items with
  | [] => result
  | item :: rest =>
      if contains result item then intersection_loop rest other result
      else if contains other item then intersection_loop rest other (result ++ [item])
      else intersection_loop rest other result
  end.

Definition intersection (ts : templates) (array other : value) : value :=
  VArr (intersection_loop
          (match array_like_elems array with Some l => l | None => [] end)
          (collection_values ts other) []).

(** ** The collaborators of a connection *)

(** A window of the registry: its id and its [type]. *)
Record window : Type := mkWindow {
  wnd_id : Z;
  wnd_type : value
}.

(** What a connection reads from outside the module. *)
Record env : Type := mkEnv {
  this_id : Z;                     (* this.id, the id of this.sender *)
  Windows_getByType_main : option window;   (* Windows.getByType('main') *)
  Windows_getById_this : option window;     (* Windows.getById(this.id) *)
  Tabs_findOne : value;            (* Tabs.findOne({webviewId: this.id}) *)
  solc_compile : value -> value    (* solc.compile(source, 1) *)
}.

(** The test of [filterRequestResponse] for the main window and for windows
    that are not webviews. *)
Definition is_admin (e : env) : bool :=
  match Windows_getByType_main e with
  | Some mainWindow => Z.eqb (this_id e) (wnd_id mainWindow)
  | None => false
  end
  || match Windows_getById_this e with
     | Some thisWindow =>
         truthy (wnd_type thisWindow)
         && negb (strict_eq (wnd_type thisWindow) (VStr "webview"))
     | None => false
     end.

(** ** The security filter *)

(** [payload.k = v] *)
Definition set_prop (payload : value) (k : string) (v : value) : value :=
  match payload with
  | VObj props => VObj (set_assoc k v props)
  | other => other
  end.

(** [error ? returnError(payload, error) : false] *)
Definition reject (payload : value) (error : option tref) : M value :=
  match error with
  | Some r => returnError payload r
  | None => ret (VBool false)
  end.

(** The accounts a tab may see: [tab && tab.permissions &&
    tab.permissions.accounts]. *)
Definition tab_accounts (ts : templates) (tab : value) : value :=
  if truthy tab then
    match get_prop ts tab "permissions" with
    | Some permissions =>
        if truthy permissions then
          match get_prop ts permissions "accounts" with
          | Some accounts => accounts
          | None => VUndefined
          end
        else permissions
    | None => VUndefined
    end
  else tab.

(** [GethConnection.prototype.testPayload(payload, error, method)] *)
Definition testPayload (e : env) (payload : value) (error : option tref)
    (method : value) : M value :=
  err <- prop payload "error" ;;
  if truthy err then ret payload
  else
    m <- prop payload "method" ;;
    if truthy m then
      if negb (allowed_method (to_string m)) then reject payload error
      else ret payload
    else
      res <- prop payload "result" ;;
      if truthy res then
        if negb (truthy method) then reject payload error
        else if strict_eq method (VStr "eth_accounts") then
          w <- get ;;
          let accounts := tab_accounts (w_templates w) (Tabs_findOne e) in
          if truthy accounts
          then ret (set_prop payload "result" (intersection (w_templates w) res accounts))
          else ret (set_prop payload "result" (VArr []))
        else ret payload
      else ret payload.

(** The template handed to [testPayload] for an element of a batch:
    [load.result ? errorMethod : nonExistingRequest]. *)
Definition batch_error (res : value) : tref :=
  if truthy res then errorMethod else nonExistingRequest.

(** [GethConnection.prototype.filterRequestResponse(payload, event)].  The
    second argument is [None] when no event is passed and the [payload]
    property of the event otherwise. *)
Definition filterRequestResponse (e : env) (payload : value)
    (event_payload : option value) : M value :=
  if negb (isObject payload) then ret (VBool false)
  else if is_admin e then ret payload
  else
    match payload with
    | VArr loads =>
        filtered <-
          mapM (fun load =>
                  req <- match event_payload with
                         | Some requests =>
                             w <- get ;;
                             findM (fun re =>
                                      re_id <- prop re "id" ;;
                                      load_id <- prop load "id" ;;
                                      ret (strict_eq re_id load_id))
                                   (collection_values (w_templates w) requests)
                         | None => ret (VBool false)
                         end ;;
                  res <- prop load "result" ;;
                  method <- (if truthy req then prop req "method" else ret (VBool false)) ;;
                  testPayload e load (Some (batch_error res)) method)
               loads ;;
        ret (VArr filtered)
    | _ =>
        res <- prop payload "result" ;;
        method <- match event_payload with
                  | Some request => prop request "method"
                  | None => ret (VBool false)
                  end ;;
        testPayload e payload (if truthy res then Some errorMethod else None) method
    end.

(** ** The pending maps *)

(** Names every object inherits from [Object.prototype]: a read of one of
    them on a map that has no such entry yields the inherited member. *)
Definition inherited_key (k : string) : bool :=
  existsb (String.eqb k)
    ["constructor"; "hasOwnProperty"; "isPrototypeOf"; "propertyIsEnumerable";
     "toLocaleString"; "toString"; "valueOf"; "__proto__";
     "__defineGetter__"; "__defineSetter__"; "__lookupGetter__";
     "__lookupSetter__"].

Fixpoint own (k : string) (m : list (string * event)) : option event :=
  match m with
  | [] => None
  | (k', ev) :: rest => if String.eqb k k' then Some ev else own k rest
  end.

(** The outcome of [map[k]]. *)
Inductive pending : Type :=
| Found (ev : event)
| Inherited
| Missing.

Definition lookup (m : list (string * event)) (k : string) : pending :=
  match own k m with
  | Some ev => Found ev
  | None => if inherited_key k then Inherited else Missing
  end.

(** [a || b] on two reads. *)
Definition pending_or (a b : pending) : pending :=
  match a with
  | Missing => b
  | _ => a
  end.

Definition is_present (p : pending) : bool :=
  match p with
  | Missing => false
  | _ => true
  end.

(** [map[k] = ev]: an entry of that name is replaced where it is, a new one
    is added at the end.  Assigning to [__proto__] replaces the prototype of
    the map and is not modelled. *)
Fixpoint put (k : string) (ev : event) (m : list (string * event))
  : list (string * event) :=
  match m with
  | [] => [(k, ev)]
  | (k', ev') :: rest =>
      if String.eqb k k' then (k, ev) :: rest else (k', ev') :: put k ev rest
  end.

(** [delete map[k]] *)
Fixpoint remove_key (k : string) (m : list (string * event))
  : list (string * event) :=
  match m with
  | [] => []
  | (k', ev) :: rest =>
      if String.eqb k k' then remove_key k rest else (k', ev) :: remove_key k rest
  end.

(** [this.syncEvents[id] || this.asyncEvents[id]] *)
Definition pending_event (w : world) (id : value) : pending :=
  pending_or (lookup (w_syncEvents w) (to_string id))
             (lookup (w_asyncEvents w) (to_string id)).

(** [GethConnection.prototype.getResponseEvent(response)] *)
Definition getResponseEvent (response : value) : M pending :=
  response' <-
    match response with
    | VArr loads =>
        findM (fun load =>
                 id <- prop load "id" ;;
                 w <- get ;;
                 ret (is_present (pending_event w id)))
              loads
    | _ => ret response
    end ;;
  if truthy response' then
    id <- prop response' "id" ;;
    w <- get ;;
    ret (pending_event w id)
  else ret Missing.

(** ** Senders *)

(** [sender.isDestroyed()] *)
Definition isDestroyed (sender : Z) : M bool :=
  w <- get ;; ret (existsb (Z.eqb sender) (w_closed_views w)).

(** Every other method of a destroyed sender throws. *)
Definition getId (sender : Z) : M Z :=
  d <- isDestroyed sender ;;
  if d then throw "Object has been destroyed" else ret sender.

(** [this.sender.send(channel, data)] *)
Definition sender_send (sender : Z) (channel : string) (data : value) : M unit :=
  d <- isDestroyed sender ;;
  if d then throw "Object has been destroyed" else emit (Send sender channel data).

(** [event.sender.send('ipcProvider-data', data)] *)
Definition reply (ev : event) (data : value) : M unit :=
  d <- isDestroyed (ev_sender ev) ;;
  if d then throw "Object has been destroyed"
  else emit (Reply (ev_uid ev) (ev_sender ev) data).

(** [event.returnValue = data] *)
Definition set_returnValue (ev : event) (data : value) : M unit :=
  emit (ReturnValue (ev_uid ev) data).

(** The two delivery paths: [if (event.sync) event.returnValue = text; else
    event.sender.send('ipcProvider-data', text)]. *)
Definition deliver (ev : event) (data : value) : M unit :=
  if ev_sync ev then set_returnValue ev data else reply ev data.

(** ** The callback of [sendRequest] *)

(** [socket.syncEvents[id] = event] or [socket.asyncEvents[id] = event] *)
Definition register (id : value) (ev : event) : M unit :=
  let k := to_string id in
  if String.eqb k "__proto__" then unmodelled
  else if ev_sync ev
       then modify (fun w => set_syncEvents (put k ev (w_syncEvents w)) w)
       else modify (fun w => set_asyncEvents (put k ev (w_asyncEvents w)) w).

(** [function(e, result){ ... }] as passed to [checkRequests]; it closes over
    [event], [jsonPayload] and [socket].  A call that reaches the socket
    after that connection was destroyed is not modelled. *)
Definition sendRequest_callback (ev : event) (jsonPayload : value) (socket : nat)
    (e : cb_error) (result : value) : M unit :=
  emit (GotResult (ev_uid ev) e result) ;;;
  match e with
  | CbNull =>
      if negb (isEmpty result) then
        rid <- prop result "id" ;;
        id <- (if truthy rid then ret rid
               else first <- index result 0 ;; prop first "id") ;;
        w <- get ;;
        (if w_live w && Nat.eqb (w_generation w) socket then ret tt else unmodelled) ;;;
        register id (mkEvent (ev_uid ev) (ev_sender ev) (ev_sync ev) result id) ;;;
        data <- stringify result ;;
        emit (SocketWrite data)
      else ret tt
  | CbTrue => ret tt
  | CbTemplate r =>
      err <- returnError jsonPayload r ;;
      data <- stringify err ;;
      deliver ev data
  end.

(** ** The privileged-action gate *)

Definition set_called (g : gate) : gate :=
  mkGate (g_modal g) (g_payload g) (g_event g) (g_jsonPayload g) (g_socket g)
         true (g_armed g).

Definition disarm (g : gate) : gate :=
  mkGate (g_modal g) (g_payload g) (g_event g) (g_jsonPayload g) (g_socket g)
         (g_called g) false.

Definition set_payload (payload : value) (g : gate) : gate :=
  mkGate (g_modal g) payload (g_event g) (g_jsonPayload g) (g_socket g)
         (g_called g) (g_armed g).

Definition update_gate (modal : nat) (f : gate -> gate) : M unit :=
  modify (fun w =>
    set_gates (map (fun g => if Nat.eqb (g_modal g) modal then f g else g) (w_gates w))
              (w_next_modal w) w).

(** [filteredPayload.params[0].gas = result]; the module is in strict mode,
    where writing a property of a primitive value throws as writing one of
    [undefined] does.  A property written on an array is not an element and
    does not show in the text of the request. *)
Definition set_gas (payload gas : value) : M value :=
  params <- prop payload "params" ;;
  first <- index params 0 ;;
  first' <- match first with
            | VObj props => ret (VObj (set_assoc "gas" gas props))
            | VArr _ => ret first
            | _ => throw "TypeError"
            end ;;
  match params with
  | VArr (_ :: rest) => ret (set_prop payload "params" (VArr (first' :: rest)))
  | VObj props => ret (set_prop payload "params" (VObj (set_assoc "0" first' props)))
  | _ => ret payload
  end.

(** [GethConnection.prototype.checkRequests(filteredPayload, event,
    callback)], where [callback] is the function of [sendRequest] over
    [event] and [jsonPayload]. *)
Definition checkRequests (e : env) (filteredPayload : value) (ev : event)
    (jsonPayload : value) (socket : nat) : M unit :=
  let callback := sendRequest_callback ev jsonPayload socket in
  match filteredPayload with
  | VArr loads =>
      found <- findM (fun payload =>
                        m <- prop payload "method" ;;
                        ret (strict_eq m (VStr "eth_sendTransaction")))
                     loads ;;
      if truthy found then callback (CbTemplate errorSendTxBatch) VUndefined
      else callback CbNull filteredPayload
  | _ =>
      method <- prop filteredPayload "method" ;;
      if strict_eq method (VStr "eth_sendTransaction") then
        params <- prop filteredPayload "params" ;;
        first <- index params 0 ;;
        w <- get ;;
        let modal := w_next_modal w in
        emit (CreatePopup modal (VArr [VStr "data"; first])) ;;;
        modify (fun w =>
          set_gates (w_gates w ++ [mkGate modal filteredPayload ev jsonPayload socket false true])
                    (S modal) w)
      else if strict_eq method (VStr "eth_compileSolidity") then
        params <- prop filteredPayload "params" ;;
        source <- index params 0 ;;
        let output := solc_compile e source in
        errors <- (if truthy output then prop output "errors" else ret VUndefined) ;;
        response <-
          (if negb (truthy output) || truthy errors then
             id <- prop filteredPayload "id" ;;
             ret (VObj [("jsonrpc", VStr "2.0");
                        ("error", VObj [("code", VNum (-32700));
                                        ("message", if truthy output then errors
                                                    else VStr "Compile error")]);
                        ("id", id)])
           else
             contracts <- prop output "contracts" ;;
             id <- prop filteredPayload "id" ;;
             ret (VObj [("jsonrpc", VStr "2.0"); ("result", contracts); ("id", id)])) ;;
        data <- stringify response ;;
        deliver ev data ;;;
        callback CbTrue VUndefined
      else callback CbNull filteredPayload
  end.

(** The listener of the popup's [closed] event. *)
Definition on_closed (g : gate) : M unit :=
  if negb (g_called g) then
    sendRequest_callback (g_event g) (g_jsonPayload g) (g_socket g)
                         (CbTemplate errorUnlock) VUndefined ;;;
    update_gate (g_modal g) set_called
  else ret tt.

(** The listener registered with [ipc.once('backendAction_unlockedAccount',
    ...)]: it is removed by the first message on the channel, whoever sent
    it.  [webContents] is the truth of [modalWindow.webContents] for the
    popup whose id is [sender]. *)
Definition on_unlockedAccount (g : gate) (sender : nat) (webContents : bool)
    (err result : value) : M unit :=
  if g_armed g then
    update_gate (g_modal g) disarm ;;;
    if webContents && Nat.eqb sender (g_modal g) then
      (if truthy err || negb (truthy result) then
         if negb (g_called g)
         then sendRequest_callback (g_event g) (g_jsonPayload g) (g_socket g)
                                   (CbTemplate errorUnlock) VUndefined
         else ret tt
       else
         payload <- set_gas (g_payload g) result ;;
         update_gate (g_modal g) (set_payload payload) ;;;
         if negb (g_called g)
         then sendRequest_callback (g_event g) (g_jsonPayload g) (g_socket g)
                                   CbNull payload
         else ret tt) ;;;
      update_gate (g_modal g) set_called ;;;
      emit (ClosePopup (g_modal g))
    else ret tt
  else ret tt.

(** ** Connecting *)

(** [GethConnection.prototype.connect(event)]; every call in the module
    passes an event.  [connects] is the value of [ipcSocket.writable] once
    the socket has been asked to connect. *)
Definition connect (uid : nat) (first connects : bool) : M unit :=
  w <- get ;;
  if negb (w_writable w) then
    modify (fun w =>
      set_attempts
        (w_attempts w ++ [mkAttempt uid (w_generation w) first true true true])
        (set_socket connects (w_live w) w))
  else emit (ConnectResult uid true).

(** [new GethConnection(event)]: a new socket, which is not writable, then
    [connect(event)] and [setupSocket()]. *)
Definition GethConnection (uid : nat) (connects : bool) : M unit :=
  modify (new_connection false) ;;; connect uid true connects.

(** What [successEventFunc] and [errorEventFunc] leave of their closure:
    the timer is cleared and, each being registered with [once] and
    removing the other, neither is registered any more. *)
Definition settled (a : attempt) : attempt :=
  mkAttempt (a_event a) (a_socket a) (a_first a) false false false.

(** [successEventFunc] (for [writable] true) and [errorEventFunc] (false):
    [if(event && timeoutId) { clearTimeout(timeoutId); event.returnValue =
    writable; }], then the other listener is removed. *)
Definition connect_listener (writable : bool) (a : attempt) : attempt * list effect :=
  (settled a, if a_timer a then [ConnectResult (a_event a) writable] else []).

(** The listeners of [connect] that an emit calls, in the order of their
    registration; [marks] tells, call of [connect] by call, whether its
    listener was registered when the emit began. *)
Fixpoint call_listeners (writable : bool) (marks : list bool) (l : list attempt)
  : list attempt * list effect :=
  match marks, l with
  | true :: marks', a :: rest =>
      let (a', out) := connect_listener writable a in
      let (rest', outs) := call_listeners writable marks' rest in
      (a' :: rest', out ++ outs)
  | false :: marks', a :: rest =>
      let (rest', outs) := call_listeners writable marks' rest in
      (a :: rest', outs)
  | _, _ => (l, [])
  end.

Definition emit_to (writable : bool) (marks : list bool) : M unit :=
  modify (fun w =>
    let (l, effects) := call_listeners writable marks (w_attempts w) in
    add_effects effects (set_attempts l w)).

(** The listener of [connect] that [setupSocket] registers. *)
Definition on_connect (e : env) (data : value) : M unit :=
  sender_send (this_id e) "ipcProvider-setWritable" (VBool true) ;;;
  sender_send (this_id e) "ipcProvider-connect" data.

Fixpoint clear_timer (n : nat) (l : list attempt) : list attempt :=
  match n, l with
  | O, a :: rest =>
      mkAttempt (a_event a) (a_socket a) (a_first a) false (a_success a) (a_failure a)
      :: rest
  | S n', a :: rest => a :: clear_timer n' rest
  | _, [] => []
  end.

(** The timer of the call number [n] of [connect]: [event.returnValue =
    _this.ipcSocket.writable; timeoutId = null].  The socket of a connection
    that has been replaced is destroyed and not writable. *)
Definition connect_timer (n : nat) : M unit :=
  w <- get ;;
  match nth_error (w_attempts w) n with
  | Some a =>
      if a_timer a then
        emit (ConnectResult (a_event a)
                (Nat.eqb (a_socket a) (w_generation w) && w_writable w)) ;;;
        modify (fun w => set_attempts (clear_timer n (w_attempts w)) w)
      else ret tt
  | None => ret tt
  end.

(** [this.ipcSocket.removeAllListeners()] *)
Definition removeAllListeners (w : world) : world :=
  set_attempts
    (map (fun a =>
            mkAttempt (a_event a) (a_socket a) (a_first a) (a_timer a) false false)
         (w_attempts w))
    w.

(** The handler of [ipcProvider-create].  The sender of an event has no
    property [returnValue], so that the last statement of the handler
    assigns nothing. *)
Definition on_create (e : env) (uid : nat) (connects : bool) : M unit :=
  getId (this_id e) ;;;
  w <- get ;;
  if w_live w then connect uid false connects else GethConnection uid connects.

(** ** Timeout and destruction *)

(** [GethConnection.prototype.timeout()] *)
Definition timeout (e : env) : M unit :=
  d <- isDestroyed (this_id e) ;;
  (if negb d then
     w <- get ;;
     sender_send (this_id e) "ipcProvider-setWritable" (VBool (w_writable w))
   else ret tt) ;;;
  w <- get ;;
  eachM (fun entry =>
           let ev := snd entry in
           d <- isDestroyed (ev_sender ev) ;;
           (if negb d then
              err <- returnError (ev_payload ev) errorTimeout ;;
              data <- stringify err ;;
              reply ev data
            else ret tt) ;;;
           modify (fun w => set_asyncEvents (remove_key (fst entry) (w_asyncEvents w)) w))
        (w_asyncEvents w) ;;;
  w <- get ;;
  eachM (fun entry =>
           let ev := snd entry in
           d <- isDestroyed (ev_sender ev) ;;
           (if negb d then
              err <- returnError (ev_payload ev) errorTimeout ;;
              data <- stringify err ;;
              set_returnValue ev data
            else ret tt) ;;;
           modify (fun w => set_syncEvents (remove_key (fst entry) (w_syncEvents w)) w))
        (w_syncEvents w).

(** [GethConnection.prototype.destroy()] *)
Definition destroy (e : env) : M unit :=
  timeout e ;;;
  modify removeAllListeners ;;;
  modify (set_socket false false) ;;;
  emit SocketDestroy.

(** ** The listeners of the socket *)

(** What the dechunker hands to its callback: an error or one complete
    message. *)
Inductive dechunked : Type :=
| DechunkError
| DechunkResult (result : value).

(** [if(!result.id && !_.isArray(result)) log.debug('IPCSOCKET '+
    _this.sender.getId() + ...)]: the line reads the id of the sender of the
    connection, which throws when that sender is destroyed. *)
Definition log_notification (e : env) (result : value) : M unit :=
  id <- prop result "id" ;;
  if negb (truthy id) && negb (isArray result) then getId (this_id e) ;;; ret tt
  else ret tt.

(** The listener of [data], after the dechunker. *)
Definition on_data (e : env) (d : dechunked) : M unit :=
  match d with
  | DechunkError => timeout e
  | DechunkResult result =>
      event <- getResponseEvent result ;;
      match event with
      | Missing =>
          data <- stringify result ;;
          sender_send (this_id e) "ipcProvider-data" data
      | Inherited =>
          filtered <- filterRequestResponse e result (Some VUndefined) ;;
          log_notification e filtered ;;;
          throw "TypeError"
      | Found ev =>
          filtered <- filterRequestResponse e result (Some (ev_payload ev)) ;;
          log_notification e filtered ;;;
          if ev_sync ev then
            d <- isDestroyed (ev_sender ev) ;;
            (if negb d then
               data <- stringify filtered ;;
               set_returnValue ev data
             else ret tt) ;;;
            modify (fun w =>
              set_syncEvents (remove_key (to_string (ev_eventId ev)) (w_syncEvents w)) w)
          else
            d <- isDestroyed (ev_sender ev) ;;
            (if negb d then
               data <- stringify filtered ;;
               reply ev data
             else ret tt) ;;;
            modify (fun w =>
              set_asyncEvents (remove_key (to_string (ev_eventId ev)) (w_asyncEvents w)) w)
      end
  end.

(** The listener of [error]. *)
Definition on_error (e : env) (data : value) : M unit :=
  try_catch
    (getId (this_id e) ;;; sender_send (this_id e) "ipcProvider-error" data)
    (destroy e).

(** The listener of [timeout]. *)
Definition on_timeout (e : env) (data : value) : M unit :=
  try_catch
    (getId (this_id e) ;;;
     sender_send (this_id e) "ipcProvider-timeout" data ;;;
     destroy e)
    (ret tt).

(** The listener of [end]. *)
Definition on_end (e : env) (data : value) : M unit :=
  try_catch
    (getId (this_id e) ;;;
     sender_send (this_id e) "ipcProvider-end" data ;;;
     destroy e)
    (ret tt).

(** ** [sendRequest] *)

(** [sendRequest(event, payload, sync)] for a request of this connection's
    sender.  [payload] is the message after [JSON.parse]; [connects] is the
    value of [ipcSocket.writable] once a socket that had to be created or
    connected again has been asked to connect. *)
Definition sendRequest (e : env) (uid : nat) (payload : value) (sync : bool)
    (connects : bool) : M unit :=
  getId (this_id e) ;;;
  w <- get ;;
  (if negb (w_live w) then GethConnection uid connects
   else if negb (w_writable w) then connect uid false connects
   else ret tt) ;;;
  w <- get ;;
  if negb (w_writable w) then
    (* [jsonPayload] is declared further down and still undefined here, as
       is [event.sync] *)
    err <- returnError VUndefined errorTimeout ;;
    data <- stringify err ;;
    reply (mkEvent uid (this_id e) false VUndefined VUndefined) data
  else
    let jsonPayload := payload in
    filteredPayload <- filterRequestResponse e jsonPayload None ;;
    let ev := mkEvent uid (this_id e) sync VUndefined VUndefined in
    if isEmpty filteredPayload then
      err <- returnError jsonPayload errorMethod ;;
      data <- stringify err ;;
      deliver ev data
    else w <- get ;; checkRequests e filteredPayload ev jsonPayload (w_generation w).

(** ** Everything that can happen to a connection *)

Inductive input : Type :=
| Request (uid : nat) (payload : value) (sync connects : bool)
| IpcCreate (uid : nat) (connects : bool)    (* ipcProvider-create from the view *)
| SocketConnect (data : value)
| ConnectTimer (n : nat)                     (* the timer of a call of connect *)
| SocketData (d : dechunked)
| SocketError (data : value)
| SocketTimeout (data : value)
| SocketEnd (data : value)
| IpcDestroy                       (* ipcProvider-destroy from the view *)
| ViewClosed (id : Z)
| PopupClosed (modal : nat)
| UnlockedAccount (sender : nat) (webContents : bool) (err result : value).

Definition when_live (m : M unit) : M unit :=
  w <- get ;; if w_live w then m else ret tt.

(** One turn of the event loop.  An emit calls the listeners that were
    registered when it began, in the order of their registration, until one
    throws: the listeners of the call of [connect] the constructor made come
    before those of [setupSocket], the listeners of later calls after
    them. *)
Definition handle (e : env) (i : input) : M unit :=
  match i with
  | Request uid payload sync connects => sendRequest e uid payload sync connects
  | IpcCreate uid connects => on_create e uid connects
  | SocketConnect data =>
      when_live
        (w <- get ;;
         emit_to true (map (fun a => a_success a && a_first a) (w_attempts w)) ;;;
         on_connect e data ;;;
         emit_to true (map (fun a => a_success a && negb (a_first a)) (w_attempts w)))
  | ConnectTimer n => connect_timer n
  | SocketData d => when_live (on_data e d)
  | SocketError data =>
      when_live
        (w <- get ;;
         emit_to false (map (fun a => a_failure a && a_first a) (w_attempts w)) ;;;
         on_error e data ;;;
         emit_to false (map (fun a => a_failure a && negb (a_first a)) (w_attempts w)))
  | SocketTimeout data => when_live (on_timeout e data)
  | SocketEnd data => when_live (on_end e data)
  | IpcDestroy => when_live (destroy e)
  | ViewClosed id =>
      modify (fun w =>
        mkWorld (w_templates w) (w_syncEvents w) (w_asyncEvents w) (w_writable w)
                (w_live w) (w_generation w) (id :: w_closed_views w) (w_gates w)
                (w_next_modal w) (w_trace w) (w_attempts w))
  | PopupClosed modal =>
      w <- get ;;
      eachM (fun g => if Nat.eqb (g_modal g) modal then on_closed g else ret tt)
            (w_gates w)
  | UnlockedAccount sender webContents err result =>
      w <- get ;;
      eachM (fun g => on_unlockedAccount g sender webContents err result) (w_gates w)
  end.

(** A run of the event loop: an exception ends the turn it is raised in and
    the loop goes on; [None] when a turn leaves the model. *)
Fixpoint run (e : env) (inputs : list input) (w : world) : option world :=
  match inputs with
  | [] => Some w
  | i :: rest =>
      match handle e i w with
      | (Unmodelled, _) => None
      | (_, w') => run e rest w'
      end
  end.

(** * The class-based backend: [IpcProviderBackend._onNodeStateChanged] *)

Module Backend.

(** What the handler does to the outside. *)
Inductive action : Type :=
| LogInfo (msg : string)
| LogDebug (msg : string)
| LogError (msg : string)
| OwnerSend (owner : value) (channel : string) (data : value)
| SocketDisconnect (socket : value)
| SocketConnect (socket : value).

(** The states of the node the handler tells apart. *)
Inductive node_state : Type :=
| STOPPING
| CONNECTED
| OtherState.

(** Handlers log their actions and may throw. *)
Definition B (A : Type) : Type := list action -> result A * list action.

Definition retB {A} (a : A) : B A := fun log => (Ok a, log).

Definition bindB {A C} (m : B A) (f : A -> B C) : B C :=
  fun log =>
    match m log with
    | (Ok a, log') => f a log'
    | (Throw msg, log') => (Throw msg, log')
    | (Unmodelled, log') => (Unmodelled, log')
    end.

Definition act (a : action) : B unit := fun log => (Ok tt, log ++ [a]).

Definition throwB {A} (msg : string) : B A := fun log => (Throw msg, log).

(** [promise.catch(handler)] *)
Definition catchB (m : B unit) (handler : B unit) : B unit :=
  fun log =>
    match m log with
    | (Throw _, log') => handler log'
    | r => r
    end.

(** [item.k] *)
Definition read (item : value) (k : string) : B value :=
  match get_prop initial_templates item k with
  | Some x => retB x
  | None => throwB "TypeError"
  end.

(** [x.getId()]: a TypeError when [x] is [undefined] or [null]. *)
Definition getId (x : value) : B value :=
  match x with
  | VUndefined | VNull => throwB "TypeError"
  | _ => retB x
  end.

(** The entry [_createConnection] saves for a window: [{owner: wnd,
    socket: socket}], the two objects standing for themselves. *)
Definition connection (owner socket : value) : value :=
  VObj [("owner", owner); ("socket", socket)].

(** [Q.map(items, mapper)]: the mapper is applied to the items in turn;
    the promise is rejected by the first exception. *)
Fixpoint Q_map (mapper : value -> B unit) (items : list value) : B unit :=
  match items with
  | [] => retB tt
  | item :: rest => bindB (mapper item) (fun _ => Q_map mapper rest)
  end.

(** The mapper of the [STOPPING] case. *)
Definition stopping_mapper (item : value) : B unit :=
  bindB (read item "sender") (fun sender =>
  bindB (getId sender) (fun _ =>
  bindB (act (LogDebug "Tell owner that socket is not currently writeable")) (fun _ =>
  bindB (read item "owner") (fun owner =>
  bindB (act (OwnerSend owner "ipcProvider-setWritable" (VBool false))) (fun _ =>
  bindB (read item "socket") (fun socket =>
  act (SocketDisconnect socket))))))).

(** The mapper of the [CONNECTED] case: it asks the socket to connect. *)
Definition connected_mapper (item : value) : B unit :=
  bindB (read item "socket") (fun socket => act (SocketConnect socket)).

(** The function given to [then] in the [CONNECTED] case: it runs when
    the socket of [item] has connected. *)
Definition connected_then (item : value) : B unit :=
  bindB (read item "sender") (fun sender =>
  bindB (getId sender) (fun _ =>
  bindB (act (LogDebug "Tell owner that socket is again writeable")) (fun _ =>
  bindB (read item "owner") (fun owner =>
  act (OwnerSend owner "ipcProvider-setWritable" (VBool true)))))).

(** [_onNodeStateChanged(state)], [items] being the entries of
    [this._connections] as [Q.map] goes through them. *)
Definition _onNodeStateChanged (state : node_state) (items : list value) : B unit :=
  match state with
  | STOPPING =>
      bindB (act (LogInfo "Ethereum node stopping, disconnecting sockets")) (fun _ =>
      catchB (Q_map stopping_mapper items)
             (act (LogError "Error disconnecting sockets")))
  | CONNECTED =>
      bindB (act (LogInfo "Ethereum node connected, re-connect sockets")) (fun _ =>
      catchB (Q_map connected_mapper items)
             (act (LogError "Error re-connecting sockets")))
  | OtherState => retB tt
  end.

(** The entries of a registry with the given windows and sockets. *)
Definition registry (conns : list (value * value)) : list value :=
  map (fun c => connection (fst c) (snd c)) conns.

Definition is_OwnerSend (a : action) : bool :=
  match a with OwnerSend _ _ _ => true | _ => false end.

Definition is_SocketDisconnect (a : action) : bool :=
  match a with SocketDisconnect _ => true | _ => false end.

End Backend.

(** ** Vocabulary of the statements *)

(** ['...'] around a text. *)
Definition quoted (s : string) : string :=
  String quote (s ++ String quote EmptyString)%string.

(** The template [t] after [makeError] has been given the object [props]
    and the template [r]. *)
Definition written (t : template) (r : tref) (props : list (string * value)) : template :=
  mkTemplate
    (if has_error r
     then js_replace (t_message t) (quoted (to_string (field props "method")))
     else t_message t)
    (field props "id").

(** The templates after [makeError] has run over the elements of a batch
    with the template [r]. *)
Fixpoint batch_templates (loads : list (list (string * value))) (r : tref)
    (ts : templates) : templates :=
  match loads with
  | [] => ts
  | props :: rest =>
      batch_templates rest r
        (update_template ts r (written (get_template ts r) r props))
  end.

(** [v.k] where the read cannot throw. *)
Definition member (ts : templates) (v : value) (k : string) : value :=
  match get_prop ts v k with
  | Some x => x
  | None => VUndefined
  end.

(** The sender [id] is not destroyed. *)
Definition alive (w : world) (id : Z) : bool :=
  negb (existsb (Z.eqb id) (w_closed_views w)).

(** The effect of handing [data] to the caller of the event [uid]: the
    return value of a synchronous call, a push to the sender otherwise. *)
Definition delivery (uid : nat) (sender : Z) (sync : bool) (data : value) : effect :=
  if sync then ReturnValue uid data else Reply uid sender data.

Definition result_envelope (res id : value) : value :=
  VObj [("jsonrpc", VStr "2.0"); ("result", res); ("id", id)].

Definition error_envelope (code : Z) (message id : value) : value :=
  VObj [("jsonrpc", VStr "2.0");
        ("error", VObj [("code", VNum code); ("message", message)]);
        ("id", id)].

(** What [checkRequests] answers to [eth_compileSolidity] for the output of
    the compiler. *)
Definition compile_response (ts : templates) (output id : value) : value :=
  if negb (truthy output) then error_envelope (-32700) (VStr "Compile error") id
  else if truthy (member ts output "errors")
       then error_envelope (-32700) (member ts output "errors") id
       else result_envelope (member ts output "contracts") id.

(** The list an untrusted view receives in place of the accounts [accts] of
    the node: those of them the tab of the view may see, none when the tab
    has no recorded permission. *)
Definition narrowed (e : env) (ts : templates) (accts : list value) : list value :=
  if truthy (tab_accounts ts (Tabs_findOne e))
  then intersection_loop accts
         (collection_values ts (tab_accounts ts (Tabs_findOne e))) []
  else [].

(** The world after the event [ev] has been resolved with [data]. *)
Definition resolved (ev : event) (data : value) (w : world) : world :=
  let w' := add_effect (delivery (ev_uid ev) (ev_sender ev) (ev_sync ev) data) w in
  if ev_sync ev
  then set_syncEvents (remove_key (to_string (ev_eventId ev)) (w_syncEvents w')) w'
  else set_asyncEvents (remove_key (to_string (ev_eventId ev)) (w_asyncEvents w')) w'.

(** How [testPayload] treats one request of a batch sent by an untrusted
    view: [None] when the request is kept, the template it is replaced by
    otherwise. *)
Definition filter_load (props : list (string * value)) : option tref :=
  if truthy (field props "error") then None
  else if truthy (field props "method") then
    if allowed_method (to_string (field props "method")) then None
    else Some (batch_error (field props "result"))
  else if truthy (field props "result") then Some (batch_error (field props "result"))
  else None.

(** The batch [filterRequestResponse] returns for a batch of objects. *)
Definition filtered_batch (e : env) (loads : list (list (string * value)))
  : list value :=
  if is_admin e then map VObj loads
  else map (fun props =>
              match filter_load props with
              | Some r => VRef r
              | None => VObj props
              end) loads.

(** The templates when it returns: every replaced request has been written
    into its template. *)
Fixpoint filter_templates (loads : list (list (string * value))) (ts : templates)
  : templates :=
  match loads with
  | [] => ts
  | props :: rest =>
      filter_templates rest
        (match filter_load props with
         | Some r => update_template ts r (written (get_template ts r) r props)
         | None => ts
         end)
  end.

(** The world in which [filterRequestResponse] returns for a batch. *)
Definition filter_world (e : env) (loads : list (list (string * value))) (w : world)
  : world :=
  if is_admin e then w
  else set_templates (filter_templates loads (w_templates w)) w.

(** The world after [id] has been registered for the event [ev]. *)
Definition registered (id : value) (ev : event) (w : world) : world :=
  if ev_sync ev
  then set_syncEvents (put (to_string id) ev (w_syncEvents w)) w
  else set_asyncEvents (put (to_string id) ev (w_asyncEvents w)) w.

(** [payload.method === 'eth_sendTransaction'] *)
Definition is_sendTransaction (props : list (string * value)) : bool :=
  strict_eq (field props "method") (VStr "eth_sendTransaction").

Definition batch_denied_message : string :=
  "Transactions denied, sendTransaction is not allowed in batch requests.".

(** The text of an error template: [id] is left out when it is
    [undefined]. *)
Definition error_document (code : Z) (message : string) (id : value) : value :=
  VObj ([("jsonrpc", VStr "2.0");
         ("error", VObj [("code", VNum code); ("message", VStr message)])]
        ++ match id with
           | VUndefined => []
           | _ => [("id", id)]
           end).

(** The id of the last request of a batch. *)
Definition last_id (loads : list (list (string * value))) : value :=
  field (last loads []) "id".

(** The messages of the two templates without a placeholder are the ones
    the module declares. *)
Definition fixed_messages (w : world) : Prop :=
  t_message (get_template (w_templates w) errorSendTxBatch) = batch_denied_message
  /\ t_message (get_template (w_templates w) errorUnlock) = "Transaction denied".

(** The state a request needs to get past the writability test: its sender
    is not destroyed and the connection is registered with a writable
    socket. *)
Definition ready (e : env) (w : world) : Prop :=
  alive w (this_id e) = true /\ w_live w = true /\ w_writable w = true.

Definition webview_env : env :=
  mkEnv 12 (Some (mkWindow 1 (VStr "main"))) (Some (mkWindow 12 (VStr "webview")))
        (VObj [("permissions", VObj [("accounts", VArr [VStr "0xAAA"])])])
        (fun source =>
           VObj [("contracts", VObj [("Token", VObj [("bytecode", VStr "6060")])])]).

Definition main_env : env :=
  mkEnv 1 (Some (mkWindow 1 (VStr "main"))) (Some (mkWindow 1 (VStr "main")))
        VUndefined
        (fun source => VObj [("errors", VArr [VStr "ParserError"])]).

Definition request (id : value) (method : string) (params : list value)
  : list (string * value) :=
  [("jsonrpc", VStr "2.0"); ("id", id); ("method", VStr method);
   ("params", VArr params)].

(** Neither [undefined] nor [null]: reading a property does not throw. *)
Definition non_nullish (v : value) : bool :=
  match v with
  | VUndefined | VNull => false
  | _ => true
  end.

(** A payload [returnError] can be applied to: not nullish, and without a
    nullish element when it is an array. *)
Definition resolvable (payload : value) : bool :=
  match payload with
  | VArr loads => forallb non_nullish loads
  | other => non_nullish other
  end.

(** [data] is a timeout error made from [payload]: the timeout template,
    with the id of the request when the payload is an object, repeated once
    per element when the payload is a batch (with the id of the last
    element when that is an object). *)
Definition timeout_answer (payload data : value) : Prop :=
  match payload with
  | VArr loads =>
      exists msg id,
        data = VArr (repeat (error_document (-32603) msg id) (List.length loads))
        /\ (forall front props, loads = front ++ [VObj props] -> id = field props "id")
  | VObj props => exists msg, data = error_document (-32603) msg (field props "id")
  | _ => exists msg id, data = error_document (-32603) msg id
  end.

(** One round of a loop of [timeout]: over [syncEvents] when [sync], over
    [asyncEvents] otherwise. *)
Definition timeout_entry (sync : bool) (entry : string * event) : M unit :=
  let ev := snd entry in
  d <- isDestroyed (ev_sender ev) ;;
  (if negb d then
     err <- returnError (ev_payload ev) errorTimeout ;;
     data <- stringify err ;;
     if sync then set_returnValue ev data else reply ev data
   else ret tt) ;;;
  if sync
  then modify (fun w => set_syncEvents (remove_key (fst entry) (w_syncEvents w)) w)
  else modify (fun w => set_asyncEvents (remove_key (fst entry) (w_asyncEvents w)) w).

(** [effects] are the answers of one loop of [timeout] over [entries]: in
    order, one timeout error for every entry whose sender is not among the
    [closed] ones. *)
Fixpoint answered (sync : bool) (closed : list Z) (entries : list (string * event))
    (effects : list effect) : Prop :=
  match entries with
  | [] => effects = []
  | entry :: rest =>
      let ev := snd entry in
      if existsb (Z.eqb (ev_sender ev)) closed then answered sync closed rest effects
      else exists data effects',
             effects = delivery (ev_uid ev) (ev_sender ev) sync data :: effects'
             /\ timeout_answer (ev_payload ev) data
             /\ answered sync closed rest effects'
  end.

(** Every pending payload of the connection can be answered. *)
Definition pending_resolvable (w : world) : bool :=
  forallb (fun entry => resolvable (ev_payload (snd entry)))
          (w_asyncEvents w ++ w_syncEvents w).

(** ** Sample messages *)

(** A request for a method outside the allowed namespaces that also
    carries a truthy [error] member. *)
Definition admin_request_with_error : list (string * value) :=
  request (VNum 1) "admin_addPeer" [VStr "enode://a@10.0.0.1:30303"]
  ++ [("error", VBool true)].

Definition transaction : list (string * value) :=
  [("from", VStr "0xAAA"); ("to", VStr "0xBBB"); ("value", VStr "0x1")].

(** A request to send [transaction]. *)
Definition tx_request (id : value) : value :=
  VObj (request id "eth_sendTransaction" [VObj transaction]).

(** The same request after the popup has set the gas. *)
Definition tx_request_with_gas (id gas : value) : value :=
  VObj (request id "eth_sendTransaction" [VObj (transaction ++ [("gas", gas)])]).

(** The text of the [Transaction denied] error for the request [id]. *)
Definition denied (id : value) : value :=
  error_document (-32603) "Transaction denied" id.

(** The event of the request [uid] of the view 12 once it is pending. *)
Definition pending_async (uid : nat) (payload id : value) : event :=
  mkEvent uid 12 false payload id.

(** ** Deliveries and the invariant of the pending maps *)

(** An answer handed to a caller: a return value or a push for an event. *)
Definition is_delivery (x : effect) : bool :=
  match x with
  | ReturnValue _ _ | Reply _ _ _ => true
  | _ => false
  end.

(** The event an effect is for. *)
Definition effect_uid (x : effect) : nat :=
  match x with
  | ReturnValue uid _ | Reply uid _ _ | GotResult uid _ _ => uid
  | _ => 0
  end.

(** The events that have been answered, one entry per answer, oldest
    first. *)
Definition deliveries (tr : list effect) : list nat :=
  map effect_uid (filter is_delivery tr).

(** How often the event [uid] has been answered. *)
Definition delivered (uid : nat) (tr : list effect) : nat :=
  count_occ Nat.eq_dec (deliveries tr) uid.

Definition entry_uid (entry : string * event) : nat := ev_uid (snd entry).

Definition gate_uid (g : gate) : nat := ev_uid (g_event g).

(** The events of the requests among the inputs. *)
Definition request_uids (inputs : list input) : list nat :=
  flat_map (fun i =>
              match i with
              | Request uid _ _ _ => [uid]
              | _ => []
              end) inputs.

(** What the invariant is about: the two pending maps, the gates, and the
    events answered so far. *)
Record pending_state : Type := mkPending {
  p_sync : list (string * event);
  p_async : list (string * event);
  p_gates : list gate;
  p_next_modal : nat;
  p_answered : list nat
}.

Definition pending_of (w : world) : pending_state :=
  mkPending (w_syncEvents w) (w_asyncEvents w) (w_gates w) (w_next_modal w)
            (deliveries (w_trace w)).

(** The events in the two pending maps. *)
Definition pending_uids (s : pending_state) : list nat :=
  map entry_uid (p_sync s ++ p_async s).

(** An entry of a pending map is filed under the id of its event, in the
    map for its kind of call. *)
Definition well_filed (sync : bool) (entry : string * event) : Prop :=
  ev_sync (snd entry) = sync /\ fst entry = to_string (ev_eventId (snd entry)).

(** The invariant of a connection.  [known] lists the events of the
    requests seen so far. *)
Record invariant (known : list nat) (s : pending_state) : Prop := mkInvariant {
  inv_once : NoDup (p_answered s);
  inv_pending_unanswered :
    forall uid, In uid (pending_uids s) -> ~ In uid (p_answered s);
  inv_pending_distinct : NoDup (pending_uids s);
  inv_sync_keys : NoDup (map fst (p_sync s));
  inv_async_keys : NoDup (map fst (p_async s));
  inv_sync_filed : Forall (well_filed true) (p_sync s);
  inv_async_filed : Forall (well_filed false) (p_async s);
  inv_gates_waiting :
    forall g, In g (p_gates s) -> g_called g = false ->
              ~ In (gate_uid g) (p_answered s)
              /\ ~ In (gate_uid g) (pending_uids s);
  inv_gates_modals : NoDup (map g_modal (p_gates s));
  inv_gates_below : forall g, In g (p_gates s) -> g_modal g < p_next_modal s;
  inv_gates_distinct : NoDup (map gate_uid (p_gates s));
  inv_known :
    forall uid,
      In uid (p_answered s) \/ In uid (pending_uids s)
      \/ In uid (map gate_uid (p_gates s)) ->
      In uid known
}.

(** The changes a turn of the event loop can make to the pending state. *)
Definition answer (uid : nat) (s : pending_state) : pending_state :=
  mkPending (p_sync s) (p_async s) (p_gates s) (p_next_modal s)
            (p_answered s ++ [uid]).

Definition file (k : string) (ev : event) (s : pending_state) : pending_state :=
  if ev_sync ev
  then mkPending (put k ev (p_sync s)) (p_async s) (p_gates s) (p_next_modal s)
                 (p_answered s)
  else mkPending (p_sync s) (put k ev (p_async s)) (p_gates s) (p_next_modal s)
                 (p_answered s).

Definition unfile (sync : bool) (k : string) (s : pending_state) : pending_state :=
  if sync
  then mkPending (remove_key k (p_sync s)) (p_async s) (p_gates s) (p_next_modal s)
                 (p_answered s)
  else mkPending (p_sync s) (remove_key k (p_async s)) (p_gates s) (p_next_modal s)
                 (p_answered s).

Definition forget_pending (s : pending_state) : pending_state :=
  mkPending [] [] (p_gates s) (p_next_modal s) (p_answered s).

Definition open_gate (g : gate) (s : pending_state) : pending_state :=
  mkPending (p_sync s) (p_async s) (p_gates s ++ [g]) (S (g_modal g)) (p_answered s).

Definition change_gate (modal : nat) (f : gate -> gate) (s : pending_state)
  : pending_state :=
  mkPending (p_sync s) (p_async s)
            (map (fun g => if Nat.eqb (g_modal g) modal then f g else g) (p_gates s))
            (p_next_modal s) (p_answered s).

(** The event [uid] has not been seen by the connection. *)
Definition fresh (uid : nat) (s : pending_state) : Prop :=
  ~ In uid (p_answered s) /\ ~ In uid (pending_uids s)
  /\ ~ In uid (map gate_uid (p_gates s)).

(** A program that leaves the pending state as it is. *)
Definition inert {A} (m : M A) : Prop :=
  forall w, pending_of (snd (m w)) = pending_of w.

(** [triple P m Q I]: run from a pending state with [P], the program [m]
    returns in one with [Q] or throws in one with [I]. *)
Definition triple {A} (P : pending_state -> Prop) (m : M A)
    (Q : A -> pending_state -> Prop) (I : pending_state -> Prop) : Prop :=
  forall w,
    P (pending_of w) ->
    match m w with
    | (Ok a, w') => Q a (pending_of w')
    | (Throw _, w') => I (pending_of w')
    | (Unmodelled, _) => True
    end.

(** The pending map for synchronous calls, or the one for the others. *)
Definition pending_map (sync : bool) (s : pending_state) : list (string * event) :=
  if sync then p_sync s else p_async s.

(** A loop of [timeout] with [rest] still to do: the entries to come are
    still in the map. *)
Definition timeout_rest (known : list nat) (sync : bool)
    (rest : list (string * event)) (s : pending_state) : Prop :=
  invariant known s /\ incl rest (pending_map sync s) /\ NoDup (map fst rest).

(** A loop over the gates with [rest] still to do. *)
Definition gates_rest (known : list nat) (rest : list gate) (s : pending_state) : Prop :=
  invariant known s /\ incl rest (p_gates s) /\ NoDup (map g_modal rest).

(** The listeners of the gate [g] run while [rest] are still to come. *)
Definition at_gate (known : list nat) (g : gate) (rest : list gate)
    (s : pending_state) : Prop :=
  invariant known s /\ In g (p_gates s) /\ incl rest (p_gates s)
  /\ ~ In (g_modal g) (map g_modal rest).

(** A request of the view 12, its response, and a timeout of the socket
    afterwards. *)
Definition sample_exchange : list input :=
  [Request 1 (VObj (request (VNum 7) "eth_getBalance" [])) false true;
   SocketData (DechunkResult
                 (VObj [("jsonrpc", VStr "2.0"); ("id", VNum 7);
                        ("result", VStr "0x10")]));
   SocketTimeout VNull].

(** The values assigned to [returnValue] of the event [uid], oldest
    first. *)
Definition return_values (uid : nat) (tr : list effect) : list value :=
  flat_map (fun x =>
              match x with
              | ReturnValue u data => if Nat.eqb u uid then [data] else []
              | ConnectResult u b => if Nat.eqb u uid then [VBool b] else []
              | _ => []
              end) tr.

Definition balance_request : value := VObj (request (VNum 7) "eth_getBalance" []).

Definition balance_response : value :=
  VObj [("jsonrpc", VStr "2.0"); ("id", VNum 7); ("result", VStr "0x10")].

(** The view asks for its connection to be destroyed, as it does when it is
    loaded; a synchronous request then makes a new connection; the socket
    connects; the node answers. *)
Definition reconnect_exchange : list input :=
  [IpcDestroy;
   Request 1 balance_request true true;
   SocketConnect VNull;
   SocketData (DechunkResult balance_response)].

(** A program that stays in the model and changes nothing but the
    templates. *)
Definition frame {A} (m : M A) : Prop :=
  forall w,
    (exists ts, snd (m w) = set_templates ts w)
    /\ fst (m w) <> Unmodelled.

(** A message of the node that [testPayload] returns as it is, when the
    request it is for asked for [method]: it has an [error] member, or a
    [method] member in the allowed namespaces, or neither of the two and
    either no result or a result for a method other than [eth_accounts]. *)
Definition response_passes (props : list (string * value)) (method : value) : bool :=
  truthy (field props "error")
  || (if truthy (field props "method")
      then allowed_method (to_string (field props "method"))
      else negb (truthy (field props "result"))
           || (truthy method && negb (strict_eq method (VStr "eth_accounts")))).

(** A request that [sendRequest] forwards as it is: a method in the allowed
    namespaces that is neither of the two the gate handles itself, and an id
    the callback can file it under. *)
Definition forwardable (props : list (string * value)) : bool :=
  truthy (field props "method")
  && allowed_method (to_string (field props "method"))
  && negb (strict_eq (field props "method") (VStr "eth_sendTransaction"))
  && negb (strict_eq (field props "method") (VStr "eth_compileSolidity"))
  && truthy (field props "id")
  && negb (String.eqb (to_string (field props "id")) "__proto__").

(** A connection with one asynchronous call of the view 12 pending under
    the id [constructor]. *)
Definition constructor_pending : world :=
  registered (VStr "constructor")
    (pending_async 1 (VObj (request (VStr "constructor") "eth_getBalance" []))
                   (VStr "constructor"))
    initial_world.

(** The message [props] comes through [filterRequestResponse] as it is when
    it answers [request]: the view is privileged, or the message is one
    [testPayload] returns as it is. *)
Definition passes_filter (e : env) (w : world) (request : value)
    (props : list (string * value)) : Prop :=
  is_admin e = true
  \/ exists m,
       get_prop (w_templates w) request "method" = Some m
       /\ response_passes props m = true.

(** The world after the entry of the event [ev] has been deleted. *)
Definition unfiled (ev : event) (w : world) : world :=
  if ev_sync ev
  then set_syncEvents (remove_key (to_string (ev_eventId ev)) (w_syncEvents w)) w
  else set_asyncEvents (remove_key (to_string (ev_eventId ev)) (w_asyncEvents w)) w.

(** The call of [sample_exchange] pending on a connection whose view has
    been closed. *)
Definition abandoned_call : world :=
  mkWorld initial_templates [] [("7", pending_async 1 balance_request (VNum 7))]
          true true 0 [12%Z] [] 0 [] [].

(** The gate [sendRequest] opens for the transaction [props] of the event
    [uid]. *)
Definition gate_of (e : env) (w : world) (uid : nat) (sync : bool)
    (props : list (string * value)) : gate :=
  mkGate (w_next_modal w) (VObj props)
         (mkEvent uid (this_id e) sync VUndefined VUndefined)
         (VObj props) (w_generation w) false true.

(** The transaction request [props] with the gas of its first parameter
    set. *)
Definition with_gas (props tx : list (string * value)) (rest : list value)
    (gas : value) : value :=
  VObj (set_assoc "params" (VArr (VObj (set_assoc "gas" gas tx) :: rest)) props).

(** Every payload kept in the pending maps is one [returnError] can be
    applied to. *)
Definition payloads_resolvable (s : pending_state) : Prop :=
  Forall (fun entry => resolvable (ev_payload (snd entry)) = true)
         (p_sync s ++ p_async s).

(** A program that keeps the payloads resolvable, also when it throws. *)
Definition keeps {A} (m : M A) : Prop :=
  triple payloads_resolvable m (fun _ => payloads_resolvable) payloads_resolvable.

(** The strings [/^[a-z_]*$/i] accepts. *)
Fixpoint word_only (s : string) : bool :=
  match s with
  | EmptyString => true
  | String c rest => is_word_char c && word_only rest
  end.

(** The strings without [$], which [String.prototype.replace] inserts as
    they are. *)
Fixpoint no_dollar (s : string) : bool :=
  match s with
  | EmptyString => true
  | String c rest => negb (Ascii.eqb c "$"%char) && no_dollar rest
  end.

(** [payload.method] as [makeError] concatenates it. *)
Definition method_of (props : list (string * value)) : string :=
  to_string (field props "method").

(** The message of the template [r] with the method [name] in the place of
    the placeholder. *)
Definition names (r : tref) (name : string) : string :=
  match r with
  | errorMethod => "Method '" ++ name ++ "' not allowed."
  | errorTimeout => "Request timed out for method  '" ++ name ++ "'."
  | _ => t_message (get_template initial_templates r)
  end.

(** ** The return value [connect] gives to its event *)

(** The events [connect], its listeners and its timers have given a return
    value, one entry per assignment, oldest first. *)
Definition connect_results (tr : list effect) : list nat :=
  flat_map (fun x =>
              match x with
              | ConnectResult uid _ => [uid]
              | _ => []
              end) tr.

(** Call of [connect] by call, the event and whether its timer is
    pending. *)
Definition timers (l : list attempt) : list (nat * bool) :=
  map (fun a => (a_event a, a_timer a)) l.

(** What [connect], its listeners and its timers work on. *)
Definition connect_state (w : world) : list (nat * bool) * list nat :=
  (timers (w_attempts w), connect_results (w_trace w)).

(** A program that calls no [connect] and none of its listeners or
    timers. *)
Definition calm {A} (m : M A) : Prop :=
  forall w, connect_state (snd (m w)) = connect_state w.

(** The events of the requests and of the messages [ipcProvider-create]
    among the inputs: the events [connect] can be called with. *)
Definition connect_uids (inputs : list input) : list nat :=
  flat_map (fun i =>
              match i with
              | Request uid _ _ _ => [uid]
              | IpcCreate uid _ => [uid]
              | _ => []
              end) inputs.

(** The invariant of [connect].  [known] lists the events seen so far. *)
Record connect_invariant (known : list nat) (s : list (nat * bool) * list nat)
  : Prop := mkConnectInvariant {
  ci_calls : NoDup (map fst (fst s));
  ci_once : NoDup (snd s);
  ci_waiting : forall uid, In (uid, true) (fst s) -> ~ In uid (snd s);
  ci_known : forall uid, In uid (map fst (fst s)) \/ In uid (snd s) -> In uid known
}.

(** A program that keeps the invariant of [connect], however it ends. *)
Definition connect_safe (known : list nat) {A} (m : M A) : Prop :=
  forall w,
    connect_invariant known (connect_state w) ->
    connect_invariant known (connect_state (snd (m w))).

(** The view asks for its connection to be destroyed and for a new one;
    the socket connects; the timer of [connect] fires afterwards. *)
Definition connect_exchange : list input :=
  [IpcDestroy; IpcCreate 1 true; SocketConnect VNull; ConnectTimer 0].

(** ** Batch responses *)

(** [req ? req.method : false] for the request [_.find] picks for the
    element [resp] of a batch response: the first one with the same id. *)
Definition method_for (reqs : list (list (string * value)))
    (resp : list (string * value)) : value :=
  match find (fun re => strict_eq (field re "id") (field resp "id")) reqs with
  | Some re => field re "method"
  | None => VBool false
  end.

Definition batch_requests : list (list (string * value)) :=
  [request (VNum 1) "eth_getBalance" []; request (VNum 2) "eth_blockNumber" []].

Definition batch_responses : list (list (string * value)) :=
  [[("jsonrpc", VStr "2.0"); ("id", VNum 1); ("result", VStr "0x10")];
   [("jsonrpc", VStr "2.0"); ("id", VNum 2); ("result", VStr "0x5")]].

(** The batch [batch_requests] of the view 12 pending under the id of its
    first element. *)
Definition batch_pending : world :=
  registered (VNum 1)
    (pending_async 1 (VArr (map VObj batch_requests)) (VNum 1))
    initial_world.

(** ** What reaches the socket *)

(** The texts written to the socket, oldest first. *)
Definition writes (tr : list effect) : list value :=
  flat_map (fun x =>
              match x with
              | SocketWrite data => [data]
              | _ => []
              end) tr.

(** What the filter lets an untrusted view send as one request: an object
    with a truthy [error] member, or without a truthy [method], or with a
    method in the allowed namespaces.  Everything that is not an object of
    the view (a template of the module, a number, a string) counts as
    harmless. *)
Definition permitted_doc (v : value) : bool :=
  match v with
  | VObj props =>
      truthy (field props "error")
      || negb (truthy (field props "method"))
      || allowed_method (to_string (field props "method"))
  | _ => true
  end.

(** The same for a payload: element by element for a batch. *)
Definition permitted (payload : value) : bool :=
  match payload with
  | VArr loads => forallb permitted_doc loads
  | other => permitted_doc other
  end.

(** The values [JSON.parse] makes, and the arguments of an IPC message:
    they hold no [undefined] and none of the templates of the module. *)
Fixpoint json (v : value) : bool :=
  match v with
  | VUndefined | VRef _ => false
  | VArr l => forallb json l
  | VObj props => forallb (fun p => json (snd p)) props
  | _ => true
  end.

Section ValueInduction.

Variable P : value -> Prop.
Hypothesis Hatom :
  forall v, match v with VArr _ | VObj _ => False | _ => True end -> P v.
Hypothesis HArr : forall l, Forall P l -> P (VArr l).
Hypothesis HObj : forall props, Forall (fun p => P (snd p)) props -> P (VObj props).

(** Induction on a value and, with it, on the values it holds. *)
Fixpoint value_nested_ind (v : value) : P v :=
  match v with
  | VArr l =>
      HArr l ((fix go (l : list value) : Forall P l :=
                 match l with
                 | [] => Forall_nil P
                 | x :: rest => Forall_cons x (value_nested_ind x) (go rest)
                 end) l)
  | VObj props =>
      HObj props
        ((fix go (ps : list (string * value)) : Forall (fun p => P (snd p)) ps :=
            match ps with
            | [] => Forall_nil (fun p => P (snd p))
            | p :: rest =>
                Forall_cons (P := fun p => P (snd p)) p
                            (value_nested_ind (snd p)) (go rest)
            end) props)
  | VUndefined => Hatom VUndefined Logic.I
  | VNull => Hatom VNull Logic.I
  | VBool b => Hatom (VBool b) Logic.I
  | VNum n => Hatom (VNum n) Logic.I
  | VStr s => Hatom (VStr s) Logic.I
  | VRef r => Hatom (VRef r) Logic.I
  end.

End ValueInduction.

(** A request as the filter hands it on: an object of the view is a parsed
    one the filter lets through; everything else is no object of the
    view. *)
Definition sound_doc (v : value) : bool :=
  match v with
  | VObj _ => json v && permitted_doc v
  | _ => true
  end.

Definition sound (payload : value) : bool :=
  match payload with
  | VArr loads => forallb sound_doc loads
  | other => sound_doc other
  end.

(** The payload of a request is a parsed text, and so is the gas a popup
    reports. *)
Definition json_input (i : input) : Prop :=
  match i with
  | Request _ payload _ _ => json payload = true
  | UnlockedAccount _ _ _ result => json result = true
  | _ => True
  end.

(** Everything written so far is a permitted text, and every transaction
    that waits for its confirmation is sound. *)
Definition written_permitted (w : world) : Prop :=
  Forall (fun data => permitted data = true) (writes (w_trace w))
  /\ Forall (fun g => sound (g_payload g) = true) (w_gates w).

(** A program that writes nothing to the socket and leaves the gates as
    they are. *)
Definition silent {A} (m : M A) : Prop :=
  forall w,
    writes (w_trace (snd (m w))) = writes (w_trace w)
    /\ w_gates (snd (m w)) = w_gates w.

(** A program that keeps [written_permitted], however it ends, and whose
    result has the property [R] when it returns. *)
Definition guards {A} (m : M A) (R : A -> Prop) : Prop :=
  forall w,
    written_permitted w ->
    written_permitted (snd (m w))
    /\ forall a, fst (m w) = Ok a -> R a.

(** The result of a program has the property [R] whenever it returns. *)
Definition yields {A} (m : M A) (R : A -> Prop) : Prop :=
  forall w a, fst (m w) = Ok a -> R a.

(** A batch of the view 12 with a request outside the allowed namespaces
    and one inside them. *)
Definition mixed_batch : value :=
  VArr [VObj (request (VNum 1) "admin_peers" []);
        VObj (request (VNum 2) "eth_blockNumber" [])].

(** * Properties *)

(** ** Templates *)

Lemma tref_eqb_eq (a b : tref) : tref_eqb a b = true <-> a = b.
Proof. destruct a, b; simpl; split; intro H; try reflexivity; discriminate H. Qed.

Lemma tref_eqb_refl (a : tref) : tref_eqb a a = true.
Proof. destruct a; reflexivity. Qed.

Lemma get_update_same ts r t : get_template (update_template ts r t) r = t.
Proof. destruct r; reflexivity. Qed.

Lemma get_update_other ts r r' t :
  r <> r' -> get_template (update_template ts r t) r' = get_template ts r'.
Proof. destruct r, r'; intro H; try reflexivity; exfalso; apply H; reflexivity. Qed.

Lemma makeError_obj props r w :
  makeError (VObj props) r w
  = (Ok (VRef r),
     set_templates
       (update_template (w_templates w) r
          (written (get_template (w_templates w) r) r props)) w).
Proof. destruct r; reflexivity. Qed.

Lemma set_templates_id w : set_templates (w_templates w) w = w.
Proof. destruct w; reflexivity. Qed.

Lemma mapM_makeError_objs loads r w :
  mapM (fun load => makeError load r) (map VObj loads) w
  = (Ok (repeat (VRef r) (List.length loads)),
     set_templates (batch_templates loads r (w_templates w)) w).
Proof.
  revert w; induction loads as [|props rest IH]; intro w.
  - cbn. rewrite set_templates_id. reflexivity.
  - simpl mapM. unfold bind at 1. rewrite makeError_obj.
    unfold bind at 1. rewrite IH. reflexivity.
Qed.

Lemma returnError_objs loads r w :
  returnError (VArr (map VObj loads)) r w
  = (Ok (VArr (repeat (VRef r) (List.length loads))),
     set_templates (batch_templates loads r (w_templates w)) w).
Proof.
  unfold returnError, bind. rewrite mapM_makeError_objs. reflexivity.
Qed.

Lemma batch_templates_app front back r ts :
  batch_templates (front ++ back) r ts
  = batch_templates back r (batch_templates front r ts).
Proof.
  revert ts; induction front as [|p rest IH]; intro ts; [reflexivity|].
  simpl. apply IH.
Qed.

Lemma batch_templates_last_id front lastp r ts :
  t_id (get_template (batch_templates (front ++ [lastp]) r ts) r)
  = field lastp "id".
Proof.
  rewrite batch_templates_app. simpl. rewrite get_update_same. reflexivity.
Qed.

Lemma stringify_repeat ts v n :
  JSON_stringify ts (VArr (repeat (VRef v) n))
  = VArr (repeat (JSON_stringify ts (VRef v)) n).
Proof.
  simpl. f_equal. induction n as [|n IH]; [reflexivity|].
  simpl. rewrite IH. f_equal.
  destruct v; simpl; destruct (t_id _); reflexivity.
Qed.

Lemma ref_id ts r : get_prop ts (VRef r) "id" = Some (t_id (get_template ts r)).
Proof. destruct r; reflexivity. Qed.

Lemma stale_message t r props :
  find_match (t_message t) = None ->
  t_message (written t r props) = t_message t.
Proof.
  intro H. unfold written; simpl. destruct (has_error r); [|reflexivity].
  unfold js_replace. rewrite H. reflexivity.
Qed.

(** C10: error synthesis reuses one shared mutable template per error kind.
    [makeError] writes the id and the method of the payload into the template
    it is given and returns that very object; for a batch of n requests
    [returnError] returns n references to the one template, whose id is the
    id of the last request, so that the text of the batch error repeats one
    document n times; a template whose message no longer matches the pattern
    keeps the message an earlier call left in it, and the second of two
    synthesized errors below still names the method of the first. *)
Theorem makeError_shares_one_template :
  (forall props r w,
      makeError (VObj props) r w
      = (Ok (VRef r),
         set_templates
           (update_template (w_templates w) r
              (written (get_template (w_templates w) r) r props)) w))
  /\ (forall front lastp r w,
        let loads := front ++ [lastp] in
        let w' := set_templates (batch_templates loads r (w_templates w)) w in
        returnError (VArr (map VObj loads)) r w
        = (Ok (VArr (repeat (VRef r) (List.length loads))), w')
        /\ get_prop (w_templates w') (VRef r) "id" = Some (field lastp "id")
        /\ JSON_stringify (w_templates w') (VArr (repeat (VRef r) (List.length loads)))
           = VArr (repeat (JSON_stringify (w_templates w') (VRef r)) (List.length loads)))
  /\ (forall t r props,
        find_match (t_message t) = None ->
        t_message (written t r props) = t_message t)
  /\ (first <- makeError (VObj [("id", VNum 1); ("method", VStr "admin_v2")]) errorMethod ;;
      second <- makeError (VObj [("id", VNum 2); ("method", VStr "admin_addPeer")])
                          errorMethod ;;
      stringify second) initial_world
     = (Ok (VObj [("jsonrpc", VStr "2.0");
                  ("error", VObj [("code", VNum (-32601));
                                  ("message", VStr "Method 'admin_v2' not allowed.")]);
                  ("id", VNum 2)]),
        set_templates
          (update_template initial_templates errorMethod
             (mkTemplate "Method 'admin_v2' not allowed." (VNum 2)))
          initial_world).
Proof.
  split; [exact makeError_obj|].
  split.
  - intros front lastp r w loads w'. subst loads w'.
    split; [apply returnError_objs|].
    split; [rewrite ref_id; f_equal; apply batch_templates_last_id
           |apply stringify_repeat].
  - split; [exact stale_message|reflexivity].
Qed.

(** ** Stepping through the monad *)

Lemma bind_ret {A B} (a : A) (f : A -> M B) w : bind (ret a) f w = f a w.
Proof. reflexivity. Qed.

Lemma bind_bind {A B C} (m : M A) (f : A -> M B) (g : B -> M C) w :
  bind (bind m f) g w = bind m (fun a => bind (f a) g) w.
Proof. unfold bind. destruct (m w) as [[a| |] w']; reflexivity. Qed.

Lemma bind_get {B} (f : world -> M B) w : bind get f w = f w w.
Proof. reflexivity. Qed.

Lemma bind_modify {B} (h : world -> world) (f : unit -> M B) w :
  bind (modify h) f w = f tt (h w).
Proof. reflexivity. Qed.

Lemma bind_emit {B} (x : effect) (f : unit -> M B) w :
  bind (emit x) f w = f tt (add_effect x w).
Proof. reflexivity. Qed.

Lemma bind_stringify {B} (v : value) (f : value -> M B) w :
  bind (stringify v) f w = f (JSON_stringify (w_templates w) v) w.
Proof. reflexivity. Qed.

Lemma bind_throw {A B} (msg : string) (f : A -> M B) w :
  bind (throw msg) f w = (Throw msg, w).
Proof. reflexivity. Qed.

Lemma bind_unmodelled {A B} (f : A -> M B) w :
  bind unmodelled f w = (Unmodelled, w).
Proof. reflexivity. Qed.

Lemma bind_prop_obj {B} props k (f : value -> M B) w :
  bind (prop (VObj props) k) f w = f (field props k) w.
Proof. reflexivity. Qed.

Lemma bind_ok {A B} (m : M A) (f : A -> M B) w a w' :
  m w = (Ok a, w') -> bind m f w = f a w'.
Proof. intro H. unfold bind. rewrite H. reflexivity. Qed.

Lemma bind_if {A B} (c : bool) (m1 m2 : M A) (f : A -> M B) w :
  bind (if c then m1 else m2) f w = (if c then bind m1 f w else bind m2 f w).
Proof. destruct c; reflexivity. Qed.

Lemma if_world {A} (c : bool) (m1 m2 : M A) w :
  (if c then m1 else m2) w = (if c then m1 w else m2 w).
Proof. destruct c; reflexivity. Qed.

Create Rewrite HintDb js.

#[local] Hint Rewrite @bind_bind @bind_ret @bind_get @bind_modify @bind_emit @bind_stringify
  @bind_throw @bind_unmodelled @bind_prop_obj : js.

Ltac js := repeat (autorewrite with js; cbv beta iota).

(** ** The filter on a single request *)

Lemma filter_passes_allowed e props w :
  truthy (field props "method") = true ->
  allowed_method (to_string (field props "method")) = true ->
  filterRequestResponse e (VObj props) None w = (Ok (VObj props), w).
Proof.
  intros Ht Ha. unfold filterRequestResponse.
  change (isObject (VObj props)) with true. cbv beta iota.
  change (negb true) with false. cbv iota.
  destruct (is_admin e); [reflexivity|].
  js. unfold testPayload. js.
  destruct (truthy (field props "error")); [reflexivity|].
  js. rewrite Ht, Ha. reflexivity.
Qed.

Ltac wsimpl :=
  cbn [w_templates w_syncEvents w_asyncEvents w_writable w_live w_generation
       w_closed_views w_gates w_next_modal w_trace w_attempts
       add_effect set_templates set_syncEvents set_asyncEvents set_socket
       set_gates set_attempts new_connection removeAllListeners fst snd] in *.

Lemma bind_isDestroyed {B} s (f : bool -> M B) w :
  bind (isDestroyed s) f w = f (negb (alive w s)) w.
Proof. unfold alive. rewrite negb_involutive. reflexivity. Qed.

Lemma bind_getId_alive {B} s (f : Z -> M B) w :
  alive w s = true -> bind (getId s) f w = f s w.
Proof.
  intro H. unfold getId. rewrite bind_bind, bind_isDestroyed, H. reflexivity.
Qed.

Lemma bind_deliver_alive {B} uid sender sync p i data (f : unit -> M B) w :
  alive w sender = true ->
  bind (deliver (mkEvent uid sender sync p i) data) f w
  = f tt (add_effect (delivery uid sender sync data) w).
Proof.
  intro H. unfold deliver, delivery. cbn [ev_sync]. destruct sync.
  - reflexivity.
  - unfold reply. rewrite bind_bind, bind_isDestroyed. cbn [ev_sender].
    rewrite H. reflexivity.
Qed.

Lemma bind_prop_some {B} v k x (f : value -> M B) w :
  get_prop (w_templates w) v k = Some x -> bind (prop v k) f w = f x w.
Proof. intro H. unfold bind, prop. rewrite H. reflexivity. Qed.

Lemma bind_index_some {B} v i x (f : value -> M B) w :
  get_index v i = Some x -> bind (index v i) f w = f x w.
Proof. intro H. unfold bind, index. rewrite H. reflexivity. Qed.

Lemma truthy_get_prop ts v :
  truthy v = true -> forall k, get_prop ts v k = Some (member ts v k).
Proof.
  intros H k. unfold member. destruct v; try discriminate H; try reflexivity.
  simpl. destruct r; reflexivity.
Qed.


(** ** Narrowing of account lists *)

Lemma strict_eq_true a b : strict_eq a b = true -> a = b.
Proof.
  destruct a, b; simpl; intro H; try discriminate H; try reflexivity.
  - apply Bool.eqb_prop in H. congruence.
  - apply Z.eqb_eq in H. congruence.
  - apply String.eqb_eq in H. congruence.
  - apply tref_eqb_eq in H. congruence.
Qed.

Lemma contains_In l x : contains l x = true -> In x l.
Proof.
  unfold contains. intro H. apply existsb_exists in H.
  destruct H as [y [Hin Heq]]. apply strict_eq_true in Heq. subst. exact Hin.
Qed.

Lemma In_contains l x : In x l -> strict_eq x x = true -> contains l x = true.
Proof.
  intros Hin Hx. unfold contains. apply existsb_exists. exists x. split; assumption.
Qed.

Lemma contains_self l x : contains l x = true -> strict_eq x x = true.
Proof.
  unfold contains. intro H. apply existsb_exists in H.
  destruct H as [y [_ Heq]]. pose proof (strict_eq_true _ _ Heq). subst. exact Heq.
Qed.

Lemma intersection_loop_sound items other acc x :
  In x (intersection_loop items other acc) ->
  In x acc \/ (In x items /\ contains other x = true).
Proof.
  revert acc. induction items as [|item rest IH]; intros acc H; simpl in H.
  - left. exact H.
  - destruct (contains acc item) eqn:Hacc.
    + destruct (IH _ H) as [Ha|[Hr Ho]]; [left; exact Ha|right; split; [right|]; assumption].
    + destruct (contains other item) eqn:Hother.
      * destruct (IH _ H) as [Ha|[Hr Ho]].
        -- apply in_app_or in Ha. destruct Ha as [Ha|[Ha|[]]].
           ++ left. exact Ha.
           ++ subst. right. split; [left; reflexivity|exact Hother].
        -- right. split; [right|]; assumption.
      * destruct (IH _ H) as [Ha|[Hr Ho]]; [left; exact Ha|right; split; [right|]; assumption].
Qed.

Lemma intersection_loop_keeps items other acc x :
  In x acc -> In x (intersection_loop items other acc).
Proof.
  revert acc. induction items as [|item rest IH]; intros acc H; simpl.
  - exact H.
  - destruct (contains acc item); [apply IH; exact H|].
    destruct (contains other item); apply IH; [apply in_or_app; left|]; exact H.
Qed.

Lemma intersection_loop_complete items other acc x :
  In x items -> contains other x = true ->
  In x (intersection_loop items other acc).
Proof.
  revert acc. induction items as [|item rest IH]; intros acc Hin Ho; simpl.
  - destruct Hin.
  - destruct Hin as [Heq|Hin].
    + subst item. destruct (contains acc x) eqn:Hacc.
      * apply intersection_loop_keeps. apply contains_In. exact Hacc.
      * rewrite Ho. apply intersection_loop_keeps. apply in_or_app. right. left. reflexivity.
    + destruct (contains acc item); [apply IH; assumption|].
      destruct (contains other item); apply IH; assumption.
Qed.

Lemma intersection_loop_NoDup items other acc :
  NoDup acc -> NoDup (intersection_loop items other acc).
Proof.
  revert acc. induction items as [|item rest IH]; intros acc H; simpl.
  - exact H.
  - destruct (contains acc item) eqn:Hacc; [apply IH; exact H|].
    destruct (contains other item) eqn:Ho; [|apply IH; exact H].
    apply IH. apply NoDup_app; [exact H|repeat constructor; intros []|].
    intros y Hy [Hy'|[]]. subst y.
    assert (contains acc item = true); [|congruence].
    apply In_contains; [exact Hy|]. eapply contains_self. exact Ho.
Qed.

Lemma testPayload_accounts e props error accts w :
  truthy (field props "error") = false ->
  truthy (field props "method") = false ->
  field props "result" = VArr accts ->
  testPayload e (VObj props) error (VStr "eth_accounts") w
  = (Ok (VObj (set_assoc "result" (VArr (narrowed e (w_templates w) accts)) props)), w).
Proof.
  intros He Hm Hr. unfold testPayload. js. rewrite He. js. rewrite Hm. js.
  rewrite Hr. cbn [truthy negb strict_eq String.eqb Ascii.eqb Bool.eqb].
  cbv iota. js. unfold narrowed.
  destruct (truthy (tab_accounts (w_templates w) (Tabs_findOne e))); reflexivity.
Qed.

Lemma getResponseEvent_single props w :
  getResponseEvent (VObj props) w = (Ok (pending_event w (field props "id")), w).
Proof. unfold getResponseEvent. js. reflexivity. Qed.

Lemma log_notification_alive e v w :
  non_nullish v = true ->
  alive w (this_id e) = true ->
  log_notification e v w = (Ok tt, w).
Proof.
  intros Hv Ha. unfold log_notification.
  assert (Hp : exists x, get_prop (w_templates w) v "id" = Some x).
  { destruct v; try discriminate Hv; try (eexists; reflexivity).
    cbn [get_prop]. destruct (template_object (w_templates w) r); eexists; reflexivity. }
  destruct Hp as [x Hx]. rewrite (bind_prop_some _ _ _ _ _ Hx).
  destruct (negb (truthy x) && negb (isArray v)); [|reflexivity].
  rewrite bind_getId_alive by exact Ha. reflexivity.
Qed.

Lemma bind_log_notification_obj {B} e props (f : unit -> M B) w :
  alive w (this_id e) = true ->
  bind (log_notification e (VObj props)) f w = f tt w.
Proof.
  intro Ha. apply bind_ok. apply log_notification_alive; [reflexivity|exact Ha].
Qed.


(** ** Batches *)

Lemma stringify_error_ref ts r :
  has_error r = true ->
  JSON_stringify ts (VRef r)
  = error_document (error_code r) (t_message (get_template ts r))
                   (t_id (get_template ts r)).
Proof.
  intro H. destruct r; try discriminate H; unfold error_document; simpl;
    destruct (t_id _); reflexivity.
Qed.

Lemma testPayload_request e props r w :
  testPayload e (VObj props) (Some r) (VBool false) w
  = match filter_load props with
    | Some _ =>
        (Ok (VRef r),
         set_templates
           (update_template (w_templates w) r
              (written (get_template (w_templates w) r) r props)) w)
    | None => (Ok (VObj props), w)
    end.
Proof.
  unfold testPayload, filter_load. js.
  destruct (truthy (field props "error")); [reflexivity|]. js.
  destruct (truthy (field props "method")).
  - destruct (allowed_method (to_string (field props "method"))); cbn [negb]; cbv iota.
    + reflexivity.
    + unfold reject, returnError. apply makeError_obj.
  - js. destruct (truthy (field props "result")); [|reflexivity].
    cbn [truthy negb]. cbv iota. unfold reject, returnError. apply makeError_obj.
Qed.

Lemma bind_run {A B} (m : M A) (f : A -> M B) w :
  bind m f w
  = match m w with
    | (Ok a, w') => f a w'
    | (Throw msg, w') => (Throw msg, w')
    | (Unmodelled, w') => (Unmodelled, w')
    end.
Proof. reflexivity. Qed.

Lemma filter_batch_untrusted e loads w :
  is_admin e = false ->
  mapM (fun load =>
          req <- ret (VBool false) ;;
          res <- prop load "result" ;;
          method <- (if truthy req then prop req "method" else ret (VBool false)) ;;
          testPayload e load (Some (batch_error res)) method)
       (map VObj loads) w
  = (Ok (map (fun props =>
                match filter_load props with
                | Some r => VRef r
                | None => VObj props
                end) loads),
     set_templates (filter_templates loads (w_templates w)) w).
Proof.
  intro Hadm. revert w. induction loads as [|props rest IH]; intro w.
  { cbn. rewrite set_templates_id. reflexivity. }
  cbn [map mapM]. js. cbn [truthy]. cbv iota. js.
  rewrite bind_run, testPayload_request. cbn [filter_templates].
  destruct (filter_load props) as [r|] eqn:Hf.
  - assert (r = batch_error (field props "result")) as ->.
    { revert Hf. unfold filter_load.
      destruct (truthy (field props "error")); [discriminate|].
      destruct (truthy (field props "method")).
      - destruct (allowed_method _); [discriminate|congruence].
      - destruct (truthy (field props "result")); [congruence|discriminate]. }
    js. rewrite bind_run, IH. reflexivity.
  - js. rewrite bind_run, IH. reflexivity.
Qed.

Lemma filter_batch e loads w :
  filterRequestResponse e (VArr (map VObj loads)) None w
  = (Ok (VArr (filtered_batch e loads)), filter_world e loads w).
Proof.
  unfold filterRequestResponse, filtered_batch, filter_world. cbn [isObject negb]. cbv iota.
  destruct (is_admin e) eqn:Hadm; [reflexivity|].
  rewrite bind_run, (filter_batch_untrusted e loads w Hadm). reflexivity.
Qed.

Lemma sendTransaction_kept props :
  is_sendTransaction props = true -> filter_load props = None.
Proof.
  unfold is_sendTransaction, filter_load. intro H. apply strict_eq_true in H.
  rewrite H. destruct (truthy (field props "error")); reflexivity.
Qed.

Lemma replaced_is_not_sendTransaction props r ts :
  filter_load props = Some r ->
  get_prop ts (VRef r) "method" = Some VUndefined
  \/ get_prop ts (VRef r) "method" = Some (VStr "eth_nonExistingMethod").
Proof.
  unfold filter_load. intro H.
  assert (r = batch_error (field props "result")) as ->.
  { destruct (truthy (field props "error")); [discriminate|].
    destruct (truthy (field props "method")).
    - destruct (allowed_method _); [discriminate|congruence].
    - destruct (truthy (field props "result")); [congruence|discriminate]. }
  unfold batch_error. destruct (truthy (field props "result")); [left|right]; reflexivity.
Qed.

Lemma find_sendTransaction e loads w :
  exists found,
    findM (fun payload =>
             m <- prop payload "method" ;;
             ret (strict_eq m (VStr "eth_sendTransaction")))
          (filtered_batch e loads) w
    = (Ok found, w)
    /\ truthy found = existsb is_sendTransaction loads.
Proof.
  unfold filtered_batch.
  induction loads as [|props rest IH].
  - exists VUndefined. destruct (is_admin e); split; reflexivity.
  - destruct IH as [found [IH Ht]].
    destruct (is_sendTransaction props) eqn:Hs.
    + exists (VObj props). split; [|cbn [existsb]; rewrite Hs; reflexivity].
      destruct (is_admin e); cbn [map findM];
        rewrite ?(sendTransaction_kept _ Hs); js;
        fold (is_sendTransaction props); rewrite Hs; reflexivity.
    + exists found. split; [|cbn [existsb]; rewrite Hs; exact Ht].
      destruct (is_admin e) eqn:Hadm.
      * cbn [map findM]. js. fold (is_sendTransaction props). rewrite Hs. exact IH.
      * cbn [map findM]. destruct (filter_load props) as [r|] eqn:Hf.
        -- destruct (replaced_is_not_sendTransaction props r (w_templates w) Hf) as [H|H];
             rewrite bind_bind, (bind_prop_some _ _ _ _ _ H); js; exact IH.
        -- js. fold (is_sendTransaction props). rewrite Hs. exact IH.
Qed.

Lemma batch_templates_other loads r r' ts :
  r <> r' ->
  get_template (batch_templates loads r ts) r' = get_template ts r'.
Proof.
  intro H. revert ts. induction loads as [|p rest IH]; intro ts; [reflexivity|].
  simpl. rewrite IH. apply get_update_other. exact H.
Qed.

Lemma batch_templates_message loads r ts :
  find_match (t_message (get_template ts r)) = None ->
  t_message (get_template (batch_templates loads r ts) r)
  = t_message (get_template ts r).
Proof.
  revert ts. induction loads as [|p rest IH]; intros ts H; [reflexivity|].
  simpl. rewrite IH; rewrite get_update_same, stale_message; try exact H; reflexivity.
Qed.

Lemma batch_templates_id loads r ts :
  loads <> [] ->
  t_id (get_template (batch_templates loads r ts) r) = last_id loads.
Proof.
  intro H. destruct (exists_last H) as [front [lastp ->]].
  rewrite batch_templates_last_id. unfold last_id. rewrite last_last. reflexivity.
Qed.

Lemma filter_load_template props r :
  filter_load props = Some r -> r = errorMethod \/ r = nonExistingRequest.
Proof.
  unfold filter_load, batch_error.
  destruct (truthy (field props "error")); [discriminate|].
  destruct (truthy (field props "method")).
  - destruct (allowed_method _); [discriminate|].
    destruct (truthy (field props "result")); intro H; injection H as <-; auto.
  - destruct (truthy (field props "result")); [|discriminate].
    intro H; injection H as <-; auto.
Qed.

Lemma filter_templates_other loads r ts :
  r <> errorMethod -> r <> nonExistingRequest ->
  get_template (filter_templates loads ts) r = get_template ts r.
Proof.
  intros H1 H2. revert ts. induction loads as [|p rest IH]; intro ts; [reflexivity|].
  simpl. rewrite IH. destruct (filter_load p) as [r'|] eqn:Hf; [|reflexivity].
  apply get_update_other. destruct (filter_load_template _ _ Hf); congruence.
Qed.

Lemma filter_world_fixed e loads w :
  fixed_messages w -> fixed_messages (filter_world e loads w).
Proof.
  unfold fixed_messages, filter_world. intros [Hb Hu].
  destruct (is_admin e); [split; assumption|]. wsimpl.
  rewrite !filter_templates_other by discriminate. split; assumption.
Qed.

Lemma filter_world_frame e loads w :
  w_trace (filter_world e loads w) = w_trace w
  /\ w_syncEvents (filter_world e loads w) = w_syncEvents w
  /\ w_asyncEvents (filter_world e loads w) = w_asyncEvents w
  /\ w_closed_views (filter_world e loads w) = w_closed_views w
  /\ w_live (filter_world e loads w) = w_live w
  /\ w_generation (filter_world e loads w) = w_generation w
  /\ w_gates (filter_world e loads w) = w_gates w.
Proof. unfold filter_world. destruct (is_admin e); repeat split; reflexivity. Qed.

Lemma sendRequest_ready e uid payload sync connects w :
  ready e w ->
  sendRequest e uid payload sync connects w
  = bind (filterRequestResponse e payload None)
      (fun filteredPayload =>
         let ev := mkEvent uid (this_id e) sync VUndefined VUndefined in
         if isEmpty filteredPayload then
           err <- returnError payload errorMethod ;;
           data <- stringify err ;;
           deliver ev data
         else w <- get ;; checkRequests e filteredPayload ev payload (w_generation w))
      w.
Proof.
  intros [Halive [Hlive Hwr]]. unfold sendRequest.
  rewrite bind_getId_alive by assumption. js.
  rewrite Hlive, Hwr. cbn [negb]. js. rewrite Hwr. reflexivity.
Qed.

Lemma existsb_nonempty {A} (f : A -> bool) l : existsb f l = true -> l <> [].
Proof. destruct l; [discriminate|discriminate]. Qed.

Lemma deliver_alive uid sender sync p i data w :
  alive w sender = true ->
  deliver (mkEvent uid sender sync p i) data w
  = (Ok tt, add_effect (delivery uid sender sync data) w).
Proof.
  intro H. unfold deliver, delivery. cbn [ev_sync]. destruct sync.
  - reflexivity.
  - unfold reply. rewrite bind_isDestroyed. cbn [ev_sender]. rewrite H. reflexivity.
Qed.

Lemma find_match_batch_denied : find_match batch_denied_message = None.
Proof. reflexivity. Qed.


(** ** Timeouts *)

Lemma non_nullish_prop ts v k :
  non_nullish v = true -> get_prop ts v k = Some (member ts v k).
Proof.
  intro H. unfold member. destruct v; try discriminate H; try reflexivity.
  simpl. destruct r; reflexivity.
Qed.

Lemma makeError_non_nullish payload r w :
  non_nullish payload = true ->
  exists ts',
    makeError payload r w = (Ok (VRef r), set_templates ts' w)
    /\ t_id (get_template ts' r) = member ts' payload "id".
Proof.
  intro H. unfold makeError.
  destruct (has_error r) eqn:Herr.
  - rewrite bind_bind.
    rewrite (bind_prop_some _ _ _ _ _ (non_nullish_prop (w_templates w) payload "method" H)).
    js. wsimpl.
    rewrite (bind_prop_some _ _ _ _ _ (non_nullish_prop _ payload "id" H)).
    js. wsimpl. eexists. split; [reflexivity|].
    rewrite !get_update_same. cbn [t_id t_message].
    destruct payload; try reflexivity.
    unfold member. cbn [get_prop].
    destruct r0, r; try discriminate Herr; reflexivity.
  - js.
    rewrite (bind_prop_some _ _ _ _ _ (non_nullish_prop _ payload "id" H)).
    js. eexists. split; [reflexivity|].
    rewrite !get_update_same. cbn [t_id].
    destruct payload; try reflexivity.
    unfold member. cbn [get_prop].
    destruct r0, r; try discriminate Herr; reflexivity.
Qed.

Lemma mapM_makeError_non_nullish loads r w :
  forallb non_nullish loads = true ->
  exists ts',
    mapM (fun load => makeError load r) loads w
    = (Ok (repeat (VRef r) (List.length loads)), set_templates ts' w)
    /\ (loads = [] -> ts' = w_templates w)
    /\ (forall front props,
          loads = front ++ [VObj props] ->
          t_id (get_template ts' r) = field props "id").
Proof.
  revert w. induction loads as [|x rest IH]; intros w H.
  - exists (w_templates w). split; [cbn; rewrite set_templates_id; reflexivity|].
    split; [reflexivity|]. intros [|? ?] props Hd; discriminate Hd.
  - cbn [forallb] in H. apply andb_prop in H. destruct H as [Hx Hrest].
    destruct (makeError_non_nullish x r w Hx) as [ts1 [Hmk Hid1]].
    destruct (IH (set_templates ts1 w) Hrest) as [ts' [Hmap [Hnil Hlast]]].
    exists ts'. split; [|split; [discriminate|]].
    + cbn [mapM]. rewrite bind_run, Hmk, bind_run, Hmap. reflexivity.
    + intros front props Hd. destruct rest as [|y rest'].
      * destruct front as [|f front']; [|destruct front'; discriminate Hd].
        injection Hd as ->. rewrite (Hnil eq_refl). wsimpl. exact Hid1.
      * destruct front as [|f front']; [discriminate Hd|].
        injection Hd as -> Hd. apply (Hlast front'). exact Hd.
Qed.

Lemma returnError_timeout payload w :
  resolvable payload = true ->
  exists ts' err,
    returnError payload errorTimeout w = (Ok err, set_templates ts' w)
    /\ timeout_answer payload (JSON_stringify ts' err).
Proof.
  intro H. destruct payload as [| |b|n|s|loads|props|r];
    try discriminate H.
  4: { (* a batch *)
    destruct (mapM_makeError_non_nullish loads errorTimeout w H)
      as [ts' [Hmap [_ Hlast]]].
    exists ts'. eexists. split.
    - unfold returnError. rewrite bind_run, Hmap. reflexivity.
    - rewrite stringify_repeat, stringify_error_ref by reflexivity.
      do 2 eexists. split; [reflexivity|]. exact Hlast. }
  4: { (* an object *)
    destruct (makeError_non_nullish (VObj props) errorTimeout w H) as [ts' [Hmk Hid]].
    exists ts'. eexists. split; [exact Hmk|].
    rewrite stringify_error_ref by reflexivity. rewrite Hid. eexists. reflexivity. }
  all: destruct (makeError_non_nullish _ errorTimeout w H) as [ts' [Hmk _]];
    exists ts'; eexists; (split; [exact Hmk|]);
    rewrite stringify_error_ref by reflexivity; do 2 eexists; reflexivity.
Qed.

Lemma timeout_unfold e :
  timeout e
  = (d <- isDestroyed (this_id e) ;;
     (if negb d then
        w <- get ;;
        sender_send (this_id e) "ipcProvider-setWritable" (VBool (w_writable w))
      else ret tt) ;;;
     w <- get ;;
     eachM (timeout_entry false) (w_asyncEvents w) ;;;
     w <- get ;;
     eachM (timeout_entry true) (w_syncEvents w)).
Proof. reflexivity. Qed.

Lemma bind_assoc_ok {A B C} (m : M A) (f : A -> M B) (g : B -> M C) w b w' :
  bind m f w = (Ok b, w') ->
  bind m (fun a => bind (f a) g) w = g b w'.
Proof. intro H. rewrite <- bind_bind. apply bind_ok. exact H. Qed.

(** The world after one loop of [timeout]. *)
Lemma timeout_loop sync entries :
  forall w,
    forallb (fun entry => resolvable (ev_payload (snd entry))) entries = true ->
    exists ts' effects,
      eachM (timeout_entry sync) entries w
      = (Ok tt,
         mkWorld ts'
           (if sync
            then fold_left (fun m entry => remove_key (fst entry) m) entries (w_syncEvents w)
            else w_syncEvents w)
           (if sync
            then w_asyncEvents w
            else fold_left (fun m entry => remove_key (fst entry) m) entries (w_asyncEvents w))
           (w_writable w) (w_live w) (w_generation w) (w_closed_views w)
           (w_gates w) (w_next_modal w) (w_trace w ++ effects) (w_attempts w))
      /\ answered sync (w_closed_views w) entries effects.
Proof.
  induction entries as [|[k ev] rest IH]; intros w H.
  - exists (w_templates w), []. split; [|reflexivity].
    cbn. rewrite app_nil_r. destruct w, sync; reflexivity.
  - cbn [forallb snd] in H. apply andb_prop in H. destruct H as [Hev Hrest].
    cbn [eachM]. unfold timeout_entry at 1. cbn [snd fst].
    rewrite !bind_bind, bind_isDestroyed. unfold alive. rewrite negb_involutive.
    cbn [answered snd].
    destruct (existsb (Z.eqb (ev_sender ev)) (w_closed_views w)) eqn:Hclosed.
    + cbn [negb]. cbv iota. js.
      destruct sync; js.
      * destruct (IH (set_syncEvents (remove_key k (w_syncEvents w)) w) Hrest)
          as [ts' [effects [Hloop Hans]]].
        exists ts', effects. split; [rewrite Hloop; reflexivity|exact Hans].
      * destruct (IH (set_asyncEvents (remove_key k (w_asyncEvents w)) w) Hrest)
          as [ts' [effects [Hloop Hans]]].
        exists ts', effects. split; [rewrite Hloop; reflexivity|exact Hans].
    + cbn [negb]. cbv iota.
      destruct (returnError_timeout (ev_payload ev) w Hev) as [ts1 [err [Hret Hdata]]].
      rewrite !bind_bind, bind_run, Hret.
      set (data := JSON_stringify ts1 err) in *.
      destruct sync.
      * unfold set_returnValue. js. wsimpl. fold data.
        destruct (IH (set_syncEvents
                        (remove_key k (w_syncEvents w))
                        (add_effect (ReturnValue (ev_uid ev) data) (set_templates ts1 w)))
                     Hrest) as [ts' [effects [Hloop Hans]]].
        exists ts', (ReturnValue (ev_uid ev) data :: effects).
        split.
        -- wsimpl. rewrite Hloop. wsimpl. rewrite <- app_assoc. reflexivity.
        -- exists data, effects. split; [reflexivity|split; assumption].
      * unfold reply. js. rewrite bind_isDestroyed. unfold alive. wsimpl.
        rewrite Hclosed. cbn [negb]. cbv iota. js. wsimpl. fold data.
        destruct (IH (set_asyncEvents
                        (remove_key k (w_asyncEvents w))
                        (add_effect (Reply (ev_uid ev) (ev_sender ev) data)
                                    (set_templates ts1 w)))
                     Hrest) as [ts' [effects [Hloop Hans]]].
        exists ts', (Reply (ev_uid ev) (ev_sender ev) data :: effects).
        split.
        -- wsimpl. rewrite Hloop. wsimpl. rewrite <- app_assoc. reflexivity.
        -- exists data, effects. split; [reflexivity|split; assumption].
Qed.

Lemma remove_key_filter k m :
  remove_key k m = filter (fun x => negb (String.eqb k (fst x))) m.
Proof.
  induction m as [|[k' ev] rest IH]; [reflexivity|].
  cbn [remove_key filter fst]. destruct (String.eqb k k'); cbn [negb]; rewrite IH; reflexivity.
Qed.

Lemma fold_remove_filter entries m :
  fold_left (fun m (entry : string * event) => remove_key (fst entry) m) entries m
  = filter (fun x => negb (existsb (fun entry => String.eqb (fst entry) (fst x)) entries)) m.
Proof.
  revert m. induction entries as [|entry rest IH]; intro m.
  - cbn. induction m as [|x m IHm]; [reflexivity|]. cbn. rewrite <- IHm. reflexivity.
  - cbn [fold_left existsb]. rewrite IH, remove_key_filter.
    induction m as [|x m IHm]; [reflexivity|].
    cbn [filter]. destruct (String.eqb (fst entry) (fst x)); cbn [negb orb filter].
    + exact IHm.
    + destruct (existsb _ rest); cbn [negb]; rewrite IHm; reflexivity.
Qed.

Lemma fold_remove_self m :
  fold_left (fun m (entry : string * event) => remove_key (fst entry) m) m m = [].
Proof.
  rewrite fold_remove_filter.
  assert (H : forall l, (forall x, In x l -> In x m) ->
            filter (fun x => negb (existsb (fun entry => String.eqb (fst entry) (fst x)) m)) l
            = []).
  { induction l as [|x l IH]; intro Hsub; [reflexivity|].
    cbn [filter].
    assert (Hx : existsb (fun entry => String.eqb (fst entry) (fst x)) m = true).
    { apply existsb_exists. exists x. split; [apply Hsub; left; reflexivity|].
      apply String.eqb_refl. }
    rewrite Hx. cbn [negb]. apply IH. intros y Hy. apply Hsub. right. exact Hy. }
  apply H. intros x Hx. exact Hx.
Qed.

Lemma answered_In sync closed entries effects k ev :
  answered sync closed entries effects ->
  In (k, ev) entries ->
  existsb (Z.eqb (ev_sender ev)) closed = false ->
  exists data,
    In (delivery (ev_uid ev) (ev_sender ev) sync data) effects
    /\ timeout_answer (ev_payload ev) data.
Proof.
  revert effects. induction entries as [|entry rest IH]; intros effects Hans Hin Hcl.
  - destruct Hin.
  - cbn [answered] in Hans. destruct Hin as [->|Hin].
    + cbn [snd] in Hans. rewrite Hcl in Hans.
      destruct Hans as [data [effects' [-> [Hdata _]]]].
      exists data. split; [left; reflexivity|exact Hdata].
    + destruct (existsb (Z.eqb (ev_sender (snd entry))) closed).
      * apply (IH effects); assumption.
      * destruct Hans as [data0 [effects' [-> [_ Hrest]]]].
        destruct (IH effects' Hrest Hin Hcl) as [data [Hd Ht]].
        exists data. split; [right; exact Hd|exact Ht].
Qed.


(** ** The node-state handler of the class-based backend *)

Module BackendFacts.
Import Backend.

Lemma stopping_mapper_throws owner socket log :
  stopping_mapper (connection owner socket) log = (Throw "TypeError", log).
Proof. reflexivity. Qed.

Lemma connected_then_throws owner socket log :
  connected_then (connection owner socket) log = (Throw "TypeError", log).
Proof. reflexivity. Qed.

Lemma Q_map_stopping conns log :
  Q_map stopping_mapper (registry conns) log
  = match conns with
    | [] => (Ok tt, log)
    | _ => (Throw "TypeError", log)
    end.
Proof. destruct conns as [|c rest]; reflexivity. Qed.


End BackendFacts.

(** ** Requests that get past the filter or the gate *)

(** C1: the method filter is passed by a request that has an [error]
    member.  The view 12 is a webview and [admin_addPeer] is outside the
    allowed namespaces, yet the request below, which also carries a truthy
    [error] member, is registered as pending and written to the socket:
    [testPayload] returns a payload with an [error] member as it is, before
    it looks at the method. *)
Theorem error_member_passes_the_method_filter :
  is_admin webview_env = false
  /\ allowed_method "admin_addPeer" = false
  /\ field admin_request_with_error "method" = VStr "admin_addPeer"
  /\ filterRequestResponse webview_env (VObj admin_request_with_error) None initial_world
     = (Ok (VObj admin_request_with_error), initial_world)
  /\ sendRequest webview_env 1 (VObj admin_request_with_error) false true initial_world
     = (Ok tt,
        add_effect (SocketWrite (VObj admin_request_with_error))
          (registered (VNum 1)
             (pending_async 1 (VObj admin_request_with_error) (VNum 1))
             (add_effect (GotResult 1 CbNull (VObj admin_request_with_error))
                         initial_world))).
Proof. repeat split. Qed.


(** C4: the approval of a second confirmation is lost.  Two requests to
    send a transaction wait for their popups (0 and 1).  The first popup
    approves with gas 21000: request 1 is written with that gas and popup 0
    is closed.  The message of the first popup has also used up the
    listener of the second request, so the approval of popup 1 does
    nothing; when popup 1 is closed afterwards, the caller of request 2 is
    told that the transaction was denied, and request 2 is never written. *)
Theorem second_approval_is_lost :
  exists w',
    run webview_env
      [Request 1 (tx_request (VNum 1)) false true;
       Request 2 (tx_request (VNum 2)) false true;
       UnlockedAccount 0 true VNull (VNum 21000);
       PopupClosed 0;
       UnlockedAccount 1 true VNull (VNum 21000);
       PopupClosed 1]
      initial_world
    = Some w'
    /\ w_trace w'
       = [CreatePopup 0 (VArr [VStr "data"; VObj transaction]);
          CreatePopup 1 (VArr [VStr "data"; VObj transaction]);
          GotResult 1 CbNull (tx_request_with_gas (VNum 1) (VNum 21000));
          SocketWrite (tx_request_with_gas (VNum 1) (VNum 21000));
          ClosePopup 0;
          GotResult 2 (CbTemplate errorUnlock) VUndefined;
          Reply 2 12 (denied (VNum 2))]
    /\ w_asyncEvents w'
       = [("1", pending_async 1 (tx_request_with_gas (VNum 1) (VNum 21000)) (VNum 1))].
Proof.
  eexists. split; [vm_compute; reflexivity|].
  repeat split; vm_compute; reflexivity.
Qed.

(** C5: the callback of one gated request is called twice.  The request has
    the id 0.  The popup approves with gas 21000 and the callback is called
    to forward the request; it throws on [result[0].id] before anything is
    written, so [called] stays false and the popup stays open.  When the
    popup is closed, the callback is called a second time, with the denial
    error, which the caller receives. *)
Theorem callback_is_called_twice :
  exists w',
    run webview_env
      [Request 1 (tx_request (VNum 0)) false true;
       UnlockedAccount 0 true VNull (VNum 21000);
       PopupClosed 0]
      initial_world
    = Some w'
    /\ w_trace w'
       = [CreatePopup 0 (VArr [VStr "data"; VObj transaction]);
          GotResult 1 CbNull (tx_request_with_gas (VNum 0) (VNum 21000));
          GotResult 1 (CbTemplate errorUnlock) VUndefined;
          Reply 1 12 (denied (VNum 0))]
    /\ sendRequest_callback (mkEvent 1 12 false VUndefined VUndefined)
         (tx_request (VNum 0)) 0 CbNull
         (tx_request_with_gas (VNum 0) (VNum 21000)) initial_world
       = (Throw "TypeError",
          add_effect (GotResult 1 CbNull (tx_request_with_gas (VNum 0) (VNum 21000)))
                     initial_world).
Proof.
  eexists. split; [vm_compute; reflexivity|].
  repeat split; vm_compute; reflexivity.
Qed.



(** ** The invariant of the pending maps *)

Lemma NoDup_app_inv {A} (l1 l2 : list A) :
  NoDup (l1 ++ l2) ->
  NoDup l1 /\ NoDup l2 /\ (forall a, In a l1 -> ~ In a l2).
Proof.
  induction l1 as [|x l1 IH]; simpl; intro H.
  - repeat split; [constructor|exact H|intros a []].
  - inversion H as [|? ? Hx Hnd]; subst. destruct (IH Hnd) as [H1 [H2 H3]].
    repeat split.
    + constructor; [|exact H1]. intro Hin. apply Hx. apply in_or_app. left. exact Hin.
    + exact H2.
    + intros a [<-|Ha]; [|apply H3; exact Ha].
      intro Hin. apply Hx. apply in_or_app. right. exact Hin.
Qed.

Lemma NoDup_map_filter {A B} (f : A -> B) (p : A -> bool) l :
  NoDup (map f l) -> NoDup (map f (filter p l)).
Proof.
  induction l as [|x l IH]; simpl; intro H; [constructor|].
  inversion H as [|? ? Hx Hnd]; subst.
  destruct (p x); [|apply IH; exact Hnd].
  simpl. constructor; [|apply IH; exact Hnd].
  intro Hin. apply Hx. apply in_map_iff in Hin. destruct Hin as [y [Hy Hin]].
  apply filter_In in Hin. apply in_map_iff. exists y. split; [exact Hy|apply Hin].
Qed.

Lemma NoDup_map_inj {A B} (f : A -> B) l x y :
  NoDup (map f l) -> In x l -> In y l -> f x = f y -> x = y.
Proof.
  induction l as [|z l IH]; simpl; intros H Hx Hy Heq; [destruct Hx|].
  inversion H as [|? ? Hz Hnd]; subst.
  destruct Hx as [<-|Hx], Hy as [<-|Hy].
  - reflexivity.
  - exfalso. apply Hz. rewrite Heq. apply in_map. exact Hy.
  - exfalso. apply Hz. rewrite <- Heq. apply in_map. exact Hx.
  - apply IH; assumption.
Qed.

Lemma remove_key_In k m x : In x (remove_key k m) -> In x m /\ fst x <> k.
Proof.
  rewrite remove_key_filter. intro H. apply filter_In in H. destruct H as [Hin Hk].
  split; [exact Hin|]. intro Heq. subst k. rewrite String.eqb_refl in Hk. discriminate Hk.
Qed.

Lemma put_In k ev m x : In x (put k ev m) -> x = (k, ev) \/ In x m.
Proof.
  induction m as [|[k' ev'] rest IH]; simpl.
  - intros [<-|[]]. left. reflexivity.
  - destruct (String.eqb k k').
    + intros [<-|Hin]; [left; reflexivity|right; right; exact Hin].
    + intros [<-|Hin]; [right; left; reflexivity|].
      destruct (IH Hin) as [->|Hr]; [left; reflexivity|right; right; exact Hr].
Qed.

Lemma put_keys k ev m :
  NoDup (map fst m) -> NoDup (map fst (put k ev m)).
Proof.
  induction m as [|[k' ev'] rest IH]; simpl; intro H.
  - repeat constructor. intros [].
  - inversion H as [|? ? Hk Hnd]; subst.
    destruct (String.eqb k k') eqn:Heq.
    + apply String.eqb_eq in Heq. subst k'. simpl. constructor; assumption.
    + simpl. constructor; [|apply IH; exact Hnd].
      intro Hin. apply in_map_iff in Hin. destruct Hin as [[k2 ev2] [Hk2 Hin]].
      simpl in Hk2. subst k2. destruct (put_In _ _ _ _ Hin) as [Hx|Hx].
      * injection Hx as -> _. rewrite String.eqb_refl in Heq. discriminate Heq.
      * apply Hk. apply in_map_iff. exists (k', ev2). split; [reflexivity|exact Hx].
Qed.

Lemma put_uids k ev m :
  NoDup (map entry_uid m) ->
  ~ In (ev_uid ev) (map entry_uid m) ->
  NoDup (map entry_uid (put k ev m)).
Proof.
  induction m as [|[k' ev'] rest IH]; simpl; intros H Hfresh.
  - repeat constructor. intros [].
  - inversion H as [|? ? Hk Hnd]; subst.
    destruct (String.eqb k k').
    + simpl. constructor; [|exact Hnd].
      intro Hin. apply Hfresh. right. exact Hin.
    + simpl. constructor.
      * intro Hin. apply in_map_iff in Hin. destruct Hin as [x [Hx Hin]].
        destruct (put_In _ _ _ _ Hin) as [->|Hr].
        -- apply Hfresh. left. symmetry. exact Hx.
        -- apply Hk. rewrite <- Hx. apply in_map. exact Hr.
      * apply IH; [exact Hnd|]. intro Hin. apply Hfresh. right. exact Hin.
Qed.

Lemma put_filed sync k ev m :
  Forall (well_filed sync) m ->
  well_filed sync (k, ev) ->
  Forall (well_filed sync) (put k ev m).
Proof.
  intros Hm Hev. apply Forall_forall. intros x Hin.
  destruct (put_In _ _ _ _ Hin) as [->|Hr]; [exact Hev|].
  rewrite Forall_forall in Hm. apply Hm. exact Hr.
Qed.

Lemma remove_key_incl k m : incl (remove_key k m) m.
Proof. intros x H. apply (remove_key_In _ _ _ H). Qed.

Lemma Forall_incl {A} (P : A -> Prop) l l' : incl l' l -> Forall P l -> Forall P l'.
Proof.
  intros Hincl H. rewrite Forall_forall in *. intros x Hx.
  apply H. apply Hincl. exact Hx.
Qed.

Lemma remove_key_keys k m : NoDup (map fst m) -> NoDup (map fst (remove_key k m)).
Proof. rewrite remove_key_filter. apply NoDup_map_filter. Qed.

Lemma remove_key_uids k m :
  NoDup (map entry_uid m) -> NoDup (map entry_uid (remove_key k m)).
Proof. rewrite remove_key_filter. apply NoDup_map_filter. Qed.

Lemma invariant_known_more known uid s :
  invariant known s -> invariant (uid :: known) s.
Proof.
  intros [H1 H2 H3 H4 H5 H6 H7 H8 H9 H10 H11 H12].
  constructor; try assumption. intros u Hu. right. apply H12. exact Hu.
Qed.

Lemma NoDup_snoc {A} (l : list A) x : NoDup l -> ~ In x l -> NoDup (l ++ [x]).
Proof.
  intros Hl Hx. apply NoDup_app; [exact Hl|repeat constructor; intros []|].
  intros a Ha [<-|[]]. exact (Hx Ha).
Qed.

Lemma pending_uids_split s :
  pending_uids s = map entry_uid (p_sync s) ++ map entry_uid (p_async s).
Proof. unfold pending_uids. apply map_app. Qed.

Lemma put_uids_In k ev m u :
  In u (map entry_uid (put k ev m)) -> u = ev_uid ev \/ In u (map entry_uid m).
Proof.
  intro H. apply in_map_iff in H. destruct H as [x [Hx Hin]].
  destruct (put_In _ _ _ _ Hin) as [->|Hr].
  - left. symmetry. exact Hx.
  - right. rewrite <- Hx. apply in_map. exact Hr.
Qed.

Lemma remove_key_uids_In k m u :
  In u (map entry_uid (remove_key k m)) -> In u (map entry_uid m).
Proof.
  intro H. apply in_map_iff in H. destruct H as [x [Hx Hin]].
  rewrite <- Hx. apply in_map. apply (remove_key_incl _ _ _ Hin).
Qed.

Lemma invariant_answer known s uid :
  invariant known s ->
  ~ In uid (p_answered s) ->
  ~ In uid (pending_uids s) ->
  (forall g, In g (p_gates s) -> g_called g = false -> gate_uid g <> uid) ->
  In uid known ->
  invariant known (answer uid s).
Proof.
  intros [H1 H2 H3 H4 H5 H6 H7 H8 H9 H10 H11 H12] Hans Hpend Hgates Hknown.
  constructor; cbn [answer p_answered p_sync p_async p_gates p_next_modal];
    try assumption.
  - apply NoDup_snoc; assumption.
  - intros u Hu Hin. apply in_app_or in Hin. destruct Hin as [Hin|[<-|[]]].
    + exact (H2 u Hu Hin).
    + exact (Hpend Hu).
  - intros g Hg Hc. destruct (H8 g Hg Hc) as [Ha Hp]. split; [|exact Hp].
    intro Hin. apply in_app_or in Hin. destruct Hin as [Hin|[Heq|[]]].
    + exact (Ha Hin).
    + exact (Hgates g Hg Hc (eq_sym Heq)).
  - intros u [Hu|Hu].
    + apply in_app_or in Hu. destruct Hu as [Hu|[<-|[]]]; [|exact Hknown].
      apply H12. left. exact Hu.
    + apply H12. right. exact Hu.
Qed.

Lemma invariant_file known s k ev :
  invariant known s ->
  ~ In (ev_uid ev) (p_answered s) ->
  ~ In (ev_uid ev) (pending_uids s) ->
  (forall g, In g (p_gates s) -> g_called g = false -> gate_uid g <> ev_uid ev) ->
  In (ev_uid ev) known ->
  k = to_string (ev_eventId ev) ->
  invariant known (file k ev s).
Proof.
  intros [H1 H2 H3 H4 H5 H6 H7 H8 H9 H10 H11 H12] Hans Hpend Hgates Hknown Hk.
  rewrite pending_uids_split in Hpend.
  rewrite pending_uids_split in H3. destruct (NoDup_app_inv _ _ H3) as [Hs [Ha Hd]].
  assert (Hin : forall u, In u (pending_uids (file k ev s)) ->
                          u = ev_uid ev \/ In u (pending_uids s)).
  { intros u. rewrite !pending_uids_split. unfold file.
    destruct (ev_sync ev); cbn [p_sync p_async]; intro Hu;
      apply in_app_or in Hu; destruct Hu as [Hu|Hu].
    - destruct (put_uids_In _ _ _ _ Hu) as [->|Hr]; [left; reflexivity|].
      right. apply in_or_app. left. exact Hr.
    - right. apply in_or_app. right. exact Hu.
    - right. apply in_or_app. left. exact Hu.
    - destruct (put_uids_In _ _ _ _ Hu) as [->|Hr]; [left; reflexivity|].
      right. apply in_or_app. right. exact Hr. }
  rewrite <- pending_uids_split in Hpend.
  constructor.
  - unfold file. destruct (ev_sync ev); exact H1.
  - intros u Hu. replace (p_answered (file k ev s)) with (p_answered s)
      by (unfold file; destruct (ev_sync ev); reflexivity).
    destruct (Hin u Hu) as [->|Hr]; [exact Hans|exact (H2 u Hr)].
  - rewrite pending_uids_split. rewrite pending_uids_split in Hpend.
    unfold file. destruct (ev_sync ev); cbn [p_sync p_async].
    + apply NoDup_app; [apply put_uids; [exact Hs|]|exact Ha|].
      * intro Hi. apply Hpend. apply in_or_app. left. exact Hi.
      * intros u Hu. destruct (put_uids_In _ _ _ _ Hu) as [->|Hr].
        -- intro Hi. apply Hpend. apply in_or_app. right. exact Hi.
        -- apply Hd. exact Hr.
    + apply NoDup_app; [exact Hs|apply put_uids; [exact Ha|]|].
      * intro Hi. apply Hpend. apply in_or_app. right. exact Hi.
      * intros u Hu Hp. destruct (put_uids_In _ _ _ _ Hp) as [->|Hr].
        -- apply Hpend. apply in_or_app. left. exact Hu.
        -- exact (Hd u Hu Hr).
  - unfold file. destruct (ev_sync ev); cbn [p_sync]; [apply put_keys|]; exact H4.
  - unfold file. destruct (ev_sync ev); cbn [p_async]; [|apply put_keys]; exact H5.
  - unfold file. destruct (ev_sync ev) eqn:Hsync; cbn [p_sync]; [|exact H6].
    apply put_filed; [exact H6|]. split; [exact Hsync|exact Hk].
  - unfold file. destruct (ev_sync ev) eqn:Hsync; cbn [p_async]; [exact H7|].
    apply put_filed; [exact H7|]. split; [exact Hsync|exact Hk].
  - intros g Hg Hc.
    assert (Hg' : In g (p_gates s)).
    { revert Hg. unfold file. destruct (ev_sync ev); exact (fun x => x). }
    destruct (H8 g Hg' Hc) as [Ha' Hp'].
    split.
    + revert Ha'. unfold file. destruct (ev_sync ev); exact (fun x => x).
    + intro Hu. destruct (Hin _ Hu) as [Heq|Hr]; [|exact (Hp' Hr)].
      exact (Hgates g Hg' Hc Heq).
  - unfold file. destruct (ev_sync ev); exact H9.
  - unfold file. destruct (ev_sync ev); exact H10.
  - unfold file. destruct (ev_sync ev); exact H11.
  - intros u Hu. destruct Hu as [Hu|[Hu|Hu]].
    + apply H12. left. revert Hu. unfold file. destruct (ev_sync ev); exact (fun x => x).
    + destruct (Hin _ Hu) as [->|Hr]; [exact Hknown|].
      apply H12. right. left. exact Hr.
    + apply H12. right. right. revert Hu. unfold file.
      destruct (ev_sync ev); exact (fun x => x).
Qed.

Lemma unfile_uids_In b k s u :
  In u (pending_uids (unfile b k s)) -> In u (pending_uids s).
Proof.
  rewrite !pending_uids_split. unfold unfile.
  destruct b; cbn [p_sync p_async]; intro Hu;
    apply in_app_or in Hu; apply in_or_app; destruct Hu as [Hu|Hu].
  - left. exact (remove_key_uids_In _ _ _ Hu).
  - right. exact Hu.
  - left. exact Hu.
  - right. exact (remove_key_uids_In _ _ _ Hu).
Qed.

Lemma invariant_unfile known s b k :
  invariant known s -> invariant known (unfile b k s).
Proof.
  intros [H1 H2 H3 H4 H5 H6 H7 H8 H9 H10 H11 H12].
  rewrite pending_uids_split in H3. destruct (NoDup_app_inv _ _ H3) as [Hs [Ha Hd]].
  constructor.
  - unfold unfile. destruct b; exact H1.
  - intros u Hu. replace (p_answered (unfile b k s)) with (p_answered s)
      by (destruct b; reflexivity).
    exact (H2 u (unfile_uids_In _ _ _ _ Hu)).
  - rewrite pending_uids_split. unfold unfile. destruct b; cbn [p_sync p_async].
    + apply NoDup_app; [apply remove_key_uids; exact Hs|exact Ha|].
      intros u Hu. apply Hd. exact (remove_key_uids_In _ _ _ Hu).
    + apply NoDup_app; [exact Hs|apply remove_key_uids; exact Ha|].
      intros u Hu Hp. exact (Hd u Hu (remove_key_uids_In _ _ _ Hp)).
  - unfold unfile. destruct b; cbn [p_sync]; [apply remove_key_keys|]; exact H4.
  - unfold unfile. destruct b; cbn [p_async]; [|apply remove_key_keys]; exact H5.
  - unfold unfile. destruct b; cbn [p_sync]; [|exact H6].
    exact (Forall_incl _ _ _ (remove_key_incl k _) H6).
  - unfold unfile. destruct b; cbn [p_async]; [exact H7|].
    exact (Forall_incl _ _ _ (remove_key_incl k _) H7).
  - intros g Hg Hc.
    assert (Hg' : In g (p_gates s)) by (destruct b; exact Hg).
    destruct (H8 g Hg' Hc) as [Ha' Hp']. split.
    + destruct b; exact Ha'.
    + intro Hu. exact (Hp' (unfile_uids_In _ _ _ _ Hu)).
  - destruct b; exact H9.
  - destruct b; exact H10.
  - destruct b; exact H11.
  - intros u Hu. destruct Hu as [Hu|[Hu|Hu]].
    + apply H12. left. destruct b; exact Hu.
    + apply H12. right. left. exact (unfile_uids_In _ _ _ _ Hu).
    + apply H12. right. right. destruct b; exact Hu.
Qed.

Lemma invariant_forget known s :
  invariant known s -> invariant known (forget_pending s).
Proof.
  intros [H1 H2 H3 H4 H5 H6 H7 H8 H9 H10 H11 H12].
  constructor; cbn [forget_pending p_answered p_sync p_async p_gates p_next_modal];
    try assumption; try (constructor; fail).
  - intros u [].
  - intros g Hg Hc. split; [apply (H8 g Hg Hc)|intros []].
  - intros u [Hu|[[]|Hu]]; apply H12; [left|right; right]; exact Hu.
Qed.

Lemma fresh_forget uid s : fresh uid s -> fresh uid (forget_pending s).
Proof.
  intros [Ha [_ Hg]]. split; [exact Ha|split; [intros []|exact Hg]].
Qed.

Lemma fresh_unknown known s uid :
  invariant known s -> ~ In uid known -> fresh uid s.
Proof.
  intros Hinv Hu. repeat split; intro Hin; apply Hu; apply (inv_known _ _ Hinv).
  - left. exact Hin.
  - right. left. exact Hin.
  - right. right. exact Hin.
Qed.

Lemma fresh_gates uid s g :
  fresh uid s -> In g (p_gates s) -> gate_uid g <> uid.
Proof.
  intros [_ [_ Hg]] Hin Heq. apply Hg. rewrite <- Heq. apply in_map. exact Hin.
Qed.

Lemma invariant_open_gate known s g :
  invariant known s ->
  g_modal g = p_next_modal s ->
  fresh (gate_uid g) s ->
  In (gate_uid g) known ->
  invariant known (open_gate g s).
Proof.
  intros [H1 H2 H3 H4 H5 H6 H7 H8 H9 H10 H11 H12] Hm [Fa [Fp Fg]] Hknown.
  constructor; cbn [open_gate p_answered p_sync p_async p_gates p_next_modal];
    try assumption.
  - intros g' Hg' Hc. apply in_app_or in Hg'. destruct Hg' as [Hg'|[<-|[]]].
    + exact (H8 g' Hg' Hc).
    + split; assumption.
  - rewrite map_app. apply NoDup_snoc; [exact H9|].
    intro Hin. apply in_map_iff in Hin. destruct Hin as [g' [Hg' Hin]].
    pose proof (H10 g' Hin) as Hlt. rewrite Hg', Hm in Hlt. exact (Nat.lt_irrefl _ Hlt).
  - intros g' Hg'. apply in_app_or in Hg'. destruct Hg' as [Hg'|[<-|[]]].
    + pose proof (H10 g' Hg') as Hlt. rewrite Hm. apply Nat.lt_lt_succ_r. exact Hlt.
    + apply Nat.lt_succ_diag_r.
  - rewrite map_app. apply NoDup_snoc; assumption.
  - intros u [Hu|[Hu|Hu]].
    + apply H12. left. exact Hu.
    + apply H12. right. left. exact Hu.
    + rewrite map_app in Hu. apply in_app_or in Hu. destruct Hu as [Hu|[<-|[]]].
      * apply H12. right. right. exact Hu.
      * exact Hknown.
Qed.

Lemma change_gate_map {B} (h : gate -> B) m f gs :
  (forall g, h (f g) = h g) ->
  map h (map (fun g => if Nat.eqb (g_modal g) m then f g else g) gs) = map h gs.
Proof.
  intro Hf. rewrite map_map. apply map_ext. intro g.
  destruct (Nat.eqb (g_modal g) m); [apply Hf|reflexivity].
Qed.

Lemma invariant_change_gate known s m f :
  (forall g, g_modal (f g) = g_modal g) ->
  (forall g, gate_uid (f g) = gate_uid g) ->
  (forall g, g_called (f g) = false -> g_called g = false) ->
  invariant known s ->
  invariant known (change_gate m f s).
Proof.
  intros Fm Fu Fc [H1 H2 H3 H4 H5 H6 H7 H8 H9 H10 H11 H12].
  constructor; cbn [change_gate p_answered p_sync p_async p_gates p_next_modal];
    try assumption.
  - intros g Hg Hc. apply in_map_iff in Hg. destruct Hg as [g0 [Hg0 Hin]].
    destruct (Nat.eqb (g_modal g0) m); subst g.
    + rewrite Fu. apply (H8 g0 Hin). apply Fc. exact Hc.
    + exact (H8 g0 Hin Hc).
  - rewrite change_gate_map by exact Fm. exact H9.
  - intros g Hg. apply in_map_iff in Hg. destruct Hg as [g0 [Hg0 Hin]].
    destruct (Nat.eqb (g_modal g0) m); subst g; [rewrite Fm|]; exact (H10 g0 Hin).
  - rewrite change_gate_map by exact Fu. exact H11.
  - intros u Hu. apply H12. rewrite change_gate_map in Hu by exact Fu. exact Hu.
Qed.

Lemma invariant_disarm known s m :
  invariant known s -> invariant known (change_gate m disarm s).
Proof. apply invariant_change_gate; intros g; try reflexivity. exact (fun H => H). Qed.

Lemma invariant_set_payload known s m payload :
  invariant known s -> invariant known (change_gate m (set_payload payload) s).
Proof. apply invariant_change_gate; intros g; try reflexivity. exact (fun H => H). Qed.

Lemma invariant_set_called known s m :
  invariant known s -> invariant known (change_gate m set_called s).
Proof. apply invariant_change_gate; intros g; try reflexivity. discriminate. Qed.

(** After [set_called], the other waiting gates are for other events. *)
Lemma called_gate_others known s g g' :
  invariant known s ->
  In g (p_gates s) ->
  In g' (p_gates (change_gate (g_modal g) set_called s)) ->
  g_called g' = false ->
  gate_uid g' <> gate_uid g.
Proof.
  intros Hinv Hg Hg' Hc Heq.
  cbn [change_gate p_gates] in Hg'. apply in_map_iff in Hg'.
  destruct Hg' as [g0 [Hg0 Hin]].
  destruct (Nat.eqb (g_modal g0) (g_modal g)) eqn:Hm; subst g'.
  - discriminate Hc.
  - assert (g0 = g).
    { apply (NoDup_map_inj gate_uid (p_gates s)); try assumption.
      apply (inv_gates_distinct _ _ Hinv). }
    subst g0. rewrite Nat.eqb_refl in Hm. discriminate Hm.
Qed.

Lemma invariant_gate_answer known s g :
  invariant known s ->
  In g (p_gates s) ->
  g_called g = false ->
  invariant known (change_gate (g_modal g) set_called (answer (gate_uid g) s)).
Proof.
  intros Hinv Hg Hc.
  change (invariant known (answer (gate_uid g) (change_gate (g_modal g) set_called s))).
  destruct (inv_gates_waiting _ _ Hinv g Hg Hc) as [Ha Hp].
  apply invariant_answer.
  - apply invariant_set_called. exact Hinv.
  - exact Ha.
  - exact Hp.
  - intros g' Hg' Hc'. exact (called_gate_others _ _ _ _ Hinv Hg Hg' Hc').
  - apply (inv_known _ _ Hinv). right. right. apply in_map. exact Hg.
Qed.

Lemma invariant_gate_file known s g k ev :
  invariant known s ->
  In g (p_gates s) ->
  g_called g = false ->
  ev_uid ev = gate_uid g ->
  k = to_string (ev_eventId ev) ->
  invariant known (change_gate (g_modal g) set_called (file k ev s)).
Proof.
  intros Hinv Hg Hc Hu Hk.
  replace (change_gate (g_modal g) set_called (file k ev s))
    with (file k ev (change_gate (g_modal g) set_called s))
    by (unfold file; destruct (ev_sync ev); reflexivity).
  destruct (inv_gates_waiting _ _ Hinv g Hg Hc) as [Ha Hp].
  apply invariant_file.
  - apply invariant_set_called. exact Hinv.
  - rewrite Hu. exact Ha.
  - rewrite Hu. exact Hp.
  - intros g' Hg' Hc'. rewrite Hu. exact (called_gate_others _ _ _ _ Hinv Hg Hg' Hc').
  - rewrite Hu. apply (inv_known _ _ Hinv). right. right. apply in_map. exact Hg.
  - exact Hk.
Qed.

(** Answering a pending event and removing its entry. *)
Lemma invariant_resolve known s k ev :
  invariant known s ->
  In (k, ev) (if ev_sync ev then p_sync s else p_async s) ->
  invariant known (unfile (ev_sync ev) k (answer (ev_uid ev) s)).
Proof.
  intros Hinv Hin.
  replace (unfile (ev_sync ev) k (answer (ev_uid ev) s))
    with (answer (ev_uid ev) (unfile (ev_sync ev) k s))
    by (destruct (ev_sync ev); reflexivity).
  assert (Hpend : In (ev_uid ev) (pending_uids s)).
  { rewrite pending_uids_split. apply in_or_app.
    destruct (ev_sync ev); [left|right]; exact (in_map entry_uid _ _ Hin). }
  pose proof (inv_pending_distinct _ _ Hinv) as Hnd.
  rewrite pending_uids_split in Hnd.
  destruct (NoDup_app_inv _ _ Hnd) as [Hs [Ha Hd]].
  apply invariant_answer.
  - apply invariant_unfile. exact Hinv.
  - replace (p_answered (unfile (ev_sync ev) k s)) with (p_answered s)
      by (destruct (ev_sync ev); reflexivity).
    exact (inv_pending_unanswered _ _ Hinv _ Hpend).
  - rewrite pending_uids_split. unfold unfile.
    destruct (ev_sync ev); cbn [p_sync p_async]; intro Hu;
      apply in_app_or in Hu; destruct Hu as [Hu|Hu].
    + apply in_map_iff in Hu. destruct Hu as [x [Hx Hr]].
      destruct (remove_key_In _ _ _ Hr) as [Hxin Hxk].
      assert (x = (k, ev)) by (apply (NoDup_map_inj entry_uid (p_sync s)); assumption).
      subst x. apply Hxk. reflexivity.
    + exact (Hd _ (in_map entry_uid _ _ Hin) Hu).
    + exact (Hd _ Hu (in_map entry_uid _ _ Hin)).
    + apply in_map_iff in Hu. destruct Hu as [x [Hx Hr]].
      destruct (remove_key_In _ _ _ Hr) as [Hxin Hxk].
      assert (x = (k, ev)) by (apply (NoDup_map_inj entry_uid (p_async s)); assumption).
      subst x. apply Hxk. reflexivity.
  - intros g Hg Hc.
    assert (Hg' : In g (p_gates s)) by (destruct (ev_sync ev); exact Hg).
    intro Heq. apply (inv_gates_waiting _ _ Hinv g Hg' Hc). rewrite Heq. exact Hpend.
  - apply (inv_known _ _ Hinv). right. left. exact Hpend.
Qed.

(** ** Programs that leave the pending state alone *)

Lemma inert_ret {A} (a : A) : inert (ret a).
Proof. intro w. reflexivity. Qed.

Lemma inert_get : inert get.
Proof. intro w. reflexivity. Qed.

Lemma inert_throw {A} msg : inert (@throw A msg).
Proof. intro w. reflexivity. Qed.

Lemma inert_unmodelled {A} : inert (@unmodelled A).
Proof. intro w. reflexivity. Qed.

Lemma inert_bind {A B} (m : M A) (f : A -> M B) :
  inert m -> (forall a, inert (f a)) -> inert (bind m f).
Proof.
  intros Hm Hf w. unfold bind. specialize (Hm w).
  destruct (m w) as [[a|msg|] w']; cbn [snd] in *; [rewrite Hf|..]; exact Hm.
Qed.

Lemma inert_prop v k : inert (prop v k).
Proof. intro w. unfold prop. destruct (get_prop (w_templates w) v k); reflexivity. Qed.

Lemma inert_index v i : inert (index v i).
Proof. intro w. unfold index. destruct (get_index v i); reflexivity. Qed.

Lemma inert_stringify v : inert (stringify v).
Proof. intro w. reflexivity. Qed.

Lemma inert_modify (h : world -> world) :
  (forall w, pending_of (h w) = pending_of w) -> inert (modify h).
Proof. intros H w. apply H. Qed.

Lemma deliveries_app tr x :
  deliveries (tr ++ [x])
  = deliveries tr ++ (if is_delivery x then [effect_uid x] else []).
Proof.
  unfold deliveries. rewrite filter_app, map_app. cbn [filter].
  destruct (is_delivery x); reflexivity.
Qed.

Lemma pending_of_effect x w :
  pending_of (add_effect x w)
  = if is_delivery x then answer (effect_uid x) (pending_of w) else pending_of w.
Proof.
  unfold pending_of, answer. cbn [add_effect w_syncEvents w_asyncEvents w_gates
    w_next_modal w_trace p_sync p_async p_gates p_next_modal p_answered].
  rewrite deliveries_app. destruct (is_delivery x); [reflexivity|].
  rewrite app_nil_r. reflexivity.
Qed.

Lemma inert_emit x : is_delivery x = false -> inert (emit x).
Proof. intros H w. cbn [emit modify snd]. rewrite pending_of_effect, H. reflexivity. Qed.

Lemma inert_mapM {A B} (f : A -> M B) l : (forall x, inert (f x)) -> inert (mapM f l).
Proof.
  intro Hf. induction l as [|x rest IH]; cbn [mapM]; [apply inert_ret|].
  apply inert_bind; [apply Hf|intro y].
  apply inert_bind; [exact IH|intro ys]. apply inert_ret.
Qed.

Lemma inert_findM pred l : (forall x, inert (pred x)) -> inert (findM pred l).
Proof.
  intro Hp. induction l as [|x rest IH]; cbn [findM]; [apply inert_ret|].
  apply inert_bind; [apply Hp|intros [|]]; [apply inert_ret|exact IH].
Qed.

Ltac inert_step :=
  first
    [ match goal with H : _ |- _ => simple apply H end
    | simple apply @inert_ret | simple apply inert_get | simple apply @inert_throw
    | simple apply @inert_unmodelled
    | simple apply inert_prop | simple apply inert_index | simple apply inert_stringify
    | simple apply inert_emit; reflexivity
    | simple apply inert_modify; intro; reflexivity
    | simple apply @inert_mapM; intro
    | simple apply inert_findM; intro
    | simple apply @inert_bind; [|intro]
    | match goal with
      | |- inert (if ?c then _ else _) => destruct c
      | |- inert (match ?x with _ => _ end) => destruct x
      end ].

Ltac inert_tac := cbv beta; repeat (inert_step; cbv beta).

Lemma inert_makeError payload r : inert (makeError payload r).
Proof. unfold makeError. inert_tac. Qed.

Lemma inert_returnError payload r : inert (returnError payload r).
Proof. unfold returnError. destruct payload; try apply inert_makeError.
  apply inert_bind; [|intro; apply inert_ret].
  apply inert_mapM. intro. apply inert_makeError.
Qed.

Lemma inert_reject payload error : inert (reject payload error).
Proof. destruct error; [apply inert_returnError|apply inert_ret]. Qed.

Lemma inert_testPayload e payload error method :
  inert (testPayload e payload error method).
Proof. pose proof inert_reject as Hr. unfold testPayload. inert_tac. Qed.

Lemma inert_filterRequestResponse e payload event_payload :
  inert (filterRequestResponse e payload event_payload).
Proof.
  pose proof (inert_testPayload e) as Ht.
  unfold filterRequestResponse. inert_tac.
Qed.

Lemma inert_isDestroyed s : inert (isDestroyed s).
Proof. unfold isDestroyed. inert_tac. Qed.

Lemma inert_getId s : inert (getId s).
Proof. pose proof inert_isDestroyed as Hd. unfold getId. inert_tac. Qed.

Lemma inert_sender_send s channel data : inert (sender_send s channel data).
Proof. pose proof inert_isDestroyed as Hd. unfold sender_send. inert_tac. Qed.

Lemma inert_set_gas payload gas : inert (set_gas payload gas).
Proof. unfold set_gas. inert_tac. Qed.

Lemma inert_log_notification e result : inert (log_notification e result).
Proof. pose proof inert_getId as Hg. unfold log_notification. inert_tac. Qed.

Lemma inert_getResponseEvent response : inert (getResponseEvent response).
Proof. unfold getResponseEvent. inert_tac. Qed.

Lemma pending_of_effects effects w :
  forallb (fun x => negb (is_delivery x)) effects = true ->
  pending_of (add_effects effects w) = pending_of w.
Proof.
  revert w. induction effects as [|x rest IH]; intros w H; [reflexivity|].
  cbn [forallb] in H. apply andb_prop in H. destruct H as [Hx Hrest].
  cbn [add_effects fold_left]. change (pending_of (add_effects rest (add_effect x w)) = pending_of w).
  rewrite IH by exact Hrest. rewrite pending_of_effect.
  apply negb_true_iff in Hx. rewrite Hx. reflexivity.
Qed.

Lemma call_listeners_quiet writable marks l :
  forallb (fun x => negb (is_delivery x)) (snd (call_listeners writable marks l)) = true.
Proof.
  revert l. induction marks as [|m marks IH]; intro l.
  { destruct l; reflexivity. }
  destruct l as [|a rest]; [destruct m; reflexivity|].
  cbn [call_listeners]. specialize (IH rest).
  destruct (call_listeners writable marks rest) as [rest' outs]. cbn [snd] in IH.
  destruct m; cbn [connect_listener snd]; [|exact IH].
  destruct (a_timer a); cbn [app forallb is_delivery negb andb]; exact IH.
Qed.

Lemma inert_emit_to writable marks : inert (emit_to writable marks).
Proof.
  intro w. unfold emit_to. cbn [modify snd].
  pose proof (call_listeners_quiet writable marks (w_attempts w)) as H.
  destruct (call_listeners writable marks (w_attempts w)) as [l effects].
  cbn [snd] in H. rewrite pending_of_effects by exact H. reflexivity.
Qed.

Lemma inert_connect uid first connects : inert (connect uid first connects).
Proof. unfold connect. inert_tac. Qed.

Lemma inert_connect_timer n : inert (connect_timer n).
Proof. unfold connect_timer. inert_tac. Qed.

Lemma inert_on_connect e data : inert (on_connect e data).
Proof. pose proof inert_sender_send as Hs. unfold on_connect. inert_tac. Qed.

(** ** Rules for triples *)

Lemma triple_bind {A B} P (m : M A) (f : A -> M B) Q R J :
  triple P m Q J -> (forall a, triple (Q a) (f a) R J) -> triple P (bind m f) R J.
Proof.
  intros Hm Hf w HP. unfold bind. specialize (Hm w HP).
  destruct (m w) as [[a|msg|] w']; [exact (Hf a w' Hm)|exact Hm|exact Logic.I].
Qed.

Lemma triple_inert {A} (P : pending_state -> Prop) (m : M A) (J : pending_state -> Prop) :
  inert m -> (forall s, P s -> J s) -> triple P m (fun _ => P) J.
Proof.
  intros Hm HJ w HP. specialize (Hm w).
  destruct (m w) as [[a|msg|] w']; cbn [snd] in Hm;
    [rewrite Hm; exact HP|rewrite Hm; apply HJ; exact HP|exact Logic.I].
Qed.

Lemma triple_skip {A B} (P : pending_state -> Prop) (m : M A) (f : A -> M B) Q
    (J : pending_state -> Prop) :
  inert m -> (forall s, P s -> J s) -> (forall a, triple P (f a) Q J) ->
  triple P (bind m f) Q J.
Proof.
  intros Hm HJ Hf. apply triple_bind with (Q := fun _ => P); [|exact Hf].
  apply triple_inert; assumption.
Qed.

Lemma triple_conseq {A} (P P' : pending_state -> Prop) (m : M A)
    (Q Q' : A -> pending_state -> Prop) J :
  (forall s, P' s -> P s) -> (forall a s, Q a s -> Q' a s) ->
  triple P m Q J -> triple P' m Q' J.
Proof.
  intros HP HQ H w Hw. specialize (H w (HP _ Hw)).
  destruct (m w) as [[a|msg|] w']; [apply HQ; exact H|exact H|exact Logic.I].
Qed.

Lemma triple_get {B} (P : pending_state -> Prop) (f : world -> M B) Q J :
  (forall w0, triple (fun s => P s /\ s = pending_of w0) (f w0) Q J) ->
  triple P (bind get f) Q J.
Proof. intros H w HP. apply (H w w). split; [exact HP|reflexivity]. Qed.

Lemma triple_ret {A} (P : pending_state -> Prop) (a : A) (Q : A -> pending_state -> Prop) J :
  (forall s, P s -> Q a s) -> triple P (ret a) Q J.
Proof. intros H w HP. apply H. exact HP. Qed.

Lemma triple_unmodelled {A} P (Q : A -> pending_state -> Prop) J :
  triple P unmodelled Q J.
Proof. intros w HP. exact Logic.I. Qed.

Lemma triple_modify (P : pending_state -> Prop) (h : world -> world)
    (Q : unit -> pending_state -> Prop) J :
  (forall w, P (pending_of w) -> Q tt (pending_of (h w))) -> triple P (modify h) Q J.
Proof. intros H w HP. apply H. exact HP. Qed.

Lemma triple_eachM {A} (body : A -> M unit) (L : list A -> pending_state -> Prop) J l :
  (forall x rest, triple (L (x :: rest)) (body x) (fun _ => L rest) J) ->
  triple (L l) (eachM body l) (fun _ => L []) J.
Proof.
  intro Hbody. induction l as [|x rest IH]; cbn [eachM].
  - apply triple_ret. exact (fun s H => H).
  - eapply triple_bind; [apply Hbody|intro; exact IH].
Qed.

Lemma triple_try_catch (P : pending_state -> Prop) (body handler : M unit) Q J J' :
  triple P body Q J' -> triple J' handler Q J -> triple P (try_catch body handler) Q J.
Proof.
  intros Hb Hh w HP. unfold try_catch. specialize (Hb w HP).
  destruct (body w) as [[a|msg|] w']; [exact Hb|exact (Hh w' Hb)|exact Logic.I].
Qed.

(** An answer for the event [uid]. *)
Lemma triple_answer (P : pending_state -> Prop) x (Q : unit -> pending_state -> Prop) J :
  is_delivery x = true ->
  (forall s, P s -> Q tt (answer (effect_uid x) s)) ->
  triple P (emit x) Q J.
Proof.
  intros Hx H w HP. cbn [emit modify]. rewrite pending_of_effect, Hx. apply H. exact HP.
Qed.

Lemma triple_reply (P : pending_state -> Prop) ev data
    (Q : unit -> pending_state -> Prop) (J : pending_state -> Prop) :
  (forall s, P s -> J s) ->
  (forall s, P s -> Q tt (answer (ev_uid ev) s)) ->
  triple P (reply ev data) Q J.
Proof.
  intros HJ HQ. unfold reply.
  apply triple_skip; [apply inert_isDestroyed|exact HJ|intros [|]].
  - intros w HP. apply HJ. exact HP.
  - apply triple_answer; [reflexivity|exact HQ].
Qed.

Lemma triple_deliver (P : pending_state -> Prop) ev data
    (Q : unit -> pending_state -> Prop) (J : pending_state -> Prop) :
  (forall s, P s -> J s) ->
  (forall s, P s -> Q tt (answer (ev_uid ev) s)) ->
  triple P (deliver ev data) Q J.
Proof.
  intros HJ HQ. unfold deliver. destruct (ev_sync ev).
  - apply triple_answer; [reflexivity|exact HQ].
  - apply triple_reply; assumption.
Qed.

Lemma pending_of_register_sync k ev w :
  ev_sync ev = true ->
  pending_of (set_syncEvents (put k ev (w_syncEvents w)) w) = file k ev (pending_of w).
Proof. intro H. unfold file. rewrite H. reflexivity. Qed.

Lemma pending_of_register_async k ev w :
  ev_sync ev = false ->
  pending_of (set_asyncEvents (put k ev (w_asyncEvents w)) w) = file k ev (pending_of w).
Proof. intro H. unfold file. rewrite H. reflexivity. Qed.

Lemma triple_register (P : pending_state -> Prop) id ev
    (Q : unit -> pending_state -> Prop) J :
  (forall s, P s -> Q tt (file (to_string id) ev s)) ->
  triple P (register id ev) Q J.
Proof.
  intro HQ. unfold register. cbv zeta.
  destruct (String.eqb (to_string id) "__proto__"); [apply triple_unmodelled|].
  destruct (ev_sync ev) eqn:Hs; apply triple_modify; intros w HP.
  - rewrite pending_of_register_sync by exact Hs. apply HQ. exact HP.
  - rewrite pending_of_register_async by exact Hs. apply HQ. exact HP.
Qed.

Lemma triple_write (P : pending_state -> Prop) result
    (Q : unit -> pending_state -> Prop) J :
  (forall s, P s -> Q tt s) ->
  triple P (bind (stringify result) (fun data => emit (SocketWrite data))) Q J.
Proof.
  intros HQ w HP.
  change (Q tt (pending_of
                  (add_effect (SocketWrite (JSON_stringify (w_templates w) result)) w))).
  rewrite pending_of_effect. apply HQ. exact HP.
Qed.

(** The callback of [sendRequest]: it leaves the pending state as it is,
    answers its event, or files it. *)
Lemma triple_callback (P : pending_state -> Prop) ev jsonPayload socket cb result
    (Q : unit -> pending_state -> Prop) (J : pending_state -> Prop) :
  (forall s, P s -> J s) ->
  (forall s, P s -> Q tt s) ->
  (forall s, P s -> Q tt (answer (ev_uid ev) s)) ->
  (forall s k ev',
      P s -> ev_uid ev' = ev_uid ev -> k = to_string (ev_eventId ev') ->
      Q tt (file k ev' s)) ->
  triple P (sendRequest_callback ev jsonPayload socket cb result) Q J.
Proof.
  intros HJ Hsame Hans Hfile. unfold sendRequest_callback.
  apply triple_skip; [apply inert_emit; reflexivity|exact HJ|intros ?; cbv beta].
  destruct cb.
  - destruct (negb (isEmpty result)); [|apply triple_ret; exact Hsame].
    apply triple_skip; [apply inert_prop|exact HJ|intro rid].
    apply triple_skip; [inert_tac|exact HJ|intro id].
    apply triple_skip; [apply inert_get|exact HJ|intro w0].
    apply triple_skip; [inert_tac|exact HJ|intros ?; cbv beta].
    apply triple_bind with (Q := fun _ => Q tt);
      [|intros ?; apply triple_write; exact (fun s H => H)].
    apply triple_register. intros s HP. apply Hfile; [exact HP|reflexivity|reflexivity].
  - apply triple_ret. exact Hsame.
  - apply triple_skip; [apply inert_returnError|exact HJ|intro err].
    apply triple_skip; [apply inert_stringify|exact HJ|intro data].
    apply triple_deliver; assumption.
Qed.

(** ** What the handlers do to the pending state *)

Section Handlers.

Variable e : env.
Variable known : list nat.

Lemma callback_of_request ev jsonPayload socket cb result :
  In (ev_uid ev) known ->
  triple (fun s => invariant known s /\ fresh (ev_uid ev) s)
         (sendRequest_callback ev jsonPayload socket cb result)
         (fun _ => invariant known) (invariant known).
Proof.
  intro Hk. apply triple_callback.
  - intros s [H _]. exact H.
  - intros s [H _]. exact H.
  - intros s [H [Fa [Fp Fg]]]. apply invariant_answer; try assumption.
    intros g Hg _. apply (fresh_gates _ s); [repeat split; assumption|exact Hg].
  - intros s k ev' [H [Fa [Fp Fg]]] Hu Hk'. apply invariant_file; rewrite ?Hu; try assumption.
    intros g Hg _. apply (fresh_gates _ s); [repeat split; assumption|exact Hg].
Qed.

Lemma checkRequests_of_request filteredPayload ev jsonPayload socket :
  In (ev_uid ev) known ->
  triple (fun s => invariant known s /\ fresh (ev_uid ev) s)
         (checkRequests e filteredPayload ev jsonPayload socket)
         (fun _ => invariant known) (invariant known).
Proof.
  intro Hk.
  assert (HJ : forall s, invariant known s /\ fresh (ev_uid ev) s -> invariant known s)
    by (intros s [H _]; exact H).
  unfold checkRequests. cbv zeta.
  destruct filteredPayload as [| |b|n|str|loads|props|r];
    try (apply triple_skip; [apply inert_prop|exact HJ|intro method];
         destruct (strict_eq method (VStr "eth_sendTransaction"));
         [apply triple_skip; [apply inert_prop|exact HJ|intro params];
          apply triple_skip; [apply inert_index|exact HJ|intro first];
          apply triple_get; intro w0;
          apply triple_skip;
            [apply inert_emit; reflexivity|intros s [H _]; apply HJ; exact H
            |intros ?; cbv beta];
          apply triple_modify; intros w [[H F] Hw];
          apply (invariant_open_gate known (pending_of w)
                   (mkGate (w_next_modal w0) _ ev jsonPayload socket false true));
          [exact H|rewrite Hw; reflexivity|exact F|exact Hk]
         |destruct (strict_eq method (VStr "eth_compileSolidity"));
          [apply triple_skip; [apply inert_prop|exact HJ|intro params];
           apply triple_skip; [apply inert_index|exact HJ|intro source];
           apply triple_skip; [inert_tac|exact HJ|intro errors];
           apply triple_skip; [inert_tac|exact HJ|intro response];
           apply triple_skip; [apply inert_stringify|exact HJ|intro data];
           apply triple_bind with (Q := fun _ => invariant known);
           [apply triple_deliver; [exact HJ|];
            intros s [H [Fa [Fp Fg]]]; apply invariant_answer; try assumption;
            intros g Hg _; apply (fresh_gates _ s); [repeat split; assumption|exact Hg]
           |intros ?; apply triple_inert; [|exact (fun s H => H)];
            unfold sendRequest_callback; inert_tac]
          |apply callback_of_request; exact Hk]]).
  apply triple_skip; [inert_tac|exact HJ|intro found].
  destruct (truthy found); apply callback_of_request; exact Hk.
Qed.

Lemma pending_of_new_connection c w :
  pending_of (new_connection c w) = forget_pending (pending_of w).
Proof. reflexivity. Qed.

Lemma connect_returns uid first connects w :
  exists w', connect uid first connects w = (Ok tt, w').
Proof.
  unfold connect. rewrite bind_get. destruct (negb (w_writable w)); eexists; reflexivity.
Qed.

(** A program that neither touches the pending state nor throws. *)
Lemma triple_inert_total (P : pending_state -> Prop) (m : M unit) J :
  inert m -> (forall w, exists w', m w = (Ok tt, w')) -> triple P m (fun _ => P) J.
Proof.
  intros Hm Hok w HP. specialize (Hm w). destruct (Hok w) as [w' Hw].
  rewrite Hw in *. cbn [snd] in Hm. rewrite Hm. exact HP.
Qed.

(** The constructor starts with empty maps. *)
Lemma GethConnection_forgets (P Q : pending_state -> Prop) uid connects J :
  (forall s, P s -> Q (forget_pending s)) ->
  triple P (GethConnection uid connects) (fun _ => Q) J.
Proof.
  intro H. unfold GethConnection.
  apply triple_bind with (Q := fun _ => Q).
  - apply triple_modify. intros w HP. rewrite pending_of_new_connection.
    apply H. exact HP.
  - intros ?. apply triple_inert_total; [apply inert_connect|apply connect_returns].
Qed.

Lemma sendRequest_invariant uid payload sync connects :
  In uid known ->
  triple (fun s => invariant known s /\ fresh uid s)
         (sendRequest e uid payload sync connects)
         (fun _ => invariant known) (invariant known).
Proof.
  intro Hk.
  assert (HJ : forall s, invariant known s /\ fresh uid s -> invariant known s)
    by (intros s [H _]; exact H).
  assert (Hans : forall s, invariant known s /\ fresh uid s ->
                           invariant known (answer uid s)).
  { intros s [H [Fa [Fp Fg]]]. apply invariant_answer; try assumption.
    intros g Hg _. apply (fresh_gates _ s); [repeat split; assumption|exact Hg]. }
  unfold sendRequest.
  apply triple_skip; [apply inert_getId|exact HJ|intros ?; cbv beta].
  apply triple_skip; [apply inert_get|exact HJ|intro w0].
  apply triple_bind with (Q := fun _ s => invariant known s /\ fresh uid s).
  { destruct (negb (w_live w0)).
    - apply GethConnection_forgets. intros s [H F].
      split; [apply invariant_forget; exact H|apply fresh_forget; exact F].
    - destruct (negb (w_writable w0)).
      + apply triple_inert_total; [apply inert_connect|apply connect_returns].
      + apply triple_ret. exact (fun s H => H). }
  intros ?. cbv beta.
  apply triple_skip; [apply inert_get|exact HJ|intro w1].
  destruct (negb (w_writable w1)).
  - apply triple_skip; [apply inert_returnError|exact HJ|intro err].
    apply triple_skip; [apply inert_stringify|exact HJ|intro data].
    apply triple_reply; [exact HJ|exact Hans].
  - cbv zeta.
    apply triple_skip; [apply inert_filterRequestResponse|exact HJ|intro filtered].
    destruct (isEmpty filtered).
    + apply triple_skip; [apply inert_returnError|exact HJ|intro err].
      apply triple_skip; [apply inert_stringify|exact HJ|intro data].
      apply triple_deliver; [exact HJ|exact Hans].
    + apply triple_skip; [apply inert_get|exact HJ|intro w2].
      apply (checkRequests_of_request filtered
               (mkEvent uid (this_id e) sync VUndefined VUndefined)).
      exact Hk.
Qed.

Lemma own_In k m ev : own k m = Some ev -> In (k, ev) m.
Proof.
  induction m as [|[k' ev'] rest IH]; cbn [own]; [discriminate|].
  destruct (String.eqb k k') eqn:Hk.
  - apply String.eqb_eq in Hk. subst k'. intro H. injection H as ->. left. reflexivity.
  - intro H. right. apply IH. exact H.
Qed.

Lemma pending_event_found w id ev :
  pending_event w id = Found ev ->
  In (to_string id, ev) (w_syncEvents w) \/ In (to_string id, ev) (w_asyncEvents w).
Proof.
  unfold pending_event, lookup.
  destruct (own (to_string id) (w_syncEvents w)) as [ev1|] eqn:H1; cbn [pending_or].
  - intro H. injection H as ->. left. apply own_In. exact H1.
  - destruct (inherited_key (to_string id)); cbn [pending_or]; [discriminate|].
    destruct (own (to_string id) (w_asyncEvents w)) as [ev2|] eqn:H2.
    + intro H. injection H as ->. right. apply own_In. exact H2.
    + destruct (inherited_key (to_string id)); discriminate.
Qed.

(** The event [getResponseEvent] finds is in its map, under its own id. *)
Lemma invariant_found s k ev :
  invariant known s ->
  In (k, ev) (p_sync s) \/ In (k, ev) (p_async s) ->
  In (to_string (ev_eventId ev), ev) (pending_map (ev_sync ev) s).
Proof.
  intros Hinv [Hin|Hin].
  - pose proof (inv_sync_filed _ _ Hinv) as Hf. rewrite Forall_forall in Hf.
    destruct (Hf _ Hin) as [Hs Hk]. cbn [fst snd] in Hs, Hk.
    rewrite Hs, <- Hk. exact Hin.
  - pose proof (inv_async_filed _ _ Hinv) as Hf. rewrite Forall_forall in Hf.
    destruct (Hf _ Hin) as [Hs Hk]. cbn [fst snd] in Hs, Hk.
    rewrite Hs, <- Hk. exact Hin.
Qed.

Lemma getResponseEvent_invariant response :
  triple (invariant known) (getResponseEvent response)
         (fun p s =>
            invariant known s
            /\ match p with
               | Found ev => In (to_string (ev_eventId ev), ev) (pending_map (ev_sync ev) s)
               | _ => True
               end)
         (invariant known).
Proof.
  unfold getResponseEvent.
  apply triple_skip; [inert_tac|exact (fun s H => H)|intro response'].
  destruct (truthy response').
  - apply triple_skip; [apply inert_prop|exact (fun s H => H)|intro id].
    apply triple_get. intro w0. apply triple_ret. intros s [H Hs]. split; [exact H|].
    destruct (pending_event w0 id) as [ev| |] eqn:Hp; try exact Logic.I.
    apply (invariant_found s (to_string id)); [exact H|]. subst s. exact (pending_event_found _ _ _ Hp).
  - apply triple_ret. intros s H. split; [exact H|exact Logic.I].
Qed.

Lemma pending_map_resolve s k ev :
  invariant known s ->
  In (k, ev) (pending_map (ev_sync ev) s) ->
  invariant known (unfile (ev_sync ev) k (answer (ev_uid ev) s)).
Proof. intros H Hin. apply invariant_resolve; [exact H|]. exact Hin. Qed.

Lemma on_data_invariant d :
  (triple (invariant known) (timeout e) (fun _ => invariant known) (invariant known)) ->
  triple (invariant known) (on_data e d) (fun _ => invariant known) (invariant known).
Proof.
  intro Htimeout. destruct d as [|result]; [exact Htimeout|].
  unfold on_data.
  eapply triple_bind; [apply getResponseEvent_invariant|].
  intros [ev| |]; cbv beta iota.
  - set (P := fun s => invariant known s
                       /\ In (to_string (ev_eventId ev), ev) (pending_map (ev_sync ev) s)).
    assert (HJ : forall s, P s -> invariant known s) by (intros s [H _]; exact H).
    change (triple P
      (filtered <- filterRequestResponse e result (Some (ev_payload ev)) ;;
       log_notification e filtered ;;;
       if ev_sync ev then
         d <- isDestroyed (ev_sender ev) ;;
         (if negb d then data <- stringify filtered ;; set_returnValue ev data
          else ret tt) ;;;
         modify (fun w =>
           set_syncEvents (remove_key (to_string (ev_eventId ev)) (w_syncEvents w)) w)
       else
         d <- isDestroyed (ev_sender ev) ;;
         (if negb d then data <- stringify filtered ;; reply ev data else ret tt) ;;;
         modify (fun w =>
           set_asyncEvents (remove_key (to_string (ev_eventId ev)) (w_asyncEvents w)) w))
      (fun _ => invariant known) (invariant known)).
    apply triple_skip; [apply inert_filterRequestResponse|exact HJ|intro filtered].
    apply triple_skip; [apply inert_log_notification|exact HJ|intros ?; cbv beta].
    destruct (ev_sync ev) eqn:Hsync.
    + apply triple_skip; [apply inert_isDestroyed|exact HJ|intro gone].
      apply triple_bind
        with (Q := fun _ s =>
                     invariant known (unfile true (to_string (ev_eventId ev)) s)).
      * destruct (negb gone).
        -- apply triple_skip; [apply inert_stringify|exact HJ|intro data].
           apply triple_answer; [reflexivity|]. intros s [H Hin].
           rewrite <- Hsync. apply pending_map_resolve; [exact H|].
           rewrite Hsync. exact Hin.
        -- apply triple_ret. intros s [H _]. apply invariant_unfile. exact H.
      * intros ?. apply triple_modify. intros w H. exact H.
    + apply triple_skip; [apply inert_isDestroyed|exact HJ|intro gone].
      apply triple_bind
        with (Q := fun _ s =>
                     invariant known (unfile false (to_string (ev_eventId ev)) s)).
      * destruct (negb gone).
        -- apply triple_skip; [apply inert_stringify|exact HJ|intro data].
           apply triple_reply; [exact HJ|]. intros s [H Hin].
           rewrite <- Hsync. apply pending_map_resolve; [exact H|].
           rewrite Hsync. exact Hin.
        -- apply triple_ret. intros s [H _]. apply invariant_unfile. exact H.
      * intros ?. apply triple_modify. intros w H. exact H.
  - apply triple_skip;
      [apply inert_filterRequestResponse|intros s [H _]; exact H|intros ?; cbv beta].
    apply triple_skip;
      [apply inert_log_notification|intros s [H _]; exact H|intros ?; cbv beta].
    intros w [H _]. exact H.
  - apply triple_skip; [apply inert_stringify|intros s [H _]; exact H|intro data].
    apply triple_conseq
      with (P := fun s => invariant known s /\ True) (Q := fun _ s => invariant known s /\ True);
      [exact (fun s H => H)|intros a s [H _]; exact H|].
    apply triple_inert; [apply inert_sender_send|intros s [H _]; exact H].
Qed.

End Handlers.

Section Turns.

Variable e : env.
Variable known : list nat.

Lemma remove_key_keeps k m x : In x m -> fst x <> k -> In x (remove_key k m).
Proof.
  intros Hin Hk. rewrite remove_key_filter. apply filter_In. split; [exact Hin|].
  apply negb_true_iff. apply String.eqb_neq. exact (fun H => Hk (eq_sym H)).
Qed.

Lemma pending_map_unfile sync k s :
  pending_map sync (unfile sync k s) = remove_key k (pending_map sync s).
Proof. destruct sync; reflexivity. Qed.

Lemma pending_map_answer sync uid s :
  pending_map sync (answer uid s) = pending_map sync s.
Proof. destruct sync; reflexivity. Qed.

Lemma pending_map_filed sync s x :
  invariant known s -> In x (pending_map sync s) -> well_filed sync x.
Proof.
  intros Hinv Hin. destruct sync; cbn [pending_map] in Hin.
  - pose proof (inv_sync_filed _ _ Hinv) as Hf. rewrite Forall_forall in Hf.
    exact (Hf _ Hin).
  - pose proof (inv_async_filed _ _ Hinv) as Hf. rewrite Forall_forall in Hf.
    exact (Hf _ Hin).
Qed.

Lemma timeout_rest_next sync x rest s s' :
  timeout_rest known sync (x :: rest) s ->
  invariant known s' ->
  pending_map sync s' = remove_key (fst x) (pending_map sync s) ->
  timeout_rest known sync rest s'.
Proof.
  intros [Hinv [Hincl Hnd]] Hinv' Hmap. split; [exact Hinv'|].
  cbn [map] in Hnd. inversion Hnd as [|? ? Hx Hnd']; subst.
  split; [|exact Hnd'].
  intros y Hy. rewrite Hmap. apply remove_key_keeps.
  - apply Hincl. right. exact Hy.
  - intro Heq. apply Hx. rewrite <- Heq. apply in_map. exact Hy.
Qed.

Lemma timeout_entry_invariant sync x rest :
  triple (timeout_rest known sync (x :: rest)) (timeout_entry sync x)
         (fun _ => timeout_rest known sync rest) (invariant known).
Proof.
  assert (HJ : forall s, timeout_rest known sync (x :: rest) s -> invariant known s)
    by (intros s [H _]; exact H).
  assert (Hans : forall s, timeout_rest known sync (x :: rest) s ->
                   timeout_rest known sync rest
                     (unfile sync (fst x) (answer (ev_uid (snd x)) s))).
  { intros s Hs. pose proof Hs as [Hinv [Hincl Hnd]].
    assert (Hin : In x (pending_map sync s)) by (apply Hincl; left; reflexivity).
    destruct (pending_map_filed _ _ _ Hinv Hin) as [Hsy Hk].
    apply (timeout_rest_next sync x rest s); [exact Hs| |].
    - rewrite <- Hsy. apply pending_map_resolve. { exact Hinv. }
      rewrite Hsy. destruct x as [k ev]. exact Hin.
    - rewrite pending_map_unfile, pending_map_answer. reflexivity. }
  assert (Hsame : forall s, timeout_rest known sync (x :: rest) s ->
                    timeout_rest known sync rest (unfile sync (fst x) s)).
  { intros s Hs. apply (timeout_rest_next sync x rest s); [exact Hs| |].
    - apply invariant_unfile. apply HJ. exact Hs.
    - apply pending_map_unfile. }
  unfold timeout_entry. cbv zeta.
  apply triple_skip; [apply inert_isDestroyed|exact HJ|intro gone].
  apply triple_bind
    with (Q := fun _ s => timeout_rest known sync rest (unfile sync (fst x) s)).
  - destruct (negb gone); [|apply triple_ret; exact Hsame].
    apply triple_skip; [apply inert_returnError|exact HJ|intro err].
    apply triple_skip; [apply inert_stringify|exact HJ|intro data].
    destruct sync.
    + apply triple_answer; [reflexivity|exact Hans].
    + apply triple_reply; [exact HJ|exact Hans].
  - intros ?. destruct sync; apply triple_modify; intros w H; exact H.
Qed.

Lemma timeout_loop_invariant sync w0 :
  triple (fun s => invariant known s /\ s = pending_of w0)
         (eachM (timeout_entry sync) (pending_map sync (pending_of w0)))
         (fun _ => invariant known) (invariant known).
Proof.
  apply triple_conseq
    with (P := timeout_rest known sync (pending_map sync (pending_of w0)))
         (Q := fun _ => timeout_rest known sync []).
  - intros s [H ->]. split; [exact H|]. split; [apply incl_refl|].
    destruct sync; [apply (inv_sync_keys _ _ H)|apply (inv_async_keys _ _ H)].
  - intros _ s [H _]. exact H.
  - apply triple_eachM. intros x rest. apply timeout_entry_invariant.
Qed.

Lemma timeout_invariant :
  triple (invariant known) (timeout e) (fun _ => invariant known) (invariant known).
Proof.
  rewrite timeout_unfold.
  apply triple_skip; [apply inert_isDestroyed|exact (fun s H => H)|intro gone].
  apply triple_skip;
    [pose proof inert_sender_send; inert_tac|exact (fun s H => H)|intros ?; cbv beta].
  apply triple_get. intro w0.
  apply triple_bind with (Q := fun _ => invariant known);
    [apply (timeout_loop_invariant false w0)|intros ?].
  apply triple_get. intro w1. apply (timeout_loop_invariant true w1).
Qed.

Lemma destroy_invariant :
  triple (invariant known) (destroy e) (fun _ => invariant known) (invariant known).
Proof.
  unfold destroy.
  apply triple_bind with (Q := fun _ => invariant known);
    [apply timeout_invariant|intros ?].
  apply triple_inert; [inert_tac|exact (fun s H => H)].
Qed.

Lemma when_live_invariant m :
  triple (invariant known) m (fun _ => invariant known) (invariant known) ->
  triple (invariant known) (when_live m) (fun _ => invariant known) (invariant known).
Proof.
  intro Hm. unfold when_live.
  apply triple_skip; [apply inert_get|exact (fun s H => H)|intro w0].
  destruct (w_live w0); [exact Hm|apply triple_ret; exact (fun s H => H)].
Qed.

Lemma on_error_invariant data :
  triple (invariant known) (on_error e data) (fun _ => invariant known) (invariant known).
Proof.
  unfold on_error. apply triple_try_catch with (J' := invariant known).
  - apply triple_inert; [|exact (fun s H => H)].
    pose proof inert_getId. pose proof inert_sender_send. inert_tac.
  - apply destroy_invariant.
Qed.

Lemma tell_and_destroy_invariant channel data :
  triple (invariant known)
         (try_catch (getId (this_id e) ;;; sender_send (this_id e) channel data ;;; destroy e)
                    (ret tt))
         (fun _ => invariant known) (invariant known).
Proof.
  apply triple_try_catch with (J' := invariant known).
  - apply triple_skip; [apply inert_getId|exact (fun s H => H)|intros ?; cbv beta].
    apply triple_skip; [apply inert_sender_send|exact (fun s H => H)|intros ?; cbv beta].
    apply destroy_invariant.
  - apply triple_ret. exact (fun s H => H).
Qed.

Lemma on_create_invariant uid connects :
  triple (invariant known) (on_create e uid connects)
         (fun _ => invariant known) (invariant known).
Proof.
  unfold on_create.
  apply triple_skip; [apply inert_getId|exact (fun s H => H)|intros ?; cbv beta].
  apply triple_skip; [apply inert_get|exact (fun s H => H)|intro w0].
  destruct (w_live w0).
  - apply triple_inert; [apply inert_connect|exact (fun s H => H)].
  - apply GethConnection_forgets. intros s H. apply invariant_forget. exact H.
Qed.

(** *** The gates *)

Lemma triple_update_gate (P : pending_state -> Prop) m f
    (Q : unit -> pending_state -> Prop) J :
  (forall s, P s -> Q tt (change_gate m f s)) -> triple P (update_gate m f) Q J.
Proof. intro H. apply triple_modify. intros w HP. exact (H _ HP). Qed.

Lemma rest_change_gate rest m f s :
  incl rest (p_gates s) ->
  ~ In m (map g_modal rest) ->
  incl rest (p_gates (change_gate m f s)).
Proof.
  intros Hincl Hm y Hy. cbn [change_gate p_gates]. apply in_map_iff. exists y.
  split; [|apply Hincl; exact Hy].
  destruct (Nat.eqb (g_modal y) m) eqn:Heq; [|reflexivity].
  apply Nat.eqb_eq in Heq. exfalso. apply Hm. rewrite <- Heq. apply in_map. exact Hy.
Qed.

Lemma p_gates_file k ev s : p_gates (file k ev s) = p_gates s.
Proof. unfold file. destruct (ev_sync ev); reflexivity. Qed.

Lemma at_gate_change g rest s f :
  (forall g, g_modal (f g) = g_modal g) ->
  (forall g, gate_uid (f g) = gate_uid g) ->
  (forall g, g_called (f g) = false -> g_called g = false) ->
  at_gate known g rest s ->
  at_gate known (f g) rest (change_gate (g_modal g) f s).
Proof.
  intros Fm Fu Fc [Hinv [Hg [Hincl Hm]]]. split; [|split; [|split]].
  - apply invariant_change_gate; assumption.
  - cbn [change_gate p_gates]. apply in_map_iff. exists g.
    rewrite Nat.eqb_refl. split; [reflexivity|exact Hg].
  - apply rest_change_gate; assumption.
  - rewrite Fm. exact Hm.
Qed.

(** The callback as the listeners of a gate call it. *)
Lemma callback_at_gate g rest ev m jsonPayload socket cb result :
  ev = g_event g -> m = g_modal g -> g_called g = false ->
  triple (at_gate known g rest)
         (sendRequest_callback ev jsonPayload socket cb result)
         (fun _ s => invariant known (change_gate m set_called s)
                     /\ incl rest (p_gates (change_gate m set_called s)))
         (invariant known).
Proof.
  intros -> -> Hc. apply triple_callback.
  - intros s [H _]. exact H.
  - intros s [H [Hg [Hincl Hm]]]. split.
    + apply invariant_set_called. exact H.
    + apply rest_change_gate; assumption.
  - intros s [H [Hg [Hincl Hm]]]. split.
    + apply invariant_gate_answer; assumption.
    + apply rest_change_gate; assumption.
  - intros s k ev' [H [Hg [Hincl Hm]]] Hu Hk. split.
    + apply invariant_gate_file; assumption.
    + apply rest_change_gate; [rewrite p_gates_file; exact Hincl|exact Hm].
Qed.

Lemma on_closed_invariant g rest :
  triple (at_gate known g rest) (on_closed g)
         (fun _ s => invariant known s /\ incl rest (p_gates s)) (invariant known).
Proof.
  unfold on_closed. destruct (g_called g) eqn:Hc; cbn [negb].
  - apply triple_ret. intros s [H [_ [Hincl _]]]. split; assumption.
  - eapply triple_bind;
      [apply (callback_at_gate g rest); [reflexivity|reflexivity|exact Hc]|intros ?].
    apply triple_update_gate. exact (fun s H => H).
Qed.

Lemma on_unlockedAccount_invariant g rest sender webContents err result :
  triple (at_gate known g rest) (on_unlockedAccount g sender webContents err result)
         (fun _ s => invariant known s /\ incl rest (p_gates s)) (invariant known).
Proof.
  unfold on_unlockedAccount. destruct (g_armed g).
  2:{ apply triple_ret. intros s [H [_ [Hincl _]]]. split; assumption. }
  apply triple_bind with (Q := fun _ => at_gate known (disarm g) rest).
  { apply triple_update_gate. intros s H.
    apply (at_gate_change g rest s disarm); try (intro; reflexivity); try exact H.
    intro g0. exact (fun H0 => H0). }
  intros ?.
  destruct (webContents && Nat.eqb sender (g_modal g)).
  2:{ apply triple_ret. intros s [H [_ [Hincl _]]]. split; assumption. }
  apply triple_bind
    with (Q := fun _ s =>
                 invariant known (change_gate (g_modal g) set_called s)
                 /\ incl rest (p_gates (change_gate (g_modal g) set_called s))).
  2:{ intros ?.
      apply triple_bind with (Q := fun _ s => invariant known s /\ incl rest (p_gates s)).
      - apply triple_update_gate. exact (fun s H => H).
      - intros ?. apply triple_inert; [inert_tac|]. intros s [H _]. exact H. }
  assert (Hcalled : forall g' s,
             g_modal g' = g_modal g ->
             at_gate known g' rest s ->
             invariant known (change_gate (g_modal g) set_called s)
             /\ incl rest (p_gates (change_gate (g_modal g) set_called s))).
  { intros g' s Hm' [H [Hg [Hincl Hm]]]. split.
    - apply invariant_set_called. exact H.
    - apply rest_change_gate; [exact Hincl|]. rewrite <- Hm'. exact Hm. }
  destruct (truthy err || negb (truthy result)).
  - destruct (g_called g) eqn:Hc; cbn [negb].
    + apply triple_ret. intros s H. apply (Hcalled (disarm g)); [reflexivity|exact H].
    + apply (callback_at_gate (disarm g) rest); [reflexivity|reflexivity|exact Hc].
  - apply triple_skip;
      [apply inert_set_gas|intros s [H _]; exact H|intro payload].
    apply triple_bind
      with (Q := fun _ => at_gate known (set_payload payload (disarm g)) rest).
    { apply triple_update_gate. intros s H.
      apply (at_gate_change (disarm g) rest s (set_payload payload));
        try (intro; reflexivity); try exact H.
      intro g0. exact (fun H0 => H0). }
    intros ?.
    destruct (g_called g) eqn:Hc; cbn [negb].
    + apply triple_ret. intros s H.
      apply (Hcalled (set_payload payload (disarm g))); [reflexivity|exact H].
    + apply (callback_at_gate (set_payload payload (disarm g)) rest);
        [reflexivity|reflexivity|exact Hc].
Qed.

Lemma gates_loop_invariant (body : gate -> M unit) w0 :
  (forall g rest,
      triple (at_gate known g rest) (body g)
             (fun _ s => invariant known s /\ incl rest (p_gates s)) (invariant known)) ->
  triple (fun s => invariant known s /\ s = pending_of w0)
         (eachM body (w_gates w0))
         (fun _ => invariant known) (invariant known).
Proof.
  intro Hbody.
  apply triple_conseq
    with (P := gates_rest known (w_gates w0)) (Q := fun _ => gates_rest known []).
  - intros s [H ->]. split; [exact H|]. split; [apply incl_refl|].
    apply (inv_gates_modals _ _ H).
  - intros _ s [H _]. exact H.
  - apply triple_eachM. intros g rest.
    apply triple_conseq
      with (P := fun s => at_gate known g rest s /\ NoDup (map g_modal rest))
           (Q := fun _ s => (invariant known s /\ incl rest (p_gates s))
                            /\ NoDup (map g_modal rest)).
    + intros s [H [Hincl Hnd]]. cbn [map] in Hnd.
      inversion Hnd as [|? ? Hx Hnd']; subst.
      split; [|exact Hnd']. split; [exact H|]. split; [apply Hincl; left; reflexivity|].
      split; [|exact Hx]. intros y Hy. apply Hincl. right. exact Hy.
    + intros _ s [[H Hincl] Hnd]. split; [exact H|split; assumption].
    + intros w [Hat Hnd]. specialize (Hbody g rest w Hat).
      destruct (body g w) as [[a|msg|] w']; [split; assumption|exact Hbody|exact Logic.I].
Qed.

Lemma popup_closed_invariant modal :
  triple (invariant known) (handle e (PopupClosed modal))
         (fun _ => invariant known) (invariant known).
Proof.
  cbn [handle]. apply triple_get. intro w0. apply gates_loop_invariant.
  intros g rest. destruct (Nat.eqb (g_modal g) modal).
  - apply on_closed_invariant.
  - apply triple_ret. intros s [H [_ [Hincl _]]]. split; assumption.
Qed.

Lemma unlocked_account_invariant sender webContents err result :
  triple (invariant known) (handle e (UnlockedAccount sender webContents err result))
         (fun _ => invariant known) (invariant known).
Proof.
  cbn [handle]. apply triple_get. intro w0. apply gates_loop_invariant.
  intros g rest. apply on_unlockedAccount_invariant.
Qed.

(** Every turn but a request keeps the invariant. *)
Lemma turn_invariant i :
  request_uids [i] = [] ->
  triple (invariant known) (handle e i) (fun _ => invariant known) (invariant known).
Proof.
  intro Hi. destruct i; try discriminate Hi.
  - apply on_create_invariant.
  - apply when_live_invariant.
    apply triple_inert; [|exact (fun s H => H)].
    pose proof inert_emit_to as H1. pose proof (inert_on_connect e) as H2. inert_tac.
  - apply triple_inert; [apply inert_connect_timer|exact (fun s H => H)].
  - apply when_live_invariant. apply on_data_invariant. apply timeout_invariant.
  - apply when_live_invariant.
    apply triple_skip; [apply inert_get|exact (fun s H => H)|intro w0].
    apply triple_skip; [apply inert_emit_to|exact (fun s H => H)|intros ?; cbv beta].
    apply triple_bind with (Q := fun _ => invariant known);
      [apply on_error_invariant|intros ?].
    apply triple_inert; [apply inert_emit_to|exact (fun s H => H)].
  - apply when_live_invariant. apply tell_and_destroy_invariant.
  - apply when_live_invariant. apply tell_and_destroy_invariant.
  - apply when_live_invariant. apply destroy_invariant.
  - apply triple_modify. intros w H. exact H.
  - apply popup_closed_invariant.
  - apply unlocked_account_invariant.
Qed.

End Turns.

Lemma invariant_known_incl known known' s :
  incl known known' -> invariant known s -> invariant known' s.
Proof.
  intros Hincl [H1 H2 H3 H4 H5 H6 H7 H8 H9 H10 H11 H12].
  constructor; try assumption. intros u Hu. apply Hincl. apply H12. exact Hu.
Qed.

Lemma invariant_initial : invariant [] (pending_of initial_world).
Proof.
  constructor; cbn; try constructor; try (intros ? []); try tauto.
Qed.

(** One turn of the event loop keeps the invariant; a request adds its
    event to the known ones. *)
Lemma handle_invariant e i known w :
  invariant known (pending_of w) ->
  (forall uid, In uid (request_uids [i]) -> ~ In uid known) ->
  match handle e i w with
  | (Unmodelled, _) => True
  | (_, w') => invariant (request_uids [i] ++ known) (pending_of w')
  end.
Proof.
  intros Hinv Hnew.
  destruct (request_uids [i]) as [|uid rest] eqn:Hi.
  - pose proof (turn_invariant e known i Hi w Hinv) as H. cbn [app].
    destruct (handle e i w) as [[a|msg|] w']; exact H.
  - destruct i; try discriminate Hi. cbn in Hi. injection Hi as <- <-. cbn [app].
    assert (Hin : In uid0 (uid0 :: known)) by (left; reflexivity).
    pose proof (sendRequest_invariant e (uid0 :: known) uid0 payload sync connects Hin w)
      as H.
    cbn [handle].
    destruct (sendRequest e uid0 payload sync connects w) as [[a|msg|] w'];
      try exact Logic.I; apply H; (split;
        [apply invariant_known_more; exact Hinv
        |apply (fresh_unknown known); [exact Hinv|apply Hnew; left; reflexivity]]).
Qed.

Lemma request_uids_cons i inputs :
  request_uids (i :: inputs) = request_uids [i] ++ request_uids inputs.
Proof. unfold request_uids. cbn [flat_map]. rewrite app_nil_r. reflexivity. Qed.

Lemma run_invariant e inputs :
  forall known w w',
    invariant known (pending_of w) ->
    NoDup (request_uids inputs) ->
    (forall uid, In uid (request_uids inputs) -> ~ In uid known) ->
    run e inputs w = Some w' ->
    invariant (request_uids inputs ++ known) (pending_of w').
Proof.
  induction inputs as [|i rest IH]; intros known w w' Hinv Hnd Hnew Hrun.
  - cbn in Hrun. injection Hrun as <-. exact Hinv.
  - rewrite request_uids_cons in Hnd, Hnew |- *.
    destruct (NoDup_app_inv _ _ Hnd) as [Hnd1 [Hnd2 Hdis]].
    cbn [run] in Hrun.
    assert (Hstep := handle_invariant e i known w Hinv
                       (fun uid Hu => Hnew uid (in_or_app _ _ _ (or_introl Hu)))).
    assert (Hnext : forall w1, invariant (request_uids [i] ++ known) (pending_of w1) ->
                               run e rest w1 = Some w' ->
                               invariant ((request_uids [i] ++ request_uids rest) ++ known)
                                         (pending_of w')).
    { intros w1 H1 Hr.
      apply (invariant_known_incl (request_uids rest ++ request_uids [i] ++ known)).
      - intros u Hu. apply in_app_or in Hu. destruct Hu as [Hu|Hu].
        + apply in_or_app. left. apply in_or_app. right. exact Hu.
        + apply in_app_or in Hu. destruct Hu as [Hu|Hu].
          * apply in_or_app. left. apply in_or_app. left. exact Hu.
          * apply in_or_app. right. exact Hu.
      - apply (IH _ w1); [exact H1|exact Hnd2| |exact Hr].
        intros u Hu Hin. apply in_app_or in Hin. destruct Hin as [Hin|Hin].
        + exact (Hdis u Hin Hu).
        + exact (Hnew u (in_or_app _ _ _ (or_intror Hu)) Hin). }
    destruct (handle e i w) as [[a|msg|] w1]; [| |discriminate Hrun];
      exact (Hnext w1 Hstep Hrun).
Qed.


(** C8: the return value of a pending synchronous request is assigned
    twice.  The view has had its connection destroyed, so that its next
    request, a synchronous one, makes a new connection and is passed to
    [connect], which registers [successEventFunc] for it; the request is
    written and registered as pending.  When the socket connects,
    [successEventFunc] assigns [true] to the return value of the request's
    event, while the event is still in [syncEvents]; when the response of
    the node arrives, the listener of [data] assigns the response to the
    same return value.  The caller is resolved first with a value that is
    neither the response nor an error, and a second time with the
    response. *)
Theorem synchronous_request_that_connects_is_answered_twice :
  exists w1 w2,
    run webview_env (firstn 3 reconnect_exchange) initial_world = Some w1
    /\ w_syncEvents w1 = [("7", mkEvent 1 12 true balance_request (VNum 7))]
    /\ return_values 1 (w_trace w1) = [VBool true]
    /\ run webview_env reconnect_exchange initial_world = Some w2
    /\ return_values 1 (w_trace w2) = [VBool true; balance_response]
    /\ w_syncEvents w2 = []
    /\ w_trace w2
       = [Send 12 "ipcProvider-setWritable" (VBool true); SocketDestroy;
          GotResult 1 CbNull balance_request; SocketWrite balance_request;
          ConnectResult 1 true;
          Send 12 "ipcProvider-setWritable" (VBool true);
          Send 12 "ipcProvider-connect" VNull;
          ReturnValue 1 balance_response].
Proof.
  do 2 eexists.
  split; [vm_compute; reflexivity|].
  split; [vm_compute; reflexivity|].
  split; [vm_compute; reflexivity|].
  split; [vm_compute; reflexivity|].
  repeat split; vm_compute; reflexivity.
Qed.

(** ** The theorems at work on sample messages *)






(** ** Programs that change nothing but the templates *)

Lemma frame_ret {A} (a : A) : frame (ret a).
Proof.
  intro w. split; [exists (w_templates w); symmetry; apply set_templates_id|discriminate].
Qed.

Lemma frame_get : frame get.
Proof.
  intro w. split; [exists (w_templates w); symmetry; apply set_templates_id|discriminate].
Qed.

Lemma frame_throw {A} msg : frame (@throw A msg).
Proof.
  intro w. split; [exists (w_templates w); symmetry; apply set_templates_id|discriminate].
Qed.

Lemma frame_prop v k : frame (prop v k).
Proof.
  intro w. unfold prop. destruct (get_prop (w_templates w) v k);
    (split; [exists (w_templates w); symmetry; apply set_templates_id|discriminate]).
Qed.

Lemma frame_index v i : frame (index v i).
Proof.
  intro w. unfold index. destruct (get_index v i);
    (split; [exists (w_templates w); symmetry; apply set_templates_id|discriminate]).
Qed.

Lemma frame_stringify v : frame (stringify v).
Proof.
  intro w. split; [exists (w_templates w); symmetry; apply set_templates_id|discriminate].
Qed.

Lemma frame_templates (h : templates -> templates) :
  frame (modify (fun w => set_templates (h (w_templates w)) w)).
Proof. intro w. split; [eexists; reflexivity|discriminate]. Qed.

Lemma frame_bind {A B} (m : M A) (f : A -> M B) :
  frame m -> (forall a, frame (f a)) -> frame (bind m f).
Proof.
  intros Hm Hf w. unfold bind. destruct (Hm w) as [[ts Hts] Hmod].
  destruct (m w) as [[a|msg|] w']; cbn [fst snd] in *.
  - subst w'. destruct (Hf a (set_templates ts w)) as [[ts' Hts'] Hmod'].
    split; [exists ts'; rewrite Hts'; reflexivity|exact Hmod'].
  - split; [exists ts; exact Hts|discriminate].
  - exfalso. apply Hmod. reflexivity.
Qed.

Lemma frame_mapM {A B} (f : A -> M B) l : (forall x, frame (f x)) -> frame (mapM f l).
Proof.
  intro Hf. induction l as [|x rest IH]; cbn [mapM]; [apply frame_ret|].
  apply frame_bind; [apply Hf|intro y].
  apply frame_bind; [exact IH|intro ys]. apply frame_ret.
Qed.

Lemma frame_findM pred l : (forall x, frame (pred x)) -> frame (findM pred l).
Proof.
  intro Hp. induction l as [|x rest IH]; cbn [findM]; [apply frame_ret|].
  apply frame_bind; [apply Hp|intros [|]]; [apply frame_ret|exact IH].
Qed.

Ltac frame_step :=
  first
    [ match goal with H : _ |- _ => simple apply H end
    | simple apply @frame_ret | simple apply frame_get | simple apply @frame_throw
    | simple apply frame_prop | simple apply frame_index | simple apply frame_stringify
    | simple apply frame_templates
    | simple apply @frame_mapM; intro
    | simple apply frame_findM; intro
    | simple apply @frame_bind; [|intro]
    | match goal with
      | |- frame (if ?c then _ else _) => destruct c
      | |- frame (match ?x with _ => _ end) => destruct x
      end ].

Ltac frame_tac := cbv beta; repeat (frame_step; cbv beta).

Lemma frame_makeError payload r : frame (makeError payload r).
Proof.
  unfold makeError.
  apply frame_bind; [|intros ?].
  - destruct (has_error r); [|apply frame_ret].
    apply frame_bind; [apply frame_prop|intro method].
    apply (frame_templates
             (fun ts =>
                update_template ts r
                  (mkTemplate
                     (js_replace (t_message (get_template ts r))
                        (String quote (to_string method ++ String quote EmptyString)%string))
                     (t_id (get_template ts r))))).
  - apply frame_bind; [apply frame_prop|intro id].
    apply frame_bind; [|intros ?; apply frame_ret].
    apply (frame_templates
             (fun ts =>
                update_template ts r (mkTemplate (t_message (get_template ts r)) id))).
Qed.

Lemma frame_returnError payload r : frame (returnError payload r).
Proof.
  unfold returnError. destruct payload; try apply frame_makeError.
  apply frame_bind; [|intro; apply frame_ret].
  apply frame_mapM. intro. apply frame_makeError.
Qed.

Lemma frame_reject payload error : frame (reject payload error).
Proof. destruct error; [apply frame_returnError|apply frame_ret]. Qed.

Lemma frame_testPayload e payload error method :
  frame (testPayload e payload error method).
Proof. pose proof frame_reject as Hr. unfold testPayload. frame_tac. Qed.

Lemma frame_filterRequestResponse e payload event_payload :
  frame (filterRequestResponse e payload event_payload).
Proof.
  pose proof (frame_testPayload e) as Ht.
  unfold filterRequestResponse. frame_tac.
Qed.

Lemma frame_isDestroyed s : frame (isDestroyed s).
Proof. unfold isDestroyed. frame_tac. Qed.

Lemma frame_getId s : frame (getId s).
Proof. pose proof frame_isDestroyed as Hd. unfold getId. frame_tac. Qed.

Lemma frame_log_notification e result : frame (log_notification e result).
Proof. pose proof frame_getId as Hg. unfold log_notification. frame_tac. Qed.

Lemma frame_getResponseEvent response : frame (getResponseEvent response).
Proof. unfold getResponseEvent. frame_tac. Qed.

(** A framed program that ends in a throw. *)
Lemma frame_then_throw {A} (m : M A) msg w :
  frame m ->
  exists msg' ts, bind m (fun _ => throw msg) w = (@Throw unit msg', set_templates ts w).
Proof.
  intro Hm. unfold bind. destruct (Hm w) as [[ts Hts] Hmod].
  destruct (m w) as [[a|msg'|] w']; cbn [fst snd] in *; subst w'.
  - exists msg, ts. reflexivity.
  - exists msg', ts. reflexivity.
  - exfalso. apply Hmod. reflexivity.
Qed.

(** ** Requests and responses *)


Lemma makeError_undefined r w :
  has_error r = true -> makeError VUndefined r w = (Throw "TypeError", w).
Proof. intro H. unfold makeError. rewrite H. reflexivity. Qed.

(** X3: a request on a socket that is still not writable after it has been
    asked to connect gets no answer.  [sendRequest] means to answer with the
    timeout error, but builds it from [jsonPayload], which is assigned
    further down and still undefined: [makeError] throws on
    [payload.method], and nothing is sent or assigned. *)
Theorem request_on_unwritable_socket_gets_no_answer
    (e : env) (w : world) (uid : nat) (payload : value) (sync : bool) :
  alive w (this_id e) = true ->
  w_live w = false \/ w_writable w = false ->
  exists w',
    sendRequest e uid payload sync false w = (Throw "TypeError", w')
    /\ w_trace w' = w_trace w
    /\ w_writable w' = false
    /\ w_attempts w'
       = w_attempts w
         ++ [mkAttempt uid (if w_live w then w_generation w else S (w_generation w))
                       (negb (w_live w)) true true true].
Proof.
  intros Halive Hstate. unfold sendRequest.
  rewrite bind_getId_alive by exact Halive. js.
  destruct (w_live w) eqn:Hlive; cbn [negb]; cbv iota.
  - destruct Hstate as [Hl|Hwr]; [discriminate Hl|].
    rewrite Hwr. cbn [negb]. cbv iota.
    unfold connect. js. rewrite Hwr. cbn [negb]. cbv iota. js. wsimpl.
    cbn [negb]. cbv iota.
    unfold returnError. rewrite bind_run, makeError_undefined by reflexivity.
    eexists. split; [reflexivity|]. wsimpl. repeat split; reflexivity.
  - unfold GethConnection, connect. js. wsimpl. cbn [negb]. cbv iota. js. wsimpl.
    cbn [negb]. cbv iota.
    unfold returnError. rewrite bind_run, makeError_undefined by reflexivity.
    eexists. split; [reflexivity|]. wsimpl. repeat split; reflexivity.
Qed.

Lemma request_on_unwritable_socket_sample :
  exists w',
    sendRequest webview_env 1 balance_request true false
                (set_socket false true initial_world)
    = (Throw "TypeError", w')
    /\ w_trace w' = [].
Proof.
  destruct (request_on_unwritable_socket_gets_no_answer webview_env
              (set_socket false true initial_world) 1 balance_request true
              eq_refl (or_intror eq_refl))
    as [w' [Hrun [Htr _]]].
  exists w'. split; [exact Hrun|exact Htr].
Defined.

(** X4: a message of the node that belongs to no pending call goes to the
    view of the connection as it came, without passing the filter; when that
    view is destroyed the listener throws and nothing is sent. *)
Theorem unmatched_message_is_forwarded_unfiltered
    (e : env) (w : world) (props : list (string * value)) :
  pending_event w (field props "id") = Missing ->
  (alive w (this_id e) = true ->
   on_data e (DechunkResult (VObj props)) w
   = (Ok tt,
      add_effect (Send (this_id e) "ipcProvider-data"
                       (JSON_stringify (w_templates w) (VObj props))) w))
  /\ (alive w (this_id e) = false ->
      on_data e (DechunkResult (VObj props)) w
      = (Throw "Object has been destroyed", w)).
Proof.
  intro Hmiss.
  assert (Hstart : on_data e (DechunkResult (VObj props)) w
                   = sender_send (this_id e) "ipcProvider-data"
                       (JSON_stringify (w_templates w) (VObj props)) w).
  { unfold on_data. rewrite (bind_ok _ _ _ _ _ (getResponseEvent_single props w)).
    rewrite Hmiss. cbv iota. js. reflexivity. }
  rewrite Hstart. unfold sender_send.
  split; intro Ha; rewrite bind_isDestroyed, Ha; reflexivity.
Qed.

Lemma unmatched_message_sample :
  on_data webview_env
    (DechunkResult (VObj [("jsonrpc", VStr "2.0"); ("method", VStr "admin_nodeInfo");
                          ("params", VArr [VStr "enode"])]))
    initial_world
  = (Ok tt,
     add_effect
       (Send 12 "ipcProvider-data"
             (VObj [("jsonrpc", VStr "2.0"); ("method", VStr "admin_nodeInfo");
                    ("params", VArr [VStr "enode"])]))
       initial_world).
Proof.
  apply (unmatched_message_is_forwarded_unfiltered webview_env initial_world
           [("jsonrpc", VStr "2.0"); ("method", VStr "admin_nodeInfo");
            ("params", VArr [VStr "enode"])] eq_refl).
  reflexivity.
Defined.

Lemma pending_event_inherited w id :
  inherited_key (to_string id) = true ->
  own (to_string id) (w_syncEvents w) = None ->
  pending_event w id = Inherited.
Proof.
  intros Hk Hown. unfold pending_event, lookup. rewrite Hown, Hk. reflexivity.
Qed.

(** X5: an id that is the name of a member every object inherits cannot be
    correlated.  When the id of a message is such a name ([constructor],
    [toString], [__proto__], ...) and the synchronous map has no entry of
    its own under it, the read of the map yields the inherited member, which
    is taken for the event: the listener of [data] throws, nothing is sent or
    assigned to anyone and the pending maps stay as they are, even when the
    asynchronous map holds a call under that id. *)
Theorem message_with_inherited_id_throws
    (e : env) (w : world) (props : list (string * value)) :
  inherited_key (to_string (field props "id")) = true ->
  own (to_string (field props "id")) (w_syncEvents w) = None ->
  exists msg ts,
    on_data e (DechunkResult (VObj props)) w = (Throw msg, set_templates ts w).
Proof.
  intros Hk Hown. unfold on_data.
  rewrite (bind_ok _ _ _ _ _ (getResponseEvent_single props w)).
  rewrite (pending_event_inherited w _ Hk Hown). cbv iota.
  rewrite <- bind_bind.
  apply (frame_then_throw
           (bind (filterRequestResponse e (VObj props) (Some VUndefined))
                 (fun filtered => log_notification e filtered))).
  apply frame_bind; [apply frame_filterRequestResponse|intro].
  apply frame_log_notification.
Qed.

Lemma message_with_inherited_id_sample :
  exists msg ts,
    on_data webview_env
      (DechunkResult (VObj [("jsonrpc", VStr "2.0"); ("id", VStr "constructor");
                            ("result", VStr "0x10")]))
      constructor_pending
    = (Throw msg, set_templates ts constructor_pending).
Proof.
  apply (message_with_inherited_id_throws webview_env constructor_pending
           [("jsonrpc", VStr "2.0"); ("id", VStr "constructor"); ("result", VStr "0x10")]
           eq_refl eq_refl).
Defined.

Lemma filter_response_passes e w request props :
  passes_filter e w request props ->
  filterRequestResponse e (VObj props) (Some request) w = (Ok (VObj props), w).
Proof.
  intro H. unfold filterRequestResponse. cbn [isObject negb]. cbv iota.
  destruct (is_admin e) eqn:Hadm; [reflexivity|].
  destruct H as [H|[m [Hm Hpass]]]; [rewrite Hadm in H; discriminate H|].
  js. rewrite (bind_prop_some _ _ _ _ _ Hm).
  unfold testPayload. js. unfold response_passes in Hpass.
  destruct (truthy (field props "error")); [reflexivity|].
  cbn [orb] in Hpass. js.
  destruct (truthy (field props "method")).
  - rewrite Hpass. reflexivity.
  - js. destruct (truthy (field props "result")); cbn [negb orb] in Hpass.
    + apply andb_prop in Hpass. destruct Hpass as [Ht Hne].
      rewrite Ht. cbn [negb]. apply negb_true_iff in Hne. rewrite Hne. reflexivity.
    + destruct (truthy (field props "result")); reflexivity.
Qed.

Lemma own_put_same k ev m : own k (put k ev m) = Some ev.
Proof.
  induction m as [|[k' ev'] rest IH]; cbn [put own].
  - rewrite String.eqb_refl. reflexivity.
  - destruct (String.eqb k k') eqn:Hk; cbn [own].
    + rewrite String.eqb_refl. reflexivity.
    + rewrite Hk. exact IH.
Qed.

Lemma own_put_other k k' ev m : k' <> k -> own k' (put k ev m) = own k' m.
Proof.
  intro Hne. induction m as [|[k0 ev0] rest IH]; cbn [put own].
  - apply String.eqb_neq in Hne. rewrite Hne. reflexivity.
  - destruct (String.eqb k k0) eqn:Hk; cbn [own].
    + apply String.eqb_eq in Hk. subst k0.
      apply String.eqb_neq in Hne. rewrite Hne. reflexivity.
    + rewrite IH. reflexivity.
Qed.

Lemma own_remove_key k m : own k (remove_key k m) = None.
Proof.
  induction m as [|[k' ev'] rest IH]; cbn [remove_key own]; [reflexivity|].
  destruct (String.eqb k k') eqn:Hk; [exact IH|]. cbn [own]. rewrite Hk. exact IH.
Qed.

Lemma remove_key_put k ev m : remove_key k (put k ev m) = remove_key k m.
Proof.
  induction m as [|[k' ev'] rest IH]; cbn [put remove_key].
  - rewrite String.eqb_refl. reflexivity.
  - destruct (String.eqb k k') eqn:Hk; cbn [remove_key].
    + rewrite String.eqb_refl. reflexivity.
    + rewrite Hk, IH. reflexivity.
Qed.

(** The listener of [data] for a message that is found pending and comes
    through the filter as it is. *)
Lemma on_data_found e w ev props :
  pending_event w (field props "id") = Found ev ->
  passes_filter e w (ev_payload ev) props ->
  on_data e (DechunkResult (VObj props)) w
  = bind (log_notification e (VObj props))
      (fun _ =>
         if ev_sync ev then
           d <- isDestroyed (ev_sender ev) ;;
           (if negb d then
              data <- stringify (VObj props) ;; set_returnValue ev data
            else ret tt) ;;;
           modify (fun w =>
             set_syncEvents (remove_key (to_string (ev_eventId ev)) (w_syncEvents w)) w)
         else
           d <- isDestroyed (ev_sender ev) ;;
           (if negb d then data <- stringify (VObj props) ;; reply ev data
            else ret tt) ;;;
           modify (fun w =>
             set_asyncEvents (remove_key (to_string (ev_eventId ev)) (w_asyncEvents w)) w))
      w.
Proof.
  intros Hfound Hpass. unfold on_data.
  rewrite (bind_ok _ _ _ _ _ (getResponseEvent_single props w)).
  rewrite Hfound. cbv iota.
  rewrite (bind_ok _ _ _ _ _ (filter_response_passes e w _ props Hpass)).
  reflexivity.
Qed.

Lemma on_data_resolves e w ev props :
  pending_event w (field props "id") = Found ev ->
  passes_filter e w (ev_payload ev) props ->
  alive w (this_id e) = true ->
  alive w (ev_sender ev) = true ->
  on_data e (DechunkResult (VObj props)) w
  = (Ok tt, resolved ev (JSON_stringify (w_templates w) (VObj props)) w).
Proof.
  intros Hfound Hpass Hview Halive.
  rewrite (on_data_found e w ev props Hfound Hpass).
  rewrite (bind_log_notification_obj e props _ w Hview).
  unfold resolved, delivery. destruct ev as [uid sender sync payload eventId].
  cbn [ev_sync ev_sender ev_uid ev_eventId] in *.
  destruct sync; js; rewrite bind_isDestroyed, Halive; cbn [negb]; js.
  - unfold set_returnValue. js. reflexivity.
  - unfold reply. js. rewrite bind_isDestroyed. cbn [ev_sender].
    rewrite Halive. cbn [negb]. js. reflexivity.
Qed.

(** X6: a response for a pending call whose sender is destroyed.  When the
    id of the response is truthy, nothing is sent or assigned and the entry
    is deleted from its map; when it is falsy, the line that logs a
    notification reads the id of the destroyed sender and throws, and the
    entry stays in its map. *)
Theorem response_for_destroyed_sender
    (e : env) (w : world) (ev : event) (props : list (string * value)) :
  pending_event w (field props "id") = Found ev ->
  passes_filter e w (ev_payload ev) props ->
  alive w (ev_sender ev) = false ->
  (truthy (field props "id") = true ->
   on_data e (DechunkResult (VObj props)) w = (Ok tt, unfiled ev w))
  /\ (truthy (field props "id") = false ->
      alive w (this_id e) = false ->
      on_data e (DechunkResult (VObj props)) w
      = (Throw "Object has been destroyed", w)).
Proof.
  intros Hfound Hpass Hgone.
  rewrite (on_data_found e w ev props Hfound Hpass).
  unfold log_notification. js. split.
  - intro Hid. rewrite Hid. cbn [negb andb]. cbv iota. js.
    unfold unfiled. destruct (ev_sync ev); js;
      rewrite bind_isDestroyed, Hgone; reflexivity.
  - intros Hid Hview. rewrite Hid. cbn [negb andb isArray]. cbv iota.
    unfold getId. rewrite !bind_bind, bind_isDestroyed, Hview. reflexivity.
Qed.

Lemma response_for_destroyed_sender_sample :
  on_data webview_env (DechunkResult balance_response) abandoned_call
  = (Ok tt, unfiled (pending_async 1 balance_request (VNum 7)) abandoned_call).
Proof.
  apply (response_for_destroyed_sender webview_env abandoned_call
           (pending_async 1 balance_request (VNum 7))
           [("jsonrpc", VStr "2.0"); ("id", VNum 7); ("result", VStr "0x10")]
           eq_refl
           (or_intror (ex_intro _ (VStr "eth_getBalance") (conj eq_refl eq_refl)))
           eq_refl).
  reflexivity.
Defined.



(** ** The confirmation of a transaction when no other is waiting *)

Lemma assoc_set_assoc_same k v props : assoc k (set_assoc k v props) = Some v.
Proof.
  induction props as [|[k' v'] rest IH]; cbn [set_assoc assoc].
  - rewrite String.eqb_refl. reflexivity.
  - destruct (String.eqb k k') eqn:Hk; cbn [assoc].
    + rewrite String.eqb_refl. reflexivity.
    + rewrite Hk. exact IH.
Qed.

Lemma assoc_set_assoc_other k k' v props :
  k' <> k -> assoc k' (set_assoc k v props) = assoc k' props.
Proof.
  intro Hne. induction props as [|[k0 v0] rest IH]; cbn [set_assoc assoc].
  - apply String.eqb_neq in Hne. rewrite Hne. reflexivity.
  - destruct (String.eqb k k0) eqn:Hk; cbn [assoc].
    + apply String.eqb_eq in Hk. subst k0.
      apply String.eqb_neq in Hne. rewrite Hne. reflexivity.
    + rewrite IH. reflexivity.
Qed.

Lemma field_set_assoc_same k v props : field (set_assoc k v props) k = v.
Proof. unfold field. rewrite assoc_set_assoc_same. reflexivity. Qed.

Lemma field_set_assoc_other k k' v props :
  k' <> k -> field (set_assoc k v props) k' = field props k'.
Proof. intro H. unfold field. rewrite assoc_set_assoc_other by exact H. reflexivity. Qed.

Lemma sendTransaction_opens_gate e w uid props sync connects first :
  ready e w ->
  field props "method" = VStr "eth_sendTransaction" ->
  get_index (field props "params") 0 = Some first ->
  sendRequest e uid (VObj props) sync connects w
  = (Ok tt,
     set_gates (w_gates w ++ [gate_of e w uid sync props]) (S (w_next_modal w))
       (add_effect (CreatePopup (w_next_modal w) (VArr [VStr "data"; first])) w)).
Proof.
  intros Hready Hm Hp.
  rewrite (sendRequest_ready _ _ _ _ _ _ Hready).
  rewrite (bind_ok _ _ _ _ _ (filter_passes_allowed e props w
             ltac:(rewrite Hm; reflexivity) ltac:(rewrite Hm; reflexivity))).
  assert (Hne : isEmpty (VObj props) = false).
  { destruct props; [discriminate Hm|reflexivity]. }
  rewrite Hne. js. unfold checkRequests. js. rewrite Hm.
  change (strict_eq (VStr "eth_sendTransaction") (VStr "eth_sendTransaction")) with true.
  cbv iota. js. rewrite (bind_index_some _ _ _ _ _ Hp). js. reflexivity.
Qed.

Lemma find_match_denied : find_match "Transaction denied" = None.
Proof. reflexivity. Qed.

(** The callback when it is given the denial. *)
Lemma callback_denies e w uid sync props socket :
  alive w (this_id e) = true ->
  t_message (get_template (w_templates w) errorUnlock) = "Transaction denied" ->
  sendRequest_callback (mkEvent uid (this_id e) sync VUndefined VUndefined)
                       (VObj props) socket (CbTemplate errorUnlock) VUndefined w
  = (Ok tt,
     add_effect (delivery uid (this_id e) sync (denied (field props "id")))
       (set_templates
          (update_template (w_templates w) errorUnlock
             (mkTemplate "Transaction denied" (field props "id")))
          (add_effect (GotResult uid (CbTemplate errorUnlock) VUndefined) w))).
Proof.
  intros Halive Hmsg. unfold sendRequest_callback. js.
  unfold returnError. rewrite bind_run, makeError_obj. js.
  rewrite deliver_alive by (unfold alive; wsimpl; exact Halive).
  wsimpl. rewrite stringify_error_ref by reflexivity.
  rewrite get_update_same. unfold written. cbn [has_error t_message t_id error_code].
  rewrite Hmsg. unfold js_replace. rewrite find_match_denied. reflexivity.
Qed.

(** X8: a request to send a transaction is held for confirmation.  A single
    [eth_sendTransaction] request of a view that is there opens the
    confirmation popup on its first parameter and does nothing else: it is
    not written to the socket, not registered as pending and not
    answered. *)
Theorem transaction_is_held_for_confirmation
    (e : env) (w : world) (uid : nat) (props : list (string * value))
    (sync connects : bool) (first : value) :
  ready e w ->
  field props "method" = VStr "eth_sendTransaction" ->
  get_index (field props "params") 0 = Some first ->
  exists w',
    sendRequest e uid (VObj props) sync connects w = (Ok tt, w')
    /\ w_trace w' = w_trace w ++ [CreatePopup (w_next_modal w) (VArr [VStr "data"; first])]
    /\ w_gates w' = w_gates w ++ [gate_of e w uid sync props]
    /\ w_syncEvents w' = w_syncEvents w
    /\ w_asyncEvents w' = w_asyncEvents w
    /\ w_templates w' = w_templates w.
Proof.
  intros Hready Hm Hp. eexists.
  split; [apply (sendTransaction_opens_gate e w uid props sync connects first);
          assumption|].
  repeat split; reflexivity.
Qed.

Lemma transaction_is_held_sample :
  exists w',
    sendRequest webview_env 1 (tx_request (VNum 1)) false true initial_world = (Ok tt, w')
    /\ w_trace w' = [CreatePopup 0 (VArr [VStr "data"; VObj transaction])]
    /\ w_asyncEvents w' = [].
Proof.
  destruct (transaction_is_held_for_confirmation webview_env initial_world 1
              (request (VNum 1) "eth_sendTransaction" [VObj transaction]) false true
              (VObj transaction) (conj eq_refl (conj eq_refl eq_refl)) eq_refl eq_refl)
    as [w' [H1 [H2 [_ [_ [H5 _]]]]]].
  exists w'. split; [exact H1|]. split; [exact H2|exact H5].
Defined.

Lemma run_two e i1 i2 w w1 w2 r1 r2 :
  handle e i1 w = (r1, w1) -> r1 <> Unmodelled ->
  handle e i2 w1 = (r2, w2) -> r2 <> Unmodelled ->
  run e [i1; i2] w = Some w2.
Proof.
  intros H1 Hr1 H2 Hr2. cbn [run]. rewrite H1.
  destruct r1; [| |exfalso; apply Hr1; reflexivity];
    rewrite H2; (destruct r2; [reflexivity|reflexivity|exfalso; apply Hr2; reflexivity]).
Qed.

(** X9: a transaction whose popup is closed without a decision is denied.
    On a connection with no other confirmation waiting, the request opens
    its popup; when the popup is closed, the caller is handed the
    [Transaction denied] error with the id of the request, nothing is
    written to the socket or registered as pending, and the gate is latched:
    a second [closed] event does nothing. *)
Theorem closed_popup_denies_the_transaction
    (e : env) (w : world) (uid : nat) (props : list (string * value))
    (sync connects : bool) (first : value) :
  ready e w ->
  w_gates w = [] ->
  t_message (get_template (w_templates w) errorUnlock) = "Transaction denied" ->
  field props "method" = VStr "eth_sendTransaction" ->
  get_index (field props "params") 0 = Some first ->
  exists w',
    run e [Request uid (VObj props) sync connects; PopupClosed (w_next_modal w)] w
    = Some w'
    /\ w_trace w'
       = w_trace w
         ++ [CreatePopup (w_next_modal w) (VArr [VStr "data"; first]);
             GotResult uid (CbTemplate errorUnlock) VUndefined;
             delivery uid (this_id e) sync (denied (field props "id"))]
    /\ w_syncEvents w' = w_syncEvents w
    /\ w_asyncEvents w' = w_asyncEvents w
    /\ handle e (PopupClosed (w_next_modal w)) w' = (Ok tt, w').
Proof.
  intros Hready Hgates Hmsg Hm Hp. pose proof Hready as [Halive _].
  pose proof (sendTransaction_opens_gate e w uid props sync connects first Hready Hm Hp)
    as Hsend.
  rewrite Hgates in Hsend. cbn [app] in Hsend.
  set (w1 := set_gates [gate_of e w uid sync props] (S (w_next_modal w))
               (add_effect (CreatePopup (w_next_modal w) (VArr [VStr "data"; first])) w))
    in *.
  assert (Hclosed : exists w2,
             handle e (PopupClosed (w_next_modal w)) w1 = (Ok tt, w2)
             /\ w2 = set_gates [set_called (gate_of e w uid sync props)] (S (w_next_modal w))
                       (add_effect (delivery uid (this_id e) sync (denied (field props "id")))
                          (set_templates
                             (update_template (w_templates w) errorUnlock
                                (mkTemplate "Transaction denied" (field props "id")))
                             (add_effect (GotResult uid (CbTemplate errorUnlock) VUndefined)
                                         w1)))).
  { eexists. split; [|reflexivity].
    cbn [handle]. js. subst w1. wsimpl. unfold gate_of. cbn [eachM g_modal].
    rewrite Nat.eqb_refl. unfold on_closed. cbn [g_called negb g_event g_jsonPayload
      g_socket g_modal]. js.
    rewrite bind_run, callback_denies
      by (try (unfold alive; wsimpl; exact Halive); wsimpl; exact Hmsg).
    unfold update_gate. js. wsimpl. cbn [map g_modal]. rewrite Nat.eqb_refl.
    reflexivity. }
  destruct Hclosed as [w2 [Hstep Hw2]].
  exists w2. split.
  - apply (run_two e _ _ w w1 w2 (Ok tt) (Ok tt)); try discriminate; assumption.
  - subst w2 w1. wsimpl. rewrite <- !app_assoc.
    repeat split; try reflexivity.
    cbn [handle]. js. wsimpl. unfold gate_of. cbn [eachM set_called g_modal].
    rewrite Nat.eqb_refl. unfold on_closed. cbn [g_called negb]. reflexivity.
Qed.

Lemma closed_popup_sample :
  exists w',
    run webview_env [Request 1 (tx_request (VNum 1)) false true; PopupClosed 0]
        initial_world
    = Some w'
    /\ w_trace w'
       = [CreatePopup 0 (VArr [VStr "data"; VObj transaction]);
          GotResult 1 (CbTemplate errorUnlock) VUndefined;
          Reply 1 12 (denied (VNum 1))].
Proof.
  destruct (closed_popup_denies_the_transaction webview_env initial_world 1
              (request (VNum 1) "eth_sendTransaction" [VObj transaction]) false true
              (VObj transaction) (conj eq_refl (conj eq_refl eq_refl))
              eq_refl eq_refl eq_refl eq_refl)
    as [w' [H1 [H2 _]]].
  exists w'. split; [exact H1|exact H2].
Defined.

(** X10: a transaction the popup denies.  On a connection with no other
    confirmation waiting, when the popup of the request reports an error or
    no gas, the caller is handed the [Transaction denied] error with the id
    of the request and the popup is closed; nothing is written to the socket
    or registered as pending, and the [closed] event that follows does
    nothing. *)
Theorem denied_transaction_is_not_written
    (e : env) (w : world) (uid : nat) (props : list (string * value))
    (sync connects : bool) (first err result : value) :
  ready e w ->
  w_gates w = [] ->
  t_message (get_template (w_templates w) errorUnlock) = "Transaction denied" ->
  field props "method" = VStr "eth_sendTransaction" ->
  get_index (field props "params") 0 = Some first ->
  truthy err || negb (truthy result) = true ->
  exists w',
    run e [Request uid (VObj props) sync connects;
           UnlockedAccount (w_next_modal w) true err result] w
    = Some w'
    /\ w_trace w'
       = w_trace w
         ++ [CreatePopup (w_next_modal w) (VArr [VStr "data"; first]);
             GotResult uid (CbTemplate errorUnlock) VUndefined;
             delivery uid (this_id e) sync (denied (field props "id"));
             ClosePopup (w_next_modal w)]
    /\ w_syncEvents w' = w_syncEvents w
    /\ w_asyncEvents w' = w_asyncEvents w
    /\ handle e (PopupClosed (w_next_modal w)) w' = (Ok tt, w').
Proof.
  intros Hready Hgates Hmsg Hm Hp Hdeny. pose proof Hready as [Halive _].
  pose proof (sendTransaction_opens_gate e w uid props sync connects first Hready Hm Hp)
    as Hsend.
  rewrite Hgates in Hsend. cbn [app] in Hsend.
  set (w1 := set_gates [gate_of e w uid sync props] (S (w_next_modal w))
               (add_effect (CreatePopup (w_next_modal w) (VArr [VStr "data"; first])) w))
    in *.
  assert (Hstep : exists w2,
             handle e (UnlockedAccount (w_next_modal w) true err result) w1 = (Ok tt, w2)
             /\ w_trace w2
                = w_trace w1
                  ++ [GotResult uid (CbTemplate errorUnlock) VUndefined;
                      delivery uid (this_id e) sync (denied (field props "id"));
                      ClosePopup (w_next_modal w)]
             /\ w_syncEvents w2 = w_syncEvents w1
             /\ w_asyncEvents w2 = w_asyncEvents w1
             /\ w_gates w2 = [set_called (disarm (gate_of e w uid sync props))]).
  { eexists. split.
    - cbn [handle]. js. subst w1. wsimpl. unfold gate_of. cbn [eachM].
      unfold on_unlockedAccount. cbn [g_armed g_modal g_called g_event g_jsonPayload
        g_socket negb andb]. rewrite Nat.eqb_refl, Hdeny. cbv iota.
      unfold update_gate at 1. js. wsimpl. cbn [map g_modal]. rewrite Nat.eqb_refl.
      rewrite bind_run, callback_denies
        by (try (unfold alive; wsimpl; exact Halive); wsimpl; exact Hmsg).
      unfold update_gate. js. wsimpl. cbn [map g_modal disarm]. rewrite Nat.eqb_refl.
      reflexivity.
    - subst w1. wsimpl. rewrite <- !app_assoc. repeat split; reflexivity. }
  destruct Hstep as [w2 [Hstep [Htr [Hs [Ha Hg]]]]].
  exists w2. split.
  - apply (run_two e _ _ w w1 w2 (Ok tt) (Ok tt)); try discriminate; assumption.
  - rewrite Htr, Hs, Ha. subst w1. wsimpl. rewrite <- !app_assoc.
    repeat split; try reflexivity.
    cbn [handle]. js. rewrite Hg. unfold gate_of. cbn [eachM set_called disarm g_modal].
    rewrite Nat.eqb_refl. unfold on_closed. cbn [g_called negb]. reflexivity.
Qed.

Lemma denied_transaction_sample :
  exists w',
    run webview_env
        [Request 1 (tx_request (VNum 1)) false true;
         UnlockedAccount 0 true (VStr "wrong password") VUndefined]
        initial_world
    = Some w'
    /\ w_trace w'
       = [CreatePopup 0 (VArr [VStr "data"; VObj transaction]);
          GotResult 1 (CbTemplate errorUnlock) VUndefined;
          Reply 1 12 (denied (VNum 1));
          ClosePopup 0].
Proof.
  destruct (denied_transaction_is_not_written webview_env initial_world 1
              (request (VNum 1) "eth_sendTransaction" [VObj transaction]) false true
              (VObj transaction) (VStr "wrong password") VUndefined
              (conj eq_refl (conj eq_refl eq_refl))
              eq_refl eq_refl eq_refl eq_refl eq_refl)
    as [w' [H1 [H2 _]]].
  exists w'. split; [exact H1|exact H2].
Defined.

Lemma set_assoc_nonempty k v props : set_assoc k v props <> [].
Proof.
  destruct props as [|[k' v'] rest]; cbn [set_assoc]; [discriminate|].
  destruct (String.eqb k k'); discriminate.
Qed.

Lemma set_gas_object props tx rest gas w :
  field props "params" = VArr (VObj tx :: rest) ->
  set_gas (VObj props) gas w = (Ok (with_gas props tx rest gas), w).
Proof. intro H. unfold set_gas. js. rewrite H. reflexivity. Qed.

(** The callback when it is given a request to forward. *)
Lemma callback_forwards ev jsonPayload socket props w :
  props <> [] ->
  truthy (field props "id") = true ->
  String.eqb (to_string (field props "id")) "__proto__" = false ->
  w_live w = true ->
  w_generation w = socket ->
  sendRequest_callback ev jsonPayload socket CbNull (VObj props) w
  = (Ok tt,
     add_effect (SocketWrite (JSON_stringify (w_templates w) (VObj props)))
       (registered (field props "id")
          (mkEvent (ev_uid ev) (ev_sender ev) (ev_sync ev) (VObj props) (field props "id"))
          (add_effect (GotResult (ev_uid ev) CbNull (VObj props)) w))).
Proof.
  intros Hne Hid Hproto Hlive Hgen. unfold sendRequest_callback. js.
  assert (Hempty : isEmpty (VObj props) = false) by (destruct props; [contradiction|reflexivity]).
  rewrite Hempty. cbn [negb]. cbv iota. js. rewrite Hid. js. wsimpl.
  rewrite Hlive, Hgen, Nat.eqb_refl. cbn [andb]. cbv iota. js.
  unfold register. cbv zeta. rewrite Hproto. unfold registered. cbn [ev_sync].
  destruct (ev_sync ev); js; reflexivity.
Qed.

(** X11: a transaction the popup approves.  On a connection with no other
    confirmation waiting, when the popup of the request reports no error and
    the gas [gas], the request is written to the socket with the gas of its
    first parameter set to [gas] and registered as pending under its id, the
    popup is closed, the caller is not answered yet, and the [closed] event
    that follows does nothing.  The request must have a truthy id and an
    object as its first parameter. *)
Theorem approved_transaction_is_written_with_gas
    (e : env) (w : world) (uid : nat) (props tx : list (string * value))
    (rest : list value) (sync connects : bool) (err gas : value) :
  ready e w ->
  w_gates w = [] ->
  field props "method" = VStr "eth_sendTransaction" ->
  field props "params" = VArr (VObj tx :: rest) ->
  truthy (field props "id") = true ->
  String.eqb (to_string (field props "id")) "__proto__" = false ->
  truthy err = false ->
  truthy gas = true ->
  let sent := with_gas props tx rest gas in
  exists w',
    run e [Request uid (VObj props) sync connects;
           UnlockedAccount (w_next_modal w) true err gas] w
    = Some w'
    /\ w_trace w'
       = w_trace w
         ++ [CreatePopup (w_next_modal w) (VArr [VStr "data"; VObj tx]);
             GotResult uid CbNull sent;
             SocketWrite (JSON_stringify (w_templates w) sent);
             ClosePopup (w_next_modal w)]
    /\ get_index (member (w_templates w) sent "params") 0
       = Some (VObj (set_assoc "gas" gas tx))
    /\ field (set_assoc "gas" gas tx) "gas" = gas
    /\ (if sync then w_syncEvents w' else w_asyncEvents w')
       = put (to_string (field props "id"))
             (mkEvent uid (this_id e) sync sent (field props "id"))
             (if sync then w_syncEvents w else w_asyncEvents w)
    /\ (if sync then w_asyncEvents w' else w_syncEvents w')
       = (if sync then w_asyncEvents w else w_syncEvents w)
    /\ handle e (PopupClosed (w_next_modal w)) w' = (Ok tt, w').
Proof.
  intros Hready Hgates Hm Hparams Hid Hproto Herr Hgas sent.
  pose proof Hready as [Halive [Hlive Hwr]].
  assert (Hp : get_index (field props "params") 0 = Some (VObj tx))
    by (rewrite Hparams; reflexivity).
  pose proof (sendTransaction_opens_gate e w uid props sync connects (VObj tx) Hready Hm Hp)
    as Hsend.
  rewrite Hgates in Hsend. cbn [app] in Hsend.
  set (w1 := set_gates [gate_of e w uid sync props] (S (w_next_modal w))
               (add_effect (CreatePopup (w_next_modal w) (VArr [VStr "data"; VObj tx])) w))
    in *.
  assert (Hsent_id : field (set_assoc "params" (VArr (VObj (set_assoc "gas" gas tx) :: rest))
                                      props) "id" = field props "id").
  { apply field_set_assoc_other. discriminate. }
  assert (Hstep : exists w2,
             handle e (UnlockedAccount (w_next_modal w) true err gas) w1 = (Ok tt, w2)
             /\ w_trace w2
                = w_trace w1
                  ++ [GotResult uid CbNull sent;
                      SocketWrite (JSON_stringify (w_templates w) sent);
                      ClosePopup (w_next_modal w)]
             /\ (if sync then w_syncEvents w2 else w_asyncEvents w2)
                = put (to_string (field props "id"))
                      (mkEvent uid (this_id e) sync sent (field props "id"))
                      (if sync then w_syncEvents w else w_asyncEvents w)
             /\ (if sync then w_asyncEvents w2 else w_syncEvents w2)
                = (if sync then w_asyncEvents w else w_syncEvents w)
             /\ w_gates w2
                = [set_called (set_payload sent (disarm (gate_of e w uid sync props)))]).
  { destruct sync; eexists; (split;
    [ cbn [handle]; js; subst w1; wsimpl; unfold gate_of; cbn [eachM];
      unfold on_unlockedAccount;
      cbn [g_armed g_modal g_called g_event g_jsonPayload g_socket g_payload negb andb];
      rewrite Nat.eqb_refl, Herr, Hgas; cbn [negb orb]; cbv iota;
      unfold update_gate at 1; js; wsimpl; cbn [map g_modal]; rewrite Nat.eqb_refl;
      rewrite bind_run, (set_gas_object props tx rest gas) by exact Hparams;
      js; unfold update_gate at 1; js; wsimpl; cbn [map g_modal disarm];
      rewrite Nat.eqb_refl; unfold with_gas;
      rewrite bind_run, callback_forwards;
        [|apply set_assoc_nonempty
         |rewrite Hsent_id; exact Hid
         |rewrite Hsent_id; exact Hproto
         |wsimpl; exact Hlive
         |wsimpl; reflexivity];
      unfold update_gate, registered; cbn [ev_sync]; js; wsimpl;
      cbn [map g_modal set_payload]; rewrite Nat.eqb_refl;
      rewrite Hsent_id; reflexivity
    | subst sent w1; unfold with_gas; cbn [ev_sync ev_uid ev_sender]; wsimpl;
      rewrite <- !app_assoc; repeat split; reflexivity ]). }
  destruct Hstep as [w2 [Hstep [Htr [Hmap [Hother Hg]]]]].
  exists w2. split.
  - apply (run_two e _ _ w w1 w2 (Ok tt) (Ok tt)); try discriminate; assumption.
  - rewrite Htr. subst w1. wsimpl. rewrite <- !app_assoc.
    split; [reflexivity|].
    split; [subst sent; unfold with_gas, member; cbn [get_prop];
            rewrite field_set_assoc_same; reflexivity|].
    split; [apply field_set_assoc_same|].
    split; [exact Hmap|]. split; [exact Hother|].
    cbn [handle]. js. rewrite Hg. unfold gate_of.
    cbn [eachM set_called set_payload disarm g_modal].
    rewrite Nat.eqb_refl. unfold on_closed. cbn [g_called negb]. reflexivity.
Qed.

Lemma approved_transaction_sample :
  exists w',
    run webview_env
        [Request 1 (tx_request (VNum 1)) false true;
         UnlockedAccount 0 true VNull (VNum 21000)]
        initial_world
    = Some w'
    /\ w_trace w'
       = [CreatePopup 0 (VArr [VStr "data"; VObj transaction]);
          GotResult 1 CbNull (tx_request_with_gas (VNum 1) (VNum 21000));
          SocketWrite (tx_request_with_gas (VNum 1) (VNum 21000));
          ClosePopup 0].
Proof.
  destruct (approved_transaction_is_written_with_gas webview_env initial_world 1
              (request (VNum 1) "eth_sendTransaction" [VObj transaction]) transaction []
              false true VNull (VNum 21000)
              (conj eq_refl (conj eq_refl eq_refl))
              eq_refl eq_refl eq_refl eq_refl eq_refl eq_refl eq_refl)
    as [w' [H1 [H2 _]]].
  exists w'. split; [exact H1|exact H2].
Defined.

(** ** The payloads in the pending maps *)

Lemma triple_bind_fact {A B} (P : pending_state -> Prop) (m : M A) (f : A -> M B) Q
    (J : pending_state -> Prop) (F : A -> Prop) :
  inert m -> (forall s, P s -> J s) ->
  (forall w a w', m w = (Ok a, w') -> F a) ->
  (forall a, F a -> triple P (f a) Q J) ->
  triple P (bind m f) Q J.
Proof.
  intros Hm HJ HF Hf w HP. unfold bind.
  pose proof (Hm w) as Hw. pose proof (HF w) as HFw.
  destruct (m w) as [[a|msg|] w']; cbn [snd] in Hw.
  - apply (Hf a (HFw a w' eq_refl)). rewrite Hw. exact HP.
  - rewrite Hw. apply HJ. exact HP.
  - exact Logic.I.
Qed.

Lemma resolvable_file k ev s :
  payloads_resolvable s ->
  resolvable (ev_payload ev) = true ->
  payloads_resolvable (file k ev s).
Proof.
  unfold payloads_resolvable, file. intros H Hev.
  apply Forall_app in H. destruct H as [Hs Ha].
  destruct (ev_sync ev); cbn [p_sync p_async]; apply Forall_app; split;
    try assumption; apply Forall_forall; intros x Hx;
    (destruct (put_In _ _ _ _ Hx) as [->|Hr];
     [exact Hev|rewrite Forall_forall in Hs, Ha; auto]).
Qed.

Lemma resolvable_unfile b k s :
  payloads_resolvable s -> payloads_resolvable (unfile b k s).
Proof.
  unfold payloads_resolvable, unfile. intro H.
  apply Forall_app in H. destruct H as [Hs Ha].
  destruct b; cbn [p_sync p_async]; apply Forall_app; split; try assumption.
  - exact (Forall_incl _ _ _ (remove_key_incl k _) Hs).
  - exact (Forall_incl _ _ _ (remove_key_incl k _) Ha).
Qed.

Lemma resolvable_forget s : payloads_resolvable (forget_pending s).
Proof. constructor. Qed.

Section Payloads.

Variable e : env.


Lemma keeps_inert {A} (m : M A) : inert m -> keeps m.
Proof. intro H. apply triple_inert; [exact H|exact (fun s H => H)]. Qed.

Lemma keeps_bind {A B} (m : M A) (f : A -> M B) :
  keeps m -> (forall a, keeps (f a)) -> keeps (bind m f).
Proof. intros Hm Hf. apply triple_bind with (Q := fun _ => payloads_resolvable); assumption. Qed.

Lemma keeps_skip {A B} (m : M A) (f : A -> M B) :
  inert m -> (forall a, keeps (f a)) -> keeps (bind m f).
Proof. intros Hm Hf. apply keeps_bind; [apply keeps_inert; exact Hm|exact Hf]. Qed.

Lemma keeps_ret {A} (a : A) : keeps (ret a).
Proof. apply triple_ret. exact (fun s H => H). Qed.

Lemma keeps_answer x : is_delivery x = true -> keeps (emit x).
Proof. intro H. apply triple_answer; [exact H|]. exact (fun s H => H). Qed.

Lemma keeps_reply ev data : keeps (reply ev data).
Proof. apply triple_reply; exact (fun s H => H). Qed.

Lemma keeps_deliver ev data : keeps (deliver ev data).
Proof. apply triple_deliver; exact (fun s H => H). Qed.

Lemma keeps_eachM {A} (body : A -> M unit) l :
  (forall x, keeps (body x)) -> keeps (eachM body l).
Proof.
  intro H. apply (triple_eachM body (fun _ : list A => payloads_resolvable)). intros x rest. apply H.
Qed.

Lemma keeps_update_gate m f : keeps (update_gate m f).
Proof. apply triple_update_gate. exact (fun s H => H). Qed.

Lemma keeps_remove (sync : bool) k :
  keeps (modify (fun w =>
           if sync
           then set_syncEvents (remove_key k (w_syncEvents w)) w
           else set_asyncEvents (remove_key k (w_asyncEvents w)) w)).
Proof.
  apply triple_modify. intros w H.
  destruct sync;
    [exact (resolvable_unfile true k (pending_of w) H)
    |exact (resolvable_unfile false k (pending_of w) H)].
Qed.

Lemma keeps_callback ev jsonPayload socket cb result :
  (isArray result = true -> resolvable result = true) ->
  keeps (sendRequest_callback ev jsonPayload socket cb result).
Proof.
  intro Harr. unfold sendRequest_callback.
  apply keeps_skip; [apply inert_emit; reflexivity|intros ?; cbv beta].
  destruct cb.
  - destruct (negb (isEmpty result)) eqn:Hempty; [|apply keeps_ret].
    apply (triple_bind_fact payloads_resolvable _ _ _ payloads_resolvable (fun _ => non_nullish result = true));
      [apply inert_prop|exact (fun s H => H)| |intros rid Hnn].
    { intros w1 x w1'. unfold prop.
      destruct result; cbn [get_prop non_nullish]; try discriminate; reflexivity. }
    apply keeps_skip; [inert_tac|intro id].
    apply keeps_skip; [apply inert_get|intro w0].
    apply keeps_skip; [inert_tac|intros ?; cbv beta].
    apply triple_bind with (Q := fun _ => payloads_resolvable);
      [|intros ?; apply triple_write; exact (fun s H => H)].
    apply triple_register. intros s H. apply resolvable_file; [exact H|].
    cbn [ev_payload]. destruct result; try discriminate Hnn; try reflexivity.
    apply Harr. reflexivity.
  - apply keeps_ret.
  - apply keeps_skip; [apply inert_returnError|intro err].
    apply keeps_skip; [apply inert_stringify|intro data].
    apply keeps_deliver.
Qed.

Lemma find_sendTransaction_none loads w found w' :
  findM (fun payload =>
           m <- prop payload "method" ;;
           ret (strict_eq m (VStr "eth_sendTransaction")))
        loads w
  = (Ok found, w') ->
  truthy found = false ->
  forallb non_nullish loads = true.
Proof.
  revert w. induction loads as [|x rest IH]; intros w Hfind Hfalse; [reflexivity|].
  cbn [findM] in Hfind. rewrite bind_bind in Hfind. unfold bind at 1, prop in Hfind.
  destruct x; cbn [get_prop] in Hfind; try discriminate Hfind; cbn [forallb non_nullish];
    try (rewrite bind_ret in Hfind; cbv beta iota in Hfind;
         cbn [strict_eq] in Hfind; cbv iota in Hfind; exact (IH _ Hfind Hfalse)).
  - destruct (strict_eq (field props "method") (VStr "eth_sendTransaction")).
    + cbn [bind ret] in Hfind. injection Hfind as <- _. discriminate Hfalse.
    + exact (IH _ Hfind Hfalse).
  - destruct (template_object (w_templates w) r);
      try (rewrite bind_ret in Hfind; cbv beta iota in Hfind;
           cbn [strict_eq] in Hfind; cbv iota in Hfind; exact (IH _ Hfind Hfalse)).
    rewrite bind_ret in Hfind. cbv beta in Hfind.
    destruct (strict_eq (field props "method") (VStr "eth_sendTransaction")).
    + cbn [ret] in Hfind. injection Hfind as <- _. discriminate Hfalse.
    + exact (IH _ Hfind Hfalse).
Qed.

Lemma keeps_checkRequests filteredPayload ev jsonPayload socket :
  keeps (checkRequests e filteredPayload ev jsonPayload socket).
Proof.
  unfold checkRequests. cbv zeta.
  destruct filteredPayload as [| |b|n|str|loads|props|r];
    try (apply keeps_skip; [apply inert_prop|intro method];
         destruct (strict_eq method (VStr "eth_sendTransaction"));
         [apply keeps_skip; [apply inert_prop|intro params];
          apply keeps_skip; [apply inert_index|intro first];
          apply keeps_skip; [apply inert_get|intro w0];
          apply keeps_skip; [apply inert_emit; reflexivity|intros ?; cbv beta];
          apply triple_modify; intros w H; exact H
         |destruct (strict_eq method (VStr "eth_compileSolidity"));
          [apply keeps_skip; [apply inert_prop|intro params];
           apply keeps_skip; [apply inert_index|intro source];
           apply keeps_skip; [inert_tac|intro errors];
           apply keeps_skip; [inert_tac|intro response];
           apply keeps_skip; [apply inert_stringify|intro data];
           apply keeps_bind; [apply keeps_deliver|intros ?];
           apply keeps_callback; discriminate
          |apply keeps_callback; discriminate]]).
  apply (triple_bind_fact payloads_resolvable _ _ _ payloads_resolvable
           (fun found => truthy found = false -> forallb non_nullish loads = true));
    [inert_tac|exact (fun s H => H)| |intros found Hfound].
  { intros w1 x w1' H. exact (find_sendTransaction_none loads w1 x w1' H). }
  destruct (truthy found).
  - apply keeps_callback. discriminate.
  - apply keeps_callback. intros _. apply Hfound. reflexivity.
Qed.

Lemma keeps_connect uid first connects : keeps (connect uid first connects).
Proof. apply keeps_inert. apply inert_connect. Qed.

Lemma keeps_GethConnection uid connects : keeps (GethConnection uid connects).
Proof. apply GethConnection_forgets. intros s _. apply resolvable_forget. Qed.

Lemma keeps_sendRequest uid payload sync connects :
  keeps (sendRequest e uid payload sync connects).
Proof.
  unfold sendRequest.
  apply keeps_skip; [apply inert_getId|intros ?; cbv beta].
  apply keeps_skip; [apply inert_get|intro w0].
  apply keeps_bind.
  { destruct (negb (w_live w0)); [apply keeps_GethConnection|].
    destruct (negb (w_writable w0)); [apply keeps_connect|apply keeps_ret]. }
  intros ?. cbv beta.
  apply keeps_skip; [apply inert_get|intro w1].
  destruct (negb (w_writable w1)).
  - apply keeps_skip; [apply inert_returnError|intro err].
    apply keeps_skip; [apply inert_stringify|intro data].
    apply keeps_reply.
  - cbv zeta.
    apply keeps_skip; [apply inert_filterRequestResponse|intro filtered].
    destruct (isEmpty filtered).
    + apply keeps_skip; [apply inert_returnError|intro err].
      apply keeps_skip; [apply inert_stringify|intro data].
      apply keeps_deliver.
    + apply keeps_skip; [apply inert_get|intro w2].
      apply keeps_checkRequests.
Qed.

Lemma keeps_timeout_entry sync x : keeps (timeout_entry sync x).
Proof.
  unfold timeout_entry. cbv zeta.
  apply keeps_skip; [apply inert_isDestroyed|intro gone].
  apply keeps_bind.
  - destruct (negb gone); [|apply keeps_ret].
    apply keeps_skip; [apply inert_returnError|intro err].
    apply keeps_skip; [apply inert_stringify|intro data].
    destruct sync; [apply keeps_answer; reflexivity|apply keeps_reply].
  - intros ?. destruct sync.
    + apply (keeps_remove true).
    + apply (keeps_remove false).
Qed.

Lemma keeps_timeout : keeps (timeout e).
Proof.
  rewrite timeout_unfold.
  apply keeps_skip; [apply inert_isDestroyed|intro gone].
  apply keeps_skip; [pose proof inert_sender_send; inert_tac|intros ?; cbv beta].
  apply keeps_skip; [apply inert_get|intro w0].
  apply keeps_bind; [apply keeps_eachM; intro; apply keeps_timeout_entry|intros ?].
  apply keeps_skip; [apply inert_get|intro w1].
  apply keeps_eachM. intro. apply keeps_timeout_entry.
Qed.

Lemma keeps_destroy : keeps (destroy e).
Proof.
  unfold destroy. apply keeps_bind; [apply keeps_timeout|intros ?].
  apply keeps_inert. inert_tac.
Qed.

Lemma keeps_on_data d : keeps (on_data e d).
Proof.
  destruct d as [|result]; [apply keeps_timeout|]. unfold on_data.
  apply keeps_skip; [apply inert_getResponseEvent|intros [ev| |]]; cbv beta iota.
  - apply keeps_skip; [apply inert_filterRequestResponse|intro filtered].
    apply keeps_skip; [apply inert_log_notification|intros ?; cbv beta].
    destruct (ev_sync ev).
    + apply keeps_skip; [apply inert_isDestroyed|intro gone].
      apply keeps_bind.
      * destruct (negb gone); [|apply keeps_ret].
        apply keeps_skip; [apply inert_stringify|intro data].
        apply keeps_answer. reflexivity.
      * intros ?. apply (keeps_remove true).
    + apply keeps_skip; [apply inert_isDestroyed|intro gone].
      apply keeps_bind.
      * destruct (negb gone); [|apply keeps_ret].
        apply keeps_skip; [apply inert_stringify|intro data].
        apply keeps_reply.
      * intros ?. apply (keeps_remove false).
  - apply keeps_inert.
    pose proof inert_filterRequestResponse. pose proof inert_log_notification.
    inert_tac.
  - apply keeps_inert. pose proof inert_sender_send. inert_tac.
Qed.

Lemma set_gas_not_array payload gas w a w' :
  set_gas payload gas w = (Ok a, w') -> isArray a = false.
Proof.
  unfold set_gas. unfold bind at 1, prop.
  destruct payload as [| |b|n|str|loads|props|r]; cbn [get_prop];
    try discriminate;
    try (unfold bind, index; cbn [get_index]; discriminate).
  - unfold bind at 1, index. destruct (get_index (field props "params") 0) as [first|];
      [|discriminate].
    unfold bind at 1.
    destruct first; cbn [ret throw]; try discriminate;
      (destruct (field props "params") as [| | | | |[|x l]|ps|]; cbn [ret set_prop];
       intro H; injection H as <- _; reflexivity).
  - destruct (template_object (w_templates w) r) as [| | | | | |props|];
      try (unfold bind, index; cbn [get_index]; discriminate).
    unfold bind at 1, index. destruct (get_index (field props "params") 0) as [first|];
      [|discriminate].
    unfold bind at 1.
    destruct first; cbn [ret throw]; try discriminate;
      (destruct (field props "params") as [| | | | |[|x l]|ps|]; cbn [ret set_prop];
       intro H; injection H as <- _; reflexivity).
Qed.

Lemma keeps_on_closed g : keeps (on_closed g).
Proof.
  unfold on_closed. destruct (negb (g_called g)); [|apply keeps_ret].
  apply keeps_bind; [apply keeps_callback; discriminate|intros ?].
  apply keeps_update_gate.
Qed.

Lemma keeps_on_unlockedAccount g sender webContents err result :
  keeps (on_unlockedAccount g sender webContents err result).
Proof.
  unfold on_unlockedAccount. destruct (g_armed g); [|apply keeps_ret].
  apply keeps_bind; [apply keeps_update_gate|intros ?].
  destruct (webContents && Nat.eqb sender (g_modal g)); [|apply keeps_ret].
  apply keeps_bind; [|intros ?; apply keeps_bind;
                      [apply keeps_update_gate|intros ?; apply keeps_inert; inert_tac]].
  destruct (truthy err || negb (truthy result)).
  - destruct (negb (g_called g)); [apply keeps_callback; discriminate|apply keeps_ret].
  - apply (triple_bind_fact payloads_resolvable _ _ _ payloads_resolvable (fun payload => isArray payload = false));
      [apply inert_set_gas|exact (fun s H => H)| |intros payload Hp].
    { intros w1 x w1' H. exact (set_gas_not_array _ _ _ _ _ H). }
    apply keeps_bind; [apply keeps_update_gate|intros ?].
    destruct (negb (g_called g)); [|apply keeps_ret].
    apply keeps_callback. rewrite Hp. discriminate.
Qed.

Lemma keeps_when_live m : keeps m -> keeps (when_live m).
Proof.
  intro H. unfold when_live. apply keeps_skip; [apply inert_get|intro w0].
  destruct (w_live w0); [exact H|apply keeps_ret].
Qed.

Lemma keeps_handle i : keeps (handle e i).
Proof.
  destruct i; cbn [handle].
  - apply keeps_sendRequest.
  - unfold on_create.
    apply keeps_skip; [apply inert_getId|intros ?; cbv beta].
    apply keeps_skip; [apply inert_get|intro w0].
    destruct (w_live w0); [apply keeps_connect|apply keeps_GethConnection].
  - apply keeps_when_live. apply keeps_inert.
    pose proof inert_emit_to as H1. pose proof (inert_on_connect e) as H2. inert_tac.
  - apply keeps_inert. apply inert_connect_timer.
  - apply keeps_when_live. apply keeps_on_data.
  - apply keeps_when_live.
    apply keeps_skip; [apply inert_get|intro w0].
    apply keeps_skip; [apply inert_emit_to|intros ?; cbv beta].
    apply keeps_bind; [|intros ?; apply keeps_inert; apply inert_emit_to].
    unfold on_error. apply triple_try_catch with (J' := payloads_resolvable).
    + apply keeps_inert. pose proof inert_getId. pose proof inert_sender_send. inert_tac.
    + apply keeps_destroy.
  - apply keeps_when_live. unfold on_timeout. apply triple_try_catch with (J' := payloads_resolvable).
    + apply keeps_skip; [apply inert_getId|intros ?; cbv beta].
      apply keeps_skip; [apply inert_sender_send|intros ?; cbv beta].
      apply keeps_destroy.
    + apply keeps_ret.
  - apply keeps_when_live. unfold on_end. apply triple_try_catch with (J' := payloads_resolvable).
    + apply keeps_skip; [apply inert_getId|intros ?; cbv beta].
      apply keeps_skip; [apply inert_sender_send|intros ?; cbv beta].
      apply keeps_destroy.
    + apply keeps_ret.
  - apply keeps_when_live. apply keeps_destroy.
  - apply triple_modify. intros w H. exact H.
  - apply keeps_skip; [apply inert_get|intro w0].
    apply keeps_eachM. intro g.
    destruct (Nat.eqb (g_modal g) modal); [apply keeps_on_closed|apply keeps_ret].
  - apply keeps_skip; [apply inert_get|intro w0].
    apply keeps_eachM. intro g. apply keeps_on_unlockedAccount.
Qed.

Lemma run_keeps inputs :
  forall w w',
    payloads_resolvable (pending_of w) -> run e inputs w = Some w' -> payloads_resolvable (pending_of w').
Proof.
  induction inputs as [|i rest IH]; intros w w' HR Hrun.
  - cbn in Hrun. injection Hrun as <-. exact HR.
  - cbn [run] in Hrun. pose proof (keeps_handle i w HR) as Hstep.
    destruct (handle e i w) as [[a|msg|] w1]; [| |discriminate Hrun];
      exact (IH w1 w' Hstep Hrun).
Qed.

End Payloads.

Lemma payloads_pending_resolvable w :
  payloads_resolvable (pending_of w) -> pending_resolvable w = true.
Proof.
  unfold payloads_resolvable, pending_resolvable. cbn [pending_of p_sync p_async].
  intro H. rewrite Forall_forall in H. apply forallb_forall. intros x Hx.
  apply H. apply in_app_or in Hx. apply in_or_app. destruct Hx; [right|left]; assumption.
Qed.

Lemma payloads_initial : payloads_resolvable (pending_of initial_world).
Proof. constructor. Qed.

(** [timeout] on a connection whose pending payloads are resolvable. *)
Lemma timeout_returns e w :
  pending_resolvable w = true ->
  exists w',
    timeout e w = (Ok tt, w')
    /\ w_syncEvents w' = []
    /\ w_asyncEvents w' = []
    /\ w_live w' = w_live w
    /\ w_gates w' = w_gates w
    /\ w_closed_views w' = w_closed_views w
    /\ w_attempts w' = w_attempts w
    /\ exists effects, w_trace w' = w_trace w ++ effects.
Proof.
  intro Hres. unfold pending_resolvable in Hres. rewrite forallb_app in Hres.
  apply andb_prop in Hres. destruct Hres as [Hasync Hsync].
  assert (Hstart : exists w0,
             timeout e w
             = bind (eachM (timeout_entry false) (w_asyncEvents w))
                 (fun _ => w1 <- get ;; eachM (timeout_entry true) (w_syncEvents w1)) w0
             /\ w_syncEvents w0 = w_syncEvents w
             /\ w_asyncEvents w0 = w_asyncEvents w
             /\ w_live w0 = w_live w
             /\ w_gates w0 = w_gates w
             /\ w_closed_views w0 = w_closed_views w
             /\ w_attempts w0 = w_attempts w
             /\ exists effects, w_trace w0 = w_trace w ++ effects).
  { rewrite timeout_unfold. rewrite bind_isDestroyed.
    destruct (alive w (this_id e)) eqn:Halive; cbn [negb]; cbv iota.
    - js. unfold sender_send. rewrite !bind_bind, bind_isDestroyed, Halive.
      cbn [negb]. cbv iota. js. eexists. split; [reflexivity|].
      wsimpl. repeat split; try reflexivity. eexists; reflexivity.
    - js. exists w. split; [reflexivity|]. repeat split; try reflexivity.
      exists []. rewrite app_nil_r. reflexivity. }
  destruct Hstart as [w0 [-> [Hs0 [Ha0 [Hl0 [Hg0 [Hc0 [Hat0 [effects0 Ht0]]]]]]]]].
  rewrite <- Ha0 in Hasync.
  destruct (timeout_loop false (w_asyncEvents w0) w0 Hasync)
    as [ts1 [effects1 [Hloop1 _]]].
  cbv iota in Hloop1. rewrite Ha0 in Hloop1. rewrite bind_run, Hloop1. js. wsimpl.
  rewrite <- Hs0 in Hsync.
  match goal with
  | |- context [eachM (timeout_entry true) (w_syncEvents w0) ?w1] =>
      destruct (timeout_loop true (w_syncEvents w0) w1 Hsync)
        as [ts2 [effects2 [Hloop2 _]]]
  end.
  cbv iota in Hloop2. rewrite Hloop2. eexists. split; [reflexivity|]. wsimpl.
  rewrite <- Ha0. rewrite !fold_remove_self. repeat split; try assumption.
  exists (effects0 ++ effects1 ++ effects2). rewrite Ht0, <- !app_assoc. reflexivity.
Qed.



(** ** The message of a synthesized error *)

Lemma word_char_not_quote c : is_word_char c = true -> Ascii.eqb c quote = false.
Proof.
  intro H. destruct (Ascii.eqb c quote) eqn:E; [|reflexivity].
  apply Ascii.eqb_eq in E. subst c. discriminate H.
Qed.

Lemma word_char_not_dollar c : is_word_char c = true -> Ascii.eqb c "$"%char = false.
Proof.
  intro H. destruct (Ascii.eqb c "$"%char) eqn:E; [|reflexivity].
  apply Ascii.eqb_eq in E. subst c. discriminate H.
Qed.

Lemma span_word_stops x rest :
  word_only x = true ->
  span_word (x ++ String quote rest) = (x, String quote rest).
Proof.
  induction x as [|c x IH]; simpl; intro H; [reflexivity|].
  apply andb_prop in H. destruct H as [Hc Hx].
  rewrite Hc, (IH Hx). reflexivity.
Qed.

Lemma match_here_quoted x rest :
  word_only x = true ->
  match_here (String quote (x ++ String quote rest)) = Some (quoted x, rest).
Proof.
  intro H. unfold match_here. rewrite Ascii.eqb_refl, (span_word_stops _ _ H).
  rewrite Ascii.eqb_refl. reflexivity.
Qed.

Lemma find_match_here s m after :
  match_here s = Some (m, after) -> find_match s = Some (EmptyString, m, after).
Proof. intro H. destruct s; simpl in *; [discriminate|]. rewrite H. reflexivity. Qed.

Lemma find_match_skip c rest :
  Ascii.eqb c quote = false ->
  find_match (String c rest)
  = match find_match rest with
    | Some (before, m, after) => Some (String c before, m, after)
    | None => None
    end.
Proof. intro H. simpl. rewrite H. reflexivity. Qed.

Lemma expand_no_dollar m before after s :
  no_dollar s = true -> expand m before after s = s.
Proof.
  induction s as [|c s IH]; simpl; intro H; [reflexivity|].
  apply andb_prop in H. destruct H as [Hc Hs].
  apply negb_true_iff in Hc. rewrite Hc, (IH Hs). reflexivity.
Qed.

Lemma word_only_no_dollar x : word_only x = true -> no_dollar (quoted x) = true.
Proof.
  intro H. unfold quoted. simpl.
  induction x as [|c x IH]; simpl; [reflexivity|].
  simpl in H. apply andb_prop in H. destruct H as [Hc Hx].
  rewrite (word_char_not_dollar _ Hc). simpl. exact (IH Hx).
Qed.

Lemma quoted_app y rest :
  (quoted y ++ rest)%string = String quote (y ++ String quote rest).
Proof.
  unfold quoted. cbn [append]. f_equal.
  induction y as [|c y IH]; simpl; [reflexivity|]. rewrite IH. reflexivity.
Qed.

Lemma find_match_names r x :
  r = errorMethod \/ r = errorTimeout ->
  word_only x = true ->
  exists before after,
    find_match (names r x) = Some (before, quoted x, after)
    /\ forall y, (before ++ quoted y ++ after)%string = names r y.
Proof.
  intros [-> | ->] H; unfold names; cbn [append].
  - exists "Method "%string, " not allowed."%string. split; [|intro y; rewrite quoted_app; reflexivity].
    rewrite !find_match_skip by reflexivity.
    rewrite (find_match_here _ _ _ (match_here_quoted x _ H)). reflexivity.
  - exists "Request timed out for method  "%string, "."%string. split; [|intro y; rewrite quoted_app; reflexivity].
    rewrite !find_match_skip by reflexivity.
    rewrite (find_match_here _ _ _ (match_here_quoted x _ H)). reflexivity.
Qed.

Lemma written_names r x props t :
  r = errorMethod \/ r = errorTimeout ->
  word_only x = true ->
  word_only (method_of props) = true ->
  t_message t = names r x ->
  t_message (written t r props) = names r (method_of props).
Proof.
  intros Hr Hx Hp Ht. unfold written. cbn [t_message].
  replace (has_error r) with true by (destruct Hr as [-> | ->]; reflexivity).
  destruct (find_match_names r x Hr Hx) as (before & after & Hf & Hn).
  unfold js_replace. rewrite Ht, Hf.
  fold (method_of props).
  rewrite (expand_no_dollar _ _ _ _ (word_only_no_dollar _ Hp)). apply Hn.
Qed.

Lemma batch_templates_names r loads :
  r = errorMethod \/ r = errorTimeout ->
  forall x ts lastp,
    word_only x = true ->
    t_message (get_template ts r) = names r x ->
    Forall (fun p => word_only (method_of p) = true) (loads ++ [lastp]) ->
    t_message (get_template (batch_templates (loads ++ [lastp]) r ts) r)
    = names r (method_of lastp).
Proof.
  intro Hr. induction loads as [|p rest IH]; intros x ts lastp Hx Ht Hall.
  - simpl. rewrite get_update_same. inversion Hall; subst.
    apply (written_names r x); assumption.
  - simpl in Hall. inversion Hall as [|? ? Hp Hrest]; subst.
    change (batch_templates ((p :: rest) ++ [lastp]) r ts)
      with (batch_templates (rest ++ [lastp]) r
              (update_template ts r (written (get_template ts r) r p))).
    apply (IH (method_of p)); [exact Hp| |exact Hrest].
    rewrite get_update_same. apply (written_names r x); assumption.
Qed.

(** X13: the message of a synthesized error names the method of the request
    it answers as long as every method name the template has been given
    is made of letters and underscores.  When the message of the method or
    the timeout template names such a method, [makeError] on a request with
    such a method leaves the message naming the method of that request, and
    [returnError] on a batch of such requests leaves it naming the method
    of the last one. *)
Theorem error_message_names_the_latest_method :
  forall r x front lastp w,
    r = errorMethod \/ r = errorTimeout ->
    word_only x = true ->
    t_message (get_template (w_templates w) r) = names r x ->
    Forall (fun p => word_only (method_of p) = true) (front ++ [lastp]) ->
    (exists w',
        makeError (VObj lastp) r w = (Ok (VRef r), w')
        /\ t_message (get_template (w_templates w') r) = names r (method_of lastp))
    /\ (exists w',
          returnError (VArr (map VObj (front ++ [lastp]))) r w
          = (Ok (VArr (repeat (VRef r) (List.length (front ++ [lastp])))), w')
          /\ t_message (get_template (w_templates w') r)
             = names r (method_of lastp)).
Proof.
  intros r x front lastp w Hr Hx Ht Hall. split.
  - eexists. split; [apply makeError_obj|].
    destruct w; cbn [w_templates set_templates] in *.
    rewrite get_update_same. apply (written_names r x); try assumption.
    rewrite Forall_forall in Hall. apply Hall, in_or_app. right. left. reflexivity.
  - eexists. split; [apply returnError_objs|].
    destruct w; cbn [w_templates set_templates] in *.
    apply (batch_templates_names r front Hr x); assumption.
Qed.

Lemma error_message_sample :
  (exists w',
      makeError (VObj [("id", VNum 2); ("method", VStr "admin_nodeInfo")])
                errorMethod initial_world = (Ok (VRef errorMethod), w')
      /\ t_message (get_template (w_templates w') errorMethod)
         = "Method 'admin_nodeInfo' not allowed."%string)
  /\ (exists w',
        returnError
          (VArr [VObj [("id", VNum 1); ("method", VStr "admin_peers")];
                 VObj [("id", VNum 2); ("method", VStr "admin_nodeInfo")]])
          errorMethod initial_world
        = (Ok (VArr [VRef errorMethod; VRef errorMethod]), w')
        /\ t_message (get_template (w_templates w') errorMethod)
           = "Method 'admin_nodeInfo' not allowed."%string).
Proof.
  apply (error_message_names_the_latest_method errorMethod "__method__"
           [[("id", VNum 1); ("method", VStr "admin_peers")]]
           [("id", VNum 2); ("method", VStr "admin_nodeInfo")]
           initial_world).
  - left; reflexivity.
  - reflexivity.
  - reflexivity.
  - repeat constructor.
Defined.

(** ** The listeners of [error] and [end] *)

Lemma add_effects_trace effects w :
  w_trace (add_effects effects w) = w_trace w ++ effects.
Proof.
  revert w. induction effects as [|x rest IH]; intro w.
  - cbn. rewrite app_nil_r. reflexivity.
  - change (add_effects (x :: rest) w) with (add_effects rest (add_effect x w)).
    rewrite IH. wsimpl. rewrite <- app_assoc. reflexivity.
Qed.

Lemma add_effects_rest effects w :
  w_syncEvents (add_effects effects w) = w_syncEvents w
  /\ w_asyncEvents (add_effects effects w) = w_asyncEvents w
  /\ w_live (add_effects effects w) = w_live w
  /\ w_closed_views (add_effects effects w) = w_closed_views w.
Proof.
  revert w. induction effects as [|x rest IH]; intro w.
  - repeat split; reflexivity.
  - change (add_effects (x :: rest) w) with (add_effects rest (add_effect x w)).
    destruct (IH (add_effect x w)) as [H1 [H2 [H3 H4]]].
    rewrite H1, H2, H3, H4. repeat split; reflexivity.
Qed.

(** An emit to the listeners of [connect] touches neither the maps nor the
    answers given so far. *)
Lemma emit_to_returns writable marks w :
  exists w',
    emit_to writable marks w = (Ok tt, w')
    /\ w_syncEvents w' = w_syncEvents w
    /\ w_asyncEvents w' = w_asyncEvents w
    /\ w_live w' = w_live w
    /\ w_closed_views w' = w_closed_views w
    /\ deliveries (w_trace w') = deliveries (w_trace w)
    /\ exists effects, w_trace w' = w_trace w ++ effects.
Proof.
  unfold emit_to, modify.
  pose proof (call_listeners_quiet writable marks (w_attempts w)) as Hq.
  destruct (call_listeners writable marks (w_attempts w)) as [l effects].
  cbn [snd] in Hq. eexists. split; [reflexivity|].
  destruct (add_effects_rest effects (set_attempts l w)) as [H1 [H2 [H3 H4]]].
  rewrite H1, H2, H3, H4, add_effects_trace. wsimpl.
  repeat split; try reflexivity.
  - unfold deliveries. rewrite filter_app.
    replace (filter is_delivery effects) with (@nil effect);
      [rewrite app_nil_r; reflexivity|].
    clear -Hq. induction effects as [|x rest IH]; [reflexivity|].
    cbn [forallb] in Hq. apply andb_prop in Hq. destruct Hq as [Hx Hrest].
    apply negb_true_iff in Hx. cbn [filter]. rewrite Hx. exact (IH Hrest).
  - exists effects. reflexivity.
Qed.

(** [destroy] on a connection whose pending payloads are resolvable. *)
Lemma destroy_returns e w :
  pending_resolvable w = true ->
  exists w',
    destroy e w = (Ok tt, w')
    /\ w_syncEvents w' = []
    /\ w_asyncEvents w' = []
    /\ w_live w' = false
    /\ w_writable w' = false
    /\ exists effects, w_trace w' = w_trace w ++ effects ++ [SocketDestroy].
Proof.
  intro Hres.
  destruct (timeout_returns e w Hres)
    as [w1 [Ht [Hs [Ha [_ [_ [_ [_ [effects Htr]]]]]]]]].
  unfold destroy. rewrite bind_run, Ht. js. eexists. split; [reflexivity|].
  wsimpl. rewrite Hs, Ha, Htr. repeat split.
  exists effects. rewrite <- app_assoc. reflexivity.
Qed.

Lemma on_error_alive e data w :
  alive w (this_id e) = true ->
  on_error e data w = (Ok tt, add_effect (Send (this_id e) "ipcProvider-error" data) w).
Proof.
  intro H. unfold on_error, try_catch.
  rewrite bind_getId_alive by exact H.
  unfold sender_send. rewrite bind_isDestroyed, H. reflexivity.
Qed.

Lemma on_error_destroyed e data w :
  alive w (this_id e) = false -> on_error e data w = destroy e w.
Proof.
  intro H. unfold on_error, try_catch.
  unfold getId. rewrite !bind_bind, bind_isDestroyed, H. reflexivity.
Qed.



(** X15: when the node ends the connection, the listener of [end] tells the
    view and calls [destroy]: both pending maps are emptied and the socket
    is given up.  When the view of the connection is destroyed the listener
    does nothing at all, and the connection stays in place with the calls
    it holds. *)
Theorem socket_end_gives_up_the_connection (e : env) (w : world) (data : value) :
  w_live w = true ->
  (alive w (this_id e) = true ->
   pending_resolvable w = true ->
   exists w',
     handle e (SocketEnd data) w = (Ok tt, w')
     /\ w_syncEvents w' = []
     /\ w_asyncEvents w' = []
     /\ w_live w' = false
     /\ exists effects,
          w_trace w'
          = w_trace w ++ Send (this_id e) "ipcProvider-end" data :: effects
            ++ [SocketDestroy])
  /\ (alive w (this_id e) = false -> handle e (SocketEnd data) w = (Ok tt, w)).
Proof.
  intro Hlive.
  assert (Hstart : handle e (SocketEnd data) w = on_end e data w).
  { unfold handle, when_live. js. rewrite Hlive. reflexivity. }
  rewrite Hstart. clear Hstart. unfold on_end, try_catch. split.
  - intros Halive Hres.
    rewrite bind_getId_alive by exact Halive.
    unfold sender_send. rewrite !bind_bind, bind_isDestroyed, Halive.
    cbn [negb]. cbv iota. js.
    set (w1 := add_effect (Send (this_id e) "ipcProvider-end" data) w).
    assert (Hres1 : pending_resolvable w1 = true) by exact Hres.
    destruct (destroy_returns e w1 Hres1)
      as [w2 [Hd [Hs2 [Ha2 [Hl2 [_ [effects Ht2]]]]]]].
    rewrite Hd. exists w2. repeat split; try assumption.
    exists effects. rewrite Ht2. subst w1. wsimpl.
    rewrite <- !app_assoc. reflexivity.
  - intro Halive. unfold getId. rewrite !bind_bind, bind_isDestroyed, Halive.
    reflexivity.
Qed.

Lemma socket_end_sample :
  (exists w',
      handle webview_env (SocketEnd VNull) constructor_pending = (Ok tt, w')
      /\ w_asyncEvents w' = []
      /\ w_live w' = false)
  /\ handle webview_env (SocketEnd VNull) abandoned_call = (Ok tt, abandoned_call).
Proof.
  split.
  - destruct (proj1 (socket_end_gives_up_the_connection webview_env
                       constructor_pending VNull eq_refl) eq_refl eq_refl)
      as [w' [Hrun [_ [Ha [Hl _]]]]].
    exists w'. split; [exact Hrun|split; [exact Ha|exact Hl]].
  - exact (proj2 (socket_end_gives_up_the_connection webview_env
                    abandoned_call VNull eq_refl) eq_refl).
Defined.

(** ** Programs that call no [connect] *)

Lemma calm_ret {A} (a : A) : calm (ret a).
Proof. intro w. reflexivity. Qed.

Lemma calm_get : calm get.
Proof. intro w. reflexivity. Qed.

Lemma calm_throw {A} msg : calm (@throw A msg).
Proof. intro w. reflexivity. Qed.

Lemma calm_unmodelled {A} : calm (@unmodelled A).
Proof. intro w. reflexivity. Qed.

Lemma calm_bind {A B} (m : M A) (f : A -> M B) :
  calm m -> (forall a, calm (f a)) -> calm (bind m f).
Proof.
  intros Hm Hf w. unfold bind. specialize (Hm w).
  destruct (m w) as [[a|msg|] w']; cbn [snd] in *; [rewrite Hf|..]; exact Hm.
Qed.

Lemma calm_try_catch body handler :
  calm body -> calm handler -> calm (try_catch body handler).
Proof.
  intros Hb Hh w. unfold try_catch. specialize (Hb w).
  destruct (body w) as [[a|msg|] w']; cbn [snd] in *; [|rewrite Hh|]; exact Hb.
Qed.

Lemma calm_prop v k : calm (prop v k).
Proof. intro w. unfold prop. destruct (get_prop (w_templates w) v k); reflexivity. Qed.

Lemma calm_index v i : calm (index v i).
Proof. intro w. unfold index. destruct (get_index v i); reflexivity. Qed.

Lemma calm_stringify v : calm (stringify v).
Proof. intro w. reflexivity. Qed.

Lemma calm_modify (h : world -> world) :
  (forall w, connect_state (h w) = connect_state w) -> calm (modify h).
Proof. intros H w. apply H. Qed.

Lemma connect_results_app tr tr' :
  connect_results (tr ++ tr') = connect_results tr ++ connect_results tr'.
Proof. apply flat_map_app. Qed.

Lemma calm_emit x :
  connect_results [x] = [] -> calm (emit x).
Proof.
  intros H w. unfold emit, modify, connect_state. cbn [snd add_effect w_trace w_attempts].
  rewrite connect_results_app, H, app_nil_r. reflexivity.
Qed.

Lemma calm_mapM {A B} (f : A -> M B) l : (forall x, calm (f x)) -> calm (mapM f l).
Proof.
  intro Hf. induction l as [|x rest IH]; cbn [mapM]; [apply calm_ret|].
  apply calm_bind; [apply Hf|intro y].
  apply calm_bind; [exact IH|intro ys]. apply calm_ret.
Qed.

Lemma calm_eachM {A} (f : A -> M unit) l : (forall x, calm (f x)) -> calm (eachM f l).
Proof.
  intro Hf. induction l as [|x rest IH]; cbn [eachM]; [apply calm_ret|].
  apply calm_bind; [apply Hf|intro]. exact IH.
Qed.

Lemma calm_findM pred l : (forall x, calm (pred x)) -> calm (findM pred l).
Proof.
  intro Hp. induction l as [|x rest IH]; cbn [findM]; [apply calm_ret|].
  apply calm_bind; [apply Hp|intros [|]]; [apply calm_ret|exact IH].
Qed.

Ltac calm_step :=
  first
    [ match goal with H : _ |- _ => simple apply H end
    | simple apply @calm_ret | simple apply calm_get | simple apply @calm_throw
    | simple apply @calm_unmodelled
    | simple apply calm_prop | simple apply calm_index | simple apply calm_stringify
    | simple apply calm_emit; reflexivity
    | simple apply calm_modify; intro; reflexivity
    | simple apply @calm_mapM; intro
    | simple apply @calm_eachM; intro
    | simple apply calm_findM; intro
    | simple apply calm_try_catch
    | simple apply @calm_bind; [|intro]
    | match goal with
      | |- calm (if ?c then _ else _) => destruct c
      | |- calm (match ?x with _ => _ end) => destruct x
      end ].

Ltac calm_tac := cbv beta zeta; repeat (calm_step; cbv beta zeta).

Lemma calm_makeError payload r : calm (makeError payload r).
Proof. unfold makeError. calm_tac. Qed.

Lemma calm_returnError payload r : calm (returnError payload r).
Proof. pose proof calm_makeError as Hm. unfold returnError. calm_tac. Qed.

Lemma calm_reject payload error : calm (reject payload error).
Proof. pose proof calm_returnError as Hr. unfold reject. calm_tac. Qed.

Lemma calm_testPayload e payload error method :
  calm (testPayload e payload error method).
Proof. pose proof calm_reject as Hr. unfold testPayload. calm_tac. Qed.

Lemma calm_filterRequestResponse e payload event_payload :
  calm (filterRequestResponse e payload event_payload).
Proof.
  pose proof (calm_testPayload e) as Ht.
  unfold filterRequestResponse. calm_tac.
Qed.

Lemma calm_getResponseEvent response : calm (getResponseEvent response).
Proof. unfold getResponseEvent. calm_tac. Qed.

Lemma calm_isDestroyed s : calm (isDestroyed s).
Proof. unfold isDestroyed. calm_tac. Qed.

Lemma calm_getId s : calm (getId s).
Proof. pose proof calm_isDestroyed as Hd. unfold getId. calm_tac. Qed.

Lemma calm_sender_send s channel data : calm (sender_send s channel data).
Proof. pose proof calm_isDestroyed as Hd. unfold sender_send. calm_tac. Qed.

Lemma calm_reply ev data : calm (reply ev data).
Proof. pose proof calm_isDestroyed as Hd. unfold reply. calm_tac. Qed.

Lemma calm_set_returnValue ev data : calm (set_returnValue ev data).
Proof. unfold set_returnValue. calm_tac. Qed.

Lemma calm_deliver ev data : calm (deliver ev data).
Proof.
  pose proof calm_reply as Hr. pose proof calm_set_returnValue as Hs.
  unfold deliver. calm_tac.
Qed.

Lemma calm_register id ev : calm (register id ev).
Proof. unfold register. calm_tac. Qed.

Lemma calm_sendRequest_callback ev jsonPayload socket err result :
  calm (sendRequest_callback ev jsonPayload socket err result).
Proof.
  pose proof calm_register as Hr. pose proof calm_returnError as He.
  pose proof calm_deliver as Hd.
  unfold sendRequest_callback. calm_tac.
Qed.

Lemma calm_update_gate modal f : calm (update_gate modal f).
Proof. unfold update_gate. calm_tac. Qed.

Lemma calm_set_gas payload gas : calm (set_gas payload gas).
Proof. unfold set_gas. calm_tac. Qed.

Lemma calm_checkRequests e filteredPayload ev jsonPayload socket :
  calm (checkRequests e filteredPayload ev jsonPayload socket).
Proof.
  pose proof calm_sendRequest_callback as Hc. pose proof calm_deliver as Hd.
  unfold checkRequests. calm_tac.
Qed.

Lemma calm_on_closed g : calm (on_closed g).
Proof.
  pose proof calm_sendRequest_callback as Hc. pose proof calm_update_gate as Hu.
  unfold on_closed. calm_tac.
Qed.

Lemma calm_on_unlockedAccount g sender webContents err result :
  calm (on_unlockedAccount g sender webContents err result).
Proof.
  pose proof calm_sendRequest_callback as Hc. pose proof calm_update_gate as Hu.
  pose proof calm_set_gas as Hg.
  unfold on_unlockedAccount. calm_tac.
Qed.

Lemma calm_on_connect e data : calm (on_connect e data).
Proof. pose proof calm_sender_send as Hs. unfold on_connect. calm_tac. Qed.

Lemma calm_timeout e : calm (timeout e).
Proof.
  pose proof calm_sender_send as Hs. pose proof calm_isDestroyed as Hd.
  pose proof calm_returnError as He. pose proof calm_reply as Hr.
  pose proof calm_set_returnValue as Hv.
  unfold timeout. calm_tac.
Qed.

Lemma calm_destroy e : calm (destroy e).
Proof.
  pose proof (calm_timeout e) as Ht. unfold destroy.
  apply calm_bind; [exact Ht|intro].
  apply calm_bind; [|intro].
  - apply calm_modify. intro w. unfold connect_state, timers, removeAllListeners.
    cbn [set_attempts w_attempts w_trace]. rewrite map_map. reflexivity.
  - calm_tac.
Qed.

Lemma calm_log_notification e result : calm (log_notification e result).
Proof. pose proof calm_getId as Hg. unfold log_notification. calm_tac. Qed.

Lemma calm_on_data e d : calm (on_data e d).
Proof.
  pose proof (calm_timeout e) as Ht. pose proof calm_getResponseEvent as Hg.
  pose proof calm_sender_send as Hs. pose proof (calm_filterRequestResponse e) as Hf.
  pose proof (calm_log_notification e) as Hl. pose proof calm_isDestroyed as Hd.
  pose proof calm_set_returnValue as Hv. pose proof calm_reply as Hr.
  unfold on_data. calm_tac.
Qed.

Lemma calm_on_error e data : calm (on_error e data).
Proof.
  pose proof calm_getId as Hg. pose proof calm_sender_send as Hs.
  pose proof (calm_destroy e) as Hd. unfold on_error. calm_tac.
Qed.

Lemma calm_on_timeout e data : calm (on_timeout e data).
Proof.
  pose proof calm_getId as Hg. pose proof calm_sender_send as Hs.
  pose proof (calm_destroy e) as Hd. unfold on_timeout. calm_tac.
Qed.

Lemma calm_on_end e data : calm (on_end e data).
Proof.
  pose proof calm_getId as Hg. pose proof calm_sender_send as Hs.
  pose proof (calm_destroy e) as Hd. unfold on_end. calm_tac.
Qed.

(** ** The invariant of [connect] *)

Lemma connect_invariant_weaken known known' s :
  connect_invariant known s -> incl known known' -> connect_invariant known' s.
Proof.
  intros [H1 H2 H3 H4] Hincl. constructor; try assumption.
  intros uid H. apply Hincl, H4, H.
Qed.

Lemma connect_state_bind {A B} (m : M A) (f : A -> M B) w :
  connect_state (snd (bind m f w))
  = match m w with
    | (Ok a, w') => connect_state (snd (f a w'))
    | (_, w') => connect_state w'
    end.
Proof. unfold bind. destruct (m w) as [[a|msg|] w']; reflexivity. Qed.

(** What follows a program calmly does not show in the connect state. *)
Lemma connect_state_then {A B} (m : M A) (f : A -> M B) w :
  (forall a, calm (f a)) ->
  connect_state (snd (bind m f w)) = connect_state (snd (m w)).
Proof.
  intro Hf. rewrite connect_state_bind.
  destruct (m w) as [[a|msg|] w']; cbn [snd]; [apply Hf|reflexivity|reflexivity].
Qed.

Lemma connect_state_after {A B} (m : M A) (f : A -> M B) w :
  calm m ->
  connect_state (snd (bind m f w)) = connect_state w
  \/ exists a w', m w = (Ok a, w') /\ connect_state w' = connect_state w
                  /\ connect_state (snd (bind m f w)) = connect_state (snd (f a w')).
Proof.
  intro Hm. rewrite connect_state_bind. specialize (Hm w).
  destruct (m w) as [[a|msg|] w']; cbn [snd] in Hm.
  - right. exists a, w'. repeat split; [exact Hm].
  - left. exact Hm.
  - left. exact Hm.
Qed.

Lemma timers_app l l' : timers (l ++ l') = timers l ++ timers l'.
Proof. apply map_app. Qed.

Lemma timers_events l : map fst (timers l) = map a_event l.
Proof. unfold timers. rewrite map_map. reflexivity. Qed.

Lemma connect_keeps_invariant uid first connects known w :
  connect_invariant known (connect_state w) ->
  ~ In uid known ->
  connect_invariant (uid :: known) (connect_state (snd (connect uid first connects w))).
Proof.
  intros [H1 H2 H3 H4] Hfresh. unfold connect. rewrite connect_state_bind.
  cbn [get]. unfold connect_state in *. cbn [fst snd] in *.
  destruct (negb (w_writable w)).
  - cbn [modify snd set_attempts set_socket w_attempts w_trace].
    rewrite timers_app. cbn [timers map a_event a_timer].
    constructor; cbn [fst snd].
    + rewrite map_app. cbn [map fst]. apply NoDup_snoc; [exact H1|].
      intro Hx. apply Hfresh, H4. left. exact Hx.
    + exact H2.
    + intros x Hx. apply in_app_or in Hx. destruct Hx as [Hx|[Hx|[]]].
      * apply H3, Hx.
      * injection Hx as <-. intro Hin. apply Hfresh, H4. right. exact Hin.
    + intros x [Hx|Hx].
      * rewrite map_app in Hx. apply in_app_or in Hx. destruct Hx as [Hx|[<-|[]]].
        -- right. apply H4. left. exact Hx.
        -- left. reflexivity.
      * right. apply H4. right. exact Hx.
  - cbn [emit modify snd add_effect w_attempts w_trace].
    rewrite connect_results_app. cbn [connect_results flat_map app].
    constructor; cbn [fst snd].
    + exact H1.
    + apply NoDup_snoc; [exact H2|].
      intro Hx. apply Hfresh, H4. right. exact Hx.
    + intros x Hx Hin. apply in_app_or in Hin. destruct Hin as [Hin|[<-|[]]].
      * exact (H3 x Hx Hin).
      * apply Hfresh, H4. left. apply (in_map fst) in Hx. exact Hx.
    + intros x [Hx|Hx].
      * right. apply H4. left. exact Hx.
      * apply in_app_or in Hx. destruct Hx as [Hx|[<-|[]]].
        -- right. apply H4. right. exact Hx.
        -- left. reflexivity.
Qed.

Lemma GethConnection_keeps_invariant uid connects known w :
  connect_invariant known (connect_state w) ->
  ~ In uid known ->
  connect_invariant (uid :: known)
    (connect_state (snd (GethConnection uid connects w))).
Proof.
  intros H Hfresh. unfold GethConnection. rewrite connect_state_bind.
  cbn [modify]. apply connect_keeps_invariant; [exact H|exact Hfresh].
Qed.

Lemma in_timers uid b l :
  In (uid, b) (timers l) <-> exists a, In a l /\ a_event a = uid /\ a_timer a = b.
Proof.
  unfold timers. rewrite in_map_iff. split.
  - intros [a [Heq Hin]]. injection Heq as <- <-. exists a. repeat split. exact Hin.
  - intros [a [Hin [<- <-]]]. exists a. split; [reflexivity|exact Hin].
Qed.

Lemma in_timers_event uid b l : In (uid, b) (timers l) -> In uid (map a_event l).
Proof.
  intro H. apply in_timers in H. destruct H as [a [Hin [<- _]]].
  apply in_map. exact Hin.
Qed.

(** What an emit to the listeners of [connect] does: it answers the events
    of calls whose timer is pending, each once, and clears those timers. *)
Lemma call_listeners_facts writable l :
  forall marks,
    NoDup (map a_event l) ->
    map a_event (fst (call_listeners writable marks l)) = map a_event l
    /\ NoDup (connect_results (snd (call_listeners writable marks l)))
    /\ (forall uid,
          In uid (connect_results (snd (call_listeners writable marks l))) ->
          In (uid, true) (timers l))
    /\ (forall uid,
          In (uid, true) (timers (fst (call_listeners writable marks l))) ->
          In (uid, true) (timers l)
          /\ ~ In uid (connect_results (snd (call_listeners writable marks l)))).
Proof.
  assert (Hbase : forall l0 : list attempt,
             map a_event (fst (l0, @nil effect)) = map a_event l0
             /\ NoDup (connect_results (snd (l0, @nil effect)))
             /\ (forall uid,
                   In uid (connect_results (snd (l0, @nil effect))) ->
                   In (uid, true) (timers l0))
             /\ (forall uid,
                   In (uid, true) (timers (fst (l0, @nil effect))) ->
                   In (uid, true) (timers l0)
                   /\ ~ In uid (connect_results (snd (l0, @nil effect))))).
  { intro l0. cbn [fst snd connect_results flat_map].
    split; [reflexivity|]. split; [constructor|]. split; [intros uid []|].
    intros uid H. split; [exact H|intros []]. }
  induction l as [|a rest IH]; intros marks Hnd.
  - destruct marks as [|[|] marks]; exact (Hbase []).
  - destruct marks as [|m marks]; [exact (Hbase (a :: rest))|].
    cbn [map] in Hnd. inversion Hnd as [|? ? Hhead Hrest]; subst.
    destruct (IH marks Hrest) as [Hev [Hout [Hfired Hleft]]].
    cbn [call_listeners].
    destruct (call_listeners writable marks rest) as [rest' outs].
    cbn [fst snd] in *.
    assert (Houts : forall uid, In uid (connect_results outs) -> In uid (map a_event rest)).
    { intros uid H. exact (in_timers_event _ _ _ (Hfired uid H)). }
    change (map a_event (a :: rest)) with (a_event a :: map a_event rest).
    change (timers (a :: rest)) with ((a_event a, a_timer a) :: timers rest).
    destruct m.
    + unfold connect_listener. cbn [fst snd].
      change (map a_event (settled a :: rest')) with (a_event a :: map a_event rest').
      change (timers (settled a :: rest')) with ((a_event a, false) :: timers rest').
      destruct (a_timer a) eqn:Ht.
      * change (connect_results ([ConnectResult (a_event a) writable] ++ outs))
          with (a_event a :: connect_results outs).
        split; [f_equal; exact Hev|].
        split; [constructor; [intro H; apply Hhead, Houts, H|exact Hout]|].
        split.
        -- intros uid [<-|H]; [left; reflexivity|right; apply Hfired, H].
        -- intros uid [H|H]; [discriminate H|].
           split; [right; exact (proj1 (Hleft uid H))|].
           intros [<-|Hin].
           ++ apply Hhead. rewrite <- Hev. exact (in_timers_event _ _ _ H).
           ++ exact (proj2 (Hleft uid H) Hin).
      * change ([] ++ outs) with outs.
        split; [f_equal; exact Hev|]. split; [exact Hout|]. split.
        -- intros uid H. right. apply Hfired, H.
        -- intros uid [H|H]; [discriminate H|].
           split; [right; exact (proj1 (Hleft uid H))|exact (proj2 (Hleft uid H))].
    + cbn [fst snd].
      change (map a_event (a :: rest')) with (a_event a :: map a_event rest').
      change (timers (a :: rest')) with ((a_event a, a_timer a) :: timers rest').
      split; [f_equal; exact Hev|]. split; [exact Hout|]. split.
      * intros uid H. right. apply Hfired, H.
      * intros uid [H|H].
        -- split; [left; exact H|].
           injection H as <- Ht. intro Hin. apply Hhead, Houts, Hin.
        -- split; [right; exact (proj1 (Hleft uid H))|exact (proj2 (Hleft uid H))].
Qed.

Lemma connect_state_effects effects l w :
  connect_state (add_effects effects (set_attempts l w))
  = (timers l, connect_results (w_trace w) ++ connect_results effects).
Proof.
  unfold connect_state. rewrite add_effects_trace, connect_results_app.
  f_equal. f_equal.
  revert w. induction effects as [|x rest IH]; intro w; [reflexivity|].
  change (add_effects (x :: rest) (set_attempts l w))
    with (add_effects rest (set_attempts l (add_effect x w))).
  apply IH.
Qed.

Lemma emit_to_keeps_invariant writable marks known w :
  connect_invariant known (connect_state w) ->
  connect_invariant known (connect_state (snd (emit_to writable marks w))).
Proof.
  intros [H1 H2 H3 H4]. unfold connect_state in H1, H2, H3, H4.
  cbn [fst snd] in H1, H2, H3, H4. rewrite timers_events in H1, H4.
  unfold emit_to, modify. cbn [snd].
  destruct (call_listeners_facts writable (w_attempts w) marks H1)
    as [Hev [Hout [Hfired Hleft]]].
  destruct (call_listeners writable marks (w_attempts w)) as [l effects].
  cbn [fst snd] in *. rewrite connect_state_effects.
  constructor; cbn [fst snd].
  - rewrite timers_events, Hev. exact H1.
  - apply NoDup_app; [exact H2|exact Hout|].
    intros x Hx Hnew. exact (H3 x (Hfired x Hnew) Hx).
  - intros uid Hin Hres. destruct (Hleft uid Hin) as [Hold Hnew].
    apply in_app_or in Hres. destruct Hres as [Hres|Hres].
    + exact (H3 uid Hold Hres).
    + exact (Hnew Hres).
  - intros uid [Hin|Hin].
    + apply H4. left. rewrite timers_events, Hev in Hin. exact Hin.
    + apply in_app_or in Hin. destruct Hin as [Hin|Hin].
      * apply H4. right. exact Hin.
      * apply H4. left. exact (in_timers_event _ _ _ (Hfired uid Hin)).
Qed.

Lemma clear_timer_facts l :
  forall n a,
    nth_error l n = Some a ->
    NoDup (map a_event l) ->
    map a_event (clear_timer n l) = map a_event l
    /\ forall uid,
         In (uid, true) (timers (clear_timer n l)) ->
         In (uid, true) (timers l) /\ uid <> a_event a.
Proof.
  induction l as [|b rest IH]; intros n a Hn Hnd.
  - destruct n; discriminate Hn.
  - cbn [map] in Hnd. inversion Hnd as [|? ? Hhead Hrest]; subst.
    destruct n as [|n].
    + injection Hn as <-. cbn [clear_timer map a_event timers a_timer].
      fold (timers rest). split; [reflexivity|].
      intros uid [H|H]; [discriminate H|].
      split; [right; exact H|].
      intros ->. apply Hhead. exact (in_timers_event _ _ _ H).
    + cbn [nth_error] in Hn. destruct (IH n a Hn Hrest) as [Hev Hleft].
      cbn [clear_timer map a_event timers]. fold (timers (clear_timer n rest)).
      fold (timers rest). split; [f_equal; exact Hev|].
      intros uid [H|H].
      * injection H as <- Ht. split; [left; rewrite Ht; reflexivity|].
        intro Heq. apply Hhead. rewrite Heq.
        apply in_map. exact (nth_error_In _ _ Hn).
      * destruct (Hleft uid H) as [Hold Hne]. split; [right; exact Hold|exact Hne].
Qed.

Lemma connect_timer_keeps_invariant n known w :
  connect_invariant known (connect_state w) ->
  connect_invariant known (connect_state (snd (connect_timer n w))).
Proof.
  intro Hinv. unfold connect_timer. rewrite connect_state_bind. cbn [get].
  destruct (nth_error (w_attempts w) n) as [a|] eqn:Hn; [|exact Hinv].
  destruct (a_timer a) eqn:Ht; [|exact Hinv].
  rewrite connect_state_bind. cbn [emit modify snd].
  destruct Hinv as [H1 H2 H3 H4]. unfold connect_state in *.
  cbn [fst snd set_attempts add_effect w_attempts w_trace] in *.
  rewrite timers_events in H1, H4.
  destruct (clear_timer_facts (w_attempts w) n a Hn H1) as [Hev Hleft].
  assert (Hwait : In (a_event a, true) (timers (w_attempts w))).
  { apply in_timers. exists a. repeat split; [exact (nth_error_In _ _ Hn)|exact Ht]. }
  rewrite connect_results_app. cbn [connect_results flat_map app].
  fold (connect_results (w_trace w)).
  constructor; cbn [fst snd].
  - rewrite timers_events, Hev. exact H1.
  - apply NoDup_snoc; [exact H2|exact (H3 _ Hwait)].
  - intros uid Hin Hres. destruct (Hleft uid Hin) as [Hold Hne].
    apply in_app_or in Hres. destruct Hres as [Hres|[Heq|[]]].
    + exact (H3 uid Hold Hres).
    + apply Hne. symmetry. exact Heq.
  - intros uid [Hin|Hin].
    + apply H4. left. rewrite timers_events, Hev in Hin. exact Hin.
    + apply in_app_or in Hin. destruct Hin as [Hin|[<-|[]]].
      * apply H4. right. exact Hin.
      * apply H4. left. exact (in_timers_event _ _ _ Hwait).
Qed.

Lemma calm_safe known {A} (m : M A) : calm m -> connect_safe known m.
Proof. intros Hm w H. rewrite Hm. exact H. Qed.

Lemma safe_bind known {A B} (m : M A) (f : A -> M B) :
  connect_safe known m -> (forall a, connect_safe known (f a)) ->
  connect_safe known (bind m f).
Proof.
  intros Hm Hf w H. rewrite connect_state_bind. specialize (Hm w H).
  destruct (m w) as [[a|msg|] w']; cbn [snd] in Hm; [apply Hf|..]; exact Hm.
Qed.

Lemma safe_when_live known m : connect_safe known m -> connect_safe known (when_live m).
Proof.
  intro Hm. unfold when_live. apply safe_bind; [apply calm_safe, calm_get|intro w0].
  destruct (w_live w0); [exact Hm|apply calm_safe, calm_ret].
Qed.

Lemma safe_emit_to known writable marks : connect_safe known (emit_to writable marks).
Proof. intros w H. apply emit_to_keeps_invariant, H. Qed.

Lemma safe_connect_timer known n : connect_safe known (connect_timer n).
Proof. intros w H. apply connect_timer_keeps_invariant, H. Qed.

(** A call of [connect] for an event that is new, and what follows it. *)
Lemma connecting_keeps_invariant known uid {A} (prefix : M A)
    (conn : world -> M unit) (rest : unit -> M unit) w :
  calm prefix ->
  (forall w0 w1,
      connect_invariant known (connect_state w1) ->
      connect_invariant (uid :: known) (connect_state (snd (conn w0 w1)))) ->
  (forall u, calm (rest u)) ->
  connect_invariant known (connect_state w) ->
  connect_invariant (uid :: known)
    (connect_state
       (snd (bind prefix (fun _ => bind get (fun w0 => bind (conn w0) rest)) w))).
Proof.
  intros Hp Hc Hr H. rewrite connect_state_bind. specialize (Hp w).
  assert (Hweak : connect_invariant (uid :: known) (connect_state w)).
  { apply (connect_invariant_weaken known); [exact H|]. intros x Hx. right. exact Hx. }
  destruct (prefix w) as [[a|msg|] w0]; cbn [snd] in Hp;
    [|rewrite Hp; exact Hweak|rewrite Hp; exact Hweak].
  rewrite connect_state_bind. cbn [get].
  rewrite connect_state_then by exact Hr.
  apply Hc. rewrite Hp. exact H.
Qed.

Lemma sendRequest_keeps_connect_invariant e uid payload sync connects known w :
  connect_invariant known (connect_state w) ->
  ~ In uid known ->
  connect_invariant (uid :: known)
    (connect_state (snd (sendRequest e uid payload sync connects w))).
Proof.
  intros H Hfresh. unfold sendRequest.
  match goal with
  | |- connect_invariant _
         (connect_state
            (snd (bind ?p (fun _ => bind get (fun w0 => bind (@?c w0) ?r)) _))) =>
      apply (connecting_keeps_invariant known uid p c r)
  end.
  - apply calm_getId.
  - intros w0 w1 H1. cbv beta.
    destruct (negb (w_live w0)); [apply GethConnection_keeps_invariant; assumption|].
    destruct (negb (w_writable w0)); [apply connect_keeps_invariant; assumption|].
    apply (connect_invariant_weaken known); [exact H1|]. intros x Hx. right. exact Hx.
  - intro u.
    pose proof calm_returnError as He. pose proof calm_reply as Hr.
    pose proof (calm_filterRequestResponse e) as Hf.
    pose proof calm_deliver as Hd. pose proof (calm_checkRequests e) as Hc.
    calm_tac.
  - exact H.
Qed.

Lemma on_create_keeps_connect_invariant e uid connects known w :
  connect_invariant known (connect_state w) ->
  ~ In uid known ->
  connect_invariant (uid :: known)
    (connect_state (snd (on_create e uid connects w))).
Proof.
  intros H Hfresh. unfold on_create. rewrite connect_state_bind.
  pose proof (calm_getId (this_id e) w) as Hp.
  assert (Hweak : connect_invariant (uid :: known) (connect_state w)).
  { apply (connect_invariant_weaken known); [exact H|]. intros x Hx. right. exact Hx. }
  destruct (getId (this_id e) w) as [[a|msg|] w0]; cbn [snd] in Hp;
    [|rewrite Hp; exact Hweak|rewrite Hp; exact Hweak].
  rewrite connect_state_bind. cbn [get]. rewrite <- Hp in H.
  destruct (w_live w0);
    [apply connect_keeps_invariant|apply GethConnection_keeps_invariant]; assumption.
Qed.

Lemma handle_keeps_connect_invariant e i known w :
  connect_invariant known (connect_state w) ->
  (forall uid, In uid (connect_uids [i]) -> ~ In uid known) ->
  connect_invariant (connect_uids [i] ++ known) (connect_state (snd (handle e i w))).
Proof.
  intros H Hfresh.
  destruct i; cbn [connect_uids flat_map app handle];
    try (cbn [connect_uids flat_map In app] in Hfresh).
  - apply sendRequest_keeps_connect_invariant; [exact H|].
    apply Hfresh. left. reflexivity.
  - apply on_create_keeps_connect_invariant; [exact H|].
    apply Hfresh. left. reflexivity.
  - revert w H. apply safe_when_live.
    apply safe_bind; [apply calm_safe, calm_get|intro w0].
    apply safe_bind; [apply safe_emit_to|intro].
    apply safe_bind; [apply calm_safe, calm_on_connect|intro].
    apply safe_emit_to.
  - apply safe_connect_timer, H.
  - revert w H. apply safe_when_live, calm_safe, calm_on_data.
  - revert w H. apply safe_when_live.
    apply safe_bind; [apply calm_safe, calm_get|intro w0].
    apply safe_bind; [apply safe_emit_to|intro].
    apply safe_bind; [apply calm_safe, calm_on_error|intro].
    apply safe_emit_to.
  - revert w H. apply safe_when_live, calm_safe, calm_on_timeout.
  - revert w H. apply safe_when_live, calm_safe, calm_on_end.
  - revert w H. apply safe_when_live, calm_safe, calm_destroy.
  - revert w H. apply calm_safe. apply calm_modify. intro w. reflexivity.
  - revert w H. apply calm_safe.
    pose proof calm_on_closed as Hc. calm_tac.
  - revert w H. apply calm_safe.
    pose proof calm_on_unlockedAccount as Hc. calm_tac.
Qed.

Lemma connect_uids_cons i rest :
  connect_uids (i :: rest) = connect_uids [i] ++ connect_uids rest.
Proof. unfold connect_uids. cbn [flat_map]. rewrite app_nil_r. reflexivity. Qed.

Lemma run_keeps_connect_invariant e inputs :
  forall known w w',
    connect_invariant known (connect_state w) ->
    NoDup (connect_uids inputs) ->
    (forall uid, In uid (connect_uids inputs) -> ~ In uid known) ->
    run e inputs w = Some w' ->
    connect_invariant (connect_uids inputs ++ known) (connect_state w').
Proof.
  induction inputs as [|i rest IH]; intros known w w' H Hnd Hfresh Hrun.
  - injection Hrun as <-. exact H.
  - rewrite connect_uids_cons in Hnd, Hfresh |- *.
    destruct (NoDup_app_inv _ _ Hnd) as [_ [Hrest Hapart]].
    pose proof (handle_keeps_connect_invariant e i known w H
                  (fun uid Hin => Hfresh uid (in_or_app _ _ _ (or_introl Hin))))
      as Hstep.
    cbn [run] in Hrun.
    destruct (handle e i w) as [r w1]. cbn [snd] in Hstep.
    assert (Hnext : run e rest w1 = Some w').
    { destruct r; [exact Hrun|exact Hrun|discriminate Hrun]. }
    apply (connect_invariant_weaken
             (connect_uids rest ++ connect_uids [i] ++ known)).
    + apply (IH _ w1 w' Hstep Hrest); [|exact Hnext].
      intros uid Hin Hk. apply in_app_or in Hk. destruct Hk as [Hk|Hk].
      * exact (Hapart uid Hk Hin).
      * exact (Hfresh uid (in_or_app _ _ _ (or_intror Hin)) Hk).
    + intros x Hx. apply in_app_or in Hx. destruct Hx as [Hx|Hx].
      * apply in_or_app. left. apply in_or_app. right. exact Hx.
      * apply in_app_or in Hx. destruct Hx as [Hx|Hx].
        -- apply in_or_app. left. apply in_or_app. left. exact Hx.
        -- apply in_or_app. right. exact Hx.
Qed.

Lemma connect_invariant_initial : connect_invariant [] (connect_state initial_world).
Proof.
  constructor.
  - constructor.
  - constructor.
  - intros uid [].
  - intros uid [[]|[]].
Qed.



(** ** Requests of a privileged view *)

(** X17: the requests of a privileged view are not filtered.  For the main
    window and for every window that is not a webview, a request whose
    method is neither of the two the gate handles itself, with a truthy id,
    is written to the socket as it came and registered under its id,
    whatever its method is and whatever other members it has. *)
Theorem privileged_view_is_not_filtered
    (e : env) (w : world) (uid : nat) (props : list (string * value))
    (sync connects : bool) :
  is_admin e = true ->
  ready e w ->
  strict_eq (field props "method") (VStr "eth_sendTransaction") = false ->
  strict_eq (field props "method") (VStr "eth_compileSolidity") = false ->
  truthy (field props "id") = true ->
  String.eqb (to_string (field props "id")) "__proto__" = false ->
  sendRequest e uid (VObj props) sync connects w
  = (Ok tt,
     add_effect (SocketWrite (JSON_stringify (w_templates w) (VObj props)))
       (registered (field props "id")
          (mkEvent uid (this_id e) sync (VObj props) (field props "id"))
          (add_effect (GotResult uid CbNull (VObj props)) w))).
Proof.
  intros Hadmin Hready Htx Hcomp Hid Hproto.
  pose proof Hready as [Halive [Hlive Hwr]].
  assert (Hne : props <> []) by (intros ->; discriminate Hid).
  rewrite (sendRequest_ready _ _ _ _ _ _ Hready).
  unfold filterRequestResponse. change (isObject (VObj props)) with true.
  cbn [negb]. cbv iota. rewrite Hadmin. js.
  assert (Hempty : isEmpty (VObj props) = false)
    by (destruct props; [contradiction|reflexivity]).
  rewrite Hempty. js. unfold checkRequests. js. rewrite Htx, Hcomp.
  apply (callback_forwards (mkEvent uid (this_id e) sync VUndefined VUndefined)
           (VObj props) (w_generation w) props w Hne Hid Hproto Hlive eq_refl).
Qed.

Lemma privileged_view_sample :
  w_trace (snd (sendRequest main_env 1 (VObj (request (VNum 3) "admin_peers" []))
                            false true initial_world))
  = [GotResult 1 CbNull (VObj (request (VNum 3) "admin_peers" []));
     SocketWrite (VObj (request (VNum 3) "admin_peers" []))].
Proof.
  rewrite (privileged_view_is_not_filtered main_env initial_world 1
             (request (VNum 3) "admin_peers" []) false true
             eq_refl (conj eq_refl (conj eq_refl eq_refl))
             eq_refl eq_refl eq_refl eq_refl).
  reflexivity.
Defined.

(** ** Batch responses *)

Lemma testPayload_passes e props error method w :
  response_passes props method = true ->
  testPayload e (VObj props) error method w = (Ok (VObj props), w).
Proof.
  intro Hpass. unfold testPayload. js. unfold response_passes in Hpass.
  destruct (truthy (field props "error")); [reflexivity|].
  cbn [orb] in Hpass. js.
  destruct (truthy (field props "method")).
  - rewrite Hpass. reflexivity.
  - js. destruct (truthy (field props "result")); cbn [negb orb] in Hpass.
    + apply andb_prop in Hpass. destruct Hpass as [Ht Hne].
      rewrite Ht. cbn [negb]. apply negb_true_iff in Hne. rewrite Hne. reflexivity.
    + reflexivity.
Qed.

(** [_.find(event.payload, re => re.id === load.id)] *)
Lemma find_request reqs resp w :
  findM (fun re =>
           re_id <- prop re "id" ;;
           load_id <- prop (VObj resp) "id" ;;
           ret (strict_eq re_id load_id))
        (map VObj reqs) w
  = (Ok match find (fun re => strict_eq (field re "id") (field resp "id")) reqs with
        | Some re => VObj re
        | None => VUndefined
        end, w).
Proof.
  induction reqs as [|re rest IH]; [reflexivity|].
  cbn [map findM find]. js.
  destruct (strict_eq (field re "id") (field resp "id")); [reflexivity|exact IH].
Qed.

Lemma filter_batch_response e reqs resps w :
  is_admin e = true
  \/ Forall (fun resp => response_passes resp (method_for reqs resp) = true) resps ->
  filterRequestResponse e (VArr (map VObj resps)) (Some (VArr (map VObj reqs))) w
  = (Ok (VArr (map VObj resps)), w).
Proof.
  intro H. unfold filterRequestResponse. cbn [isObject negb]. cbv iota.
  destruct (is_admin e) eqn:Hadm; [reflexivity|].
  destruct H as [H|H]; [discriminate H|].
  assert (Hmap :
            mapM (fun load =>
                    req <- (w0 <- get ;;
                            findM (fun re =>
                                     re_id <- prop re "id" ;;
                                     load_id <- prop load "id" ;;
                                     ret (strict_eq re_id load_id))
                                  (collection_values (w_templates w0)
                                     (VArr (map VObj reqs)))) ;;
                    res <- prop load "result" ;;
                    method <- (if truthy req then prop req "method"
                               else ret (VBool false)) ;;
                    testPayload e load (Some (batch_error res)) method)
                 (map VObj resps) w
            = (Ok (map VObj resps), w)).
  { induction H as [|resp rest Hresp Hrest IH]; [reflexivity|].
    cbn [map mapM]. rewrite !bind_bind. js.
    change (collection_values (w_templates w) (VArr (map VObj reqs)))
      with (map VObj reqs).
    rewrite bind_run, find_request. cbv iota.
    unfold method_for in Hresp.
    destruct (find (fun re => strict_eq (field re "id") (field resp "id")) reqs)
      as [re|]; js; cbn [truthy]; cbv iota; js;
      rewrite (bind_ok _ _ _ _ _ (testPayload_passes e resp _ _ w Hresp));
      rewrite bind_run, IH; reflexivity. }
  rewrite bind_run, Hmap. reflexivity.
Qed.

Lemma find_pending skipped r0 rest w :
  Forall (fun r => is_present (pending_event w (field r "id")) = false) skipped ->
  is_present (pending_event w (field r0 "id")) = true ->
  findM (fun load =>
           id <- prop load "id" ;;
           w0 <- get ;;
           ret (is_present (pending_event w0 id)))
        (map VObj (skipped ++ r0 :: rest)) w
  = (Ok (VObj r0), w).
Proof.
  intros Hs H0. induction Hs as [|r skipped Hr Hs IH].
  - cbn [app map findM]. js. rewrite H0. reflexivity.
  - cbn [app map findM]. js. rewrite Hr. exact IH.
Qed.

(** X18: a batch response.  The pending call is found through the first
    element of the response whose id is pending; when the view is
    privileged, or every element is one [testPayload] returns as it is for
    the method of the first request of the batch with the same id (compared
    with [===]), the batch is handed to the caller as it came, as the
    return value of a synchronous call or as a push otherwise, and the
    entry of the call is deleted. *)
Theorem batch_response_is_handed_over
    (e : env) (w : world) (ev : event)
    (reqs skipped rest : list (list (string * value))) (r0 : list (string * value)) :
  let resps := skipped ++ r0 :: rest in
  Forall (fun r => is_present (pending_event w (field r "id")) = false) skipped ->
  pending_event w (field r0 "id") = Found ev ->
  ev_payload ev = VArr (map VObj reqs) ->
  is_admin e = true
  \/ Forall (fun resp => response_passes resp (method_for reqs resp) = true) resps ->
  alive w (ev_sender ev) = true ->
  on_data e (DechunkResult (VArr (map VObj resps))) w
  = (Ok tt, resolved ev (JSON_stringify (w_templates w) (VArr (map VObj resps))) w).
Proof.
  intros resps Hskipped Hfound Hpayload Hpass Halive.
  assert (Hpresent : is_present (pending_event w (field r0 "id")) = true)
    by (rewrite Hfound; reflexivity).
  assert (Hevent : getResponseEvent (VArr (map VObj resps)) w = (Ok (Found ev), w)).
  { unfold getResponseEvent. subst resps.
    rewrite bind_run, (find_pending skipped r0 rest w Hskipped Hpresent).
    cbn [truthy]. cbv iota. js. rewrite Hfound. reflexivity. }
  unfold on_data. rewrite bind_run, Hevent. cbv iota.
  rewrite Hpayload.
  rewrite bind_run, (filter_batch_response e reqs resps w Hpass). cbv iota.
  unfold log_notification. js.
  rewrite (bind_prop_some (VArr (map VObj resps)) "id" VUndefined _ w eq_refl).
  change (negb (truthy VUndefined) && negb (isArray (VArr (map VObj resps))))
    with false. cbv iota. js.
  unfold resolved, delivery. destruct ev as [uid sender sync payload eventId].
  cbn [ev_sync ev_sender ev_uid ev_eventId] in *.
  destruct sync; js; rewrite bind_isDestroyed, Halive; cbn [negb]; js.
  - unfold set_returnValue. js. reflexivity.
  - unfold reply. js. rewrite bind_isDestroyed. cbn [ev_sender].
    rewrite Halive. cbn [negb]. js. reflexivity.
Qed.

Lemma batch_response_sample :
  on_data webview_env (DechunkResult (VArr (map VObj batch_responses))) batch_pending
  = (Ok tt,
     resolved (pending_async 1 (VArr (map VObj batch_requests)) (VNum 1))
              (VArr (map VObj batch_responses)) batch_pending).
Proof.
  apply (batch_response_is_handed_over webview_env batch_pending
           (pending_async 1 (VArr (map VObj batch_requests)) (VNum 1))
           batch_requests []
           [[("jsonrpc", VStr "2.0"); ("id", VNum 2); ("result", VStr "0x5")]]
           [("jsonrpc", VStr "2.0"); ("id", VNum 1); ("result", VStr "0x10")]).
  - constructor.
  - reflexivity.
  - reflexivity.
  - right. repeat constructor.
  - reflexivity.
Defined.

(** ** Programs that write nothing to the socket *)

Lemma silent_ret {A} (a : A) : silent (ret a).
Proof. intro w. split; reflexivity. Qed.

Lemma silent_get : silent get.
Proof. intro w. split; reflexivity. Qed.

Lemma silent_throw {A} msg : silent (@throw A msg).
Proof. intro w. split; reflexivity. Qed.

Lemma silent_unmodelled {A} : silent (@unmodelled A).
Proof. intro w. split; reflexivity. Qed.

Lemma silent_bind {A B} (m : M A) (f : A -> M B) :
  silent m -> (forall a, silent (f a)) -> silent (bind m f).
Proof.
  intros Hm Hf w. unfold bind. specialize (Hm w).
  destruct (m w) as [[a|msg|] w']; cbn [snd] in *; [|exact Hm|exact Hm].
  destruct (Hf a w') as [H1 H2]. destruct Hm as [H3 H4].
  rewrite H1, H2. split; assumption.
Qed.

Lemma silent_try_catch body handler :
  silent body -> silent handler -> silent (try_catch body handler).
Proof.
  intros Hb Hh w. unfold try_catch. specialize (Hb w).
  destruct (body w) as [[a|msg|] w']; cbn [snd] in *; [exact Hb| |exact Hb].
  destruct (Hh w') as [H1 H2]. destruct Hb as [H3 H4].
  rewrite H1, H2. split; assumption.
Qed.

Lemma silent_prop v k : silent (prop v k).
Proof.
  intro w. unfold prop. destruct (get_prop (w_templates w) v k); split; reflexivity.
Qed.

Lemma silent_index v i : silent (index v i).
Proof. intro w. unfold index. destruct (get_index v i); split; reflexivity. Qed.

Lemma silent_stringify v : silent (stringify v).
Proof. intro w. split; reflexivity. Qed.

Lemma silent_modify (h : world -> world) :
  (forall w, w_trace (h w) = w_trace w /\ w_gates (h w) = w_gates w) ->
  silent (modify h).
Proof. intros H w. cbn [modify snd]. destruct (H w) as [-> ->]. split; reflexivity. Qed.

Lemma writes_app tr tr' : writes (tr ++ tr') = writes tr ++ writes tr'.
Proof. apply flat_map_app. Qed.

Lemma silent_emit x : writes [x] = [] -> silent (emit x).
Proof.
  intros H w. unfold emit, modify. cbn [snd add_effect w_trace w_gates].
  rewrite writes_app, H, app_nil_r. split; reflexivity.
Qed.

Lemma silent_mapM {A B} (f : A -> M B) l : (forall x, silent (f x)) -> silent (mapM f l).
Proof.
  intro Hf. induction l as [|x rest IH]; cbn [mapM]; [apply silent_ret|].
  apply silent_bind; [apply Hf|intro y].
  apply silent_bind; [exact IH|intro ys]. apply silent_ret.
Qed.

Lemma silent_eachM {A} (f : A -> M unit) l :
  (forall x, silent (f x)) -> silent (eachM f l).
Proof.
  intro Hf. induction l as [|x rest IH]; cbn [eachM]; [apply silent_ret|].
  apply silent_bind; [apply Hf|intro]. exact IH.
Qed.

Lemma silent_findM pred l : (forall x, silent (pred x)) -> silent (findM pred l).
Proof.
  intro Hp. induction l as [|x rest IH]; cbn [findM]; [apply silent_ret|].
  apply silent_bind; [apply Hp|intros [|]]; [apply silent_ret|exact IH].
Qed.

Ltac silent_step :=
  first
    [ match goal with H : _ |- _ => simple apply H end
    | simple apply @silent_ret | simple apply silent_get | simple apply @silent_throw
    | simple apply @silent_unmodelled
    | simple apply silent_prop | simple apply silent_index
    | simple apply silent_stringify
    | simple apply silent_emit; reflexivity
    | simple apply silent_modify; intro; split; reflexivity
    | simple apply @silent_mapM; intro
    | simple apply @silent_eachM; intro
    | simple apply silent_findM; intro
    | simple apply silent_try_catch
    | simple apply @silent_bind; [|intro]
    | match goal with
      | |- silent (if ?c then _ else _) => destruct c
      | |- silent (match ?x with _ => _ end) => destruct x
      end ].

Ltac silent_tac := cbv beta zeta; repeat (silent_step; cbv beta zeta).

Lemma silent_makeError payload r : silent (makeError payload r).
Proof. unfold makeError. silent_tac. Qed.

Lemma silent_returnError payload r : silent (returnError payload r).
Proof. pose proof silent_makeError as Hm. unfold returnError. silent_tac. Qed.

Lemma silent_reject payload error : silent (reject payload error).
Proof. pose proof silent_returnError as Hr. unfold reject. silent_tac. Qed.

Lemma silent_testPayload e payload error method :
  silent (testPayload e payload error method).
Proof. pose proof silent_reject as Hr. unfold testPayload. silent_tac. Qed.

Lemma silent_filterRequestResponse e payload event_payload :
  silent (filterRequestResponse e payload event_payload).
Proof.
  pose proof (silent_testPayload e) as Ht.
  unfold filterRequestResponse. silent_tac.
Qed.

Lemma silent_getResponseEvent response : silent (getResponseEvent response).
Proof. unfold getResponseEvent. silent_tac. Qed.

Lemma silent_isDestroyed s : silent (isDestroyed s).
Proof. unfold isDestroyed. silent_tac. Qed.

Lemma silent_getId s : silent (getId s).
Proof. pose proof silent_isDestroyed as Hd. unfold getId. silent_tac. Qed.

Lemma silent_sender_send s channel data : silent (sender_send s channel data).
Proof. pose proof silent_isDestroyed as Hd. unfold sender_send. silent_tac. Qed.

Lemma silent_reply ev data : silent (reply ev data).
Proof. pose proof silent_isDestroyed as Hd. unfold reply. silent_tac. Qed.

Lemma silent_set_returnValue ev data : silent (set_returnValue ev data).
Proof. unfold set_returnValue. silent_tac. Qed.

Lemma silent_deliver ev data : silent (deliver ev data).
Proof.
  pose proof silent_reply as Hr. pose proof silent_set_returnValue as Hs.
  unfold deliver. silent_tac.
Qed.

Lemma silent_register id ev : silent (register id ev).
Proof. unfold register. silent_tac. Qed.

Lemma silent_set_gas payload gas : silent (set_gas payload gas).
Proof. unfold set_gas. silent_tac. Qed.

Lemma silent_connect uid first connects : silent (connect uid first connects).
Proof. unfold connect. silent_tac. Qed.

Lemma silent_GethConnection uid connects : silent (GethConnection uid connects).
Proof. pose proof silent_connect as Hc. unfold GethConnection. silent_tac. Qed.

Lemma writes_connect_listeners writable marks l :
  writes (snd (call_listeners writable marks l)) = [].
Proof.
  revert l. induction marks as [|m marks IH]; intro l.
  { destruct l; reflexivity. }
  destruct l as [|a rest]; [destruct m; reflexivity|].
  cbn [call_listeners]. specialize (IH rest).
  destruct (call_listeners writable marks rest) as [rest' outs]. cbn [snd] in IH.
  destruct m; cbn [connect_listener snd]; [|exact IH].
  rewrite writes_app, IH. destruct (a_timer a); reflexivity.
Qed.

Lemma add_effects_gates effects w : w_gates (add_effects effects w) = w_gates w.
Proof.
  revert w. induction effects as [|x rest IH]; intro w; [reflexivity|].
  change (add_effects (x :: rest) w) with (add_effects rest (add_effect x w)).
  rewrite IH. reflexivity.
Qed.

Lemma silent_emit_to writable marks : silent (emit_to writable marks).
Proof.
  intro w. unfold emit_to, modify. cbn [snd].
  pose proof (writes_connect_listeners writable marks (w_attempts w)) as H.
  destruct (call_listeners writable marks (w_attempts w)) as [l effects].
  cbn [snd] in H. rewrite add_effects_trace, add_effects_gates, writes_app, H, app_nil_r.
  split; reflexivity.
Qed.

Lemma silent_connect_timer n : silent (connect_timer n).
Proof. unfold connect_timer. silent_tac. Qed.

Lemma silent_on_connect e data : silent (on_connect e data).
Proof. pose proof silent_sender_send as Hs. unfold on_connect. silent_tac. Qed.

Lemma silent_timeout e : silent (timeout e).
Proof.
  pose proof silent_sender_send as Hs. pose proof silent_isDestroyed as Hd.
  pose proof silent_returnError as He. pose proof silent_reply as Hr.
  pose proof silent_set_returnValue as Hv.
  unfold timeout. silent_tac.
Qed.

Lemma silent_destroy e : silent (destroy e).
Proof. pose proof (silent_timeout e) as Ht. unfold destroy. silent_tac. Qed.

Lemma silent_log_notification e result : silent (log_notification e result).
Proof. pose proof silent_getId as Hg. unfold log_notification. silent_tac. Qed.

Lemma silent_on_data e d : silent (on_data e d).
Proof.
  pose proof (silent_timeout e) as Ht. pose proof silent_getResponseEvent as Hg.
  pose proof silent_sender_send as Hs. pose proof (silent_filterRequestResponse e) as Hf.
  pose proof (silent_log_notification e) as Hl. pose proof silent_isDestroyed as Hd.
  pose proof silent_set_returnValue as Hv. pose proof silent_reply as Hr.
  unfold on_data. silent_tac.
Qed.

Lemma silent_on_error e data : silent (on_error e data).
Proof.
  pose proof silent_getId as Hg. pose proof silent_sender_send as Hs.
  pose proof (silent_destroy e) as Hd. unfold on_error. silent_tac.
Qed.

Lemma silent_on_timeout e data : silent (on_timeout e data).
Proof.
  pose proof silent_getId as Hg. pose proof silent_sender_send as Hs.
  pose proof (silent_destroy e) as Hd. unfold on_timeout. silent_tac.
Qed.

Lemma silent_on_end e data : silent (on_end e data).
Proof.
  pose proof silent_getId as Hg. pose proof silent_sender_send as Hs.
  pose proof (silent_destroy e) as Hd. unfold on_end. silent_tac.
Qed.

Lemma silent_on_create e uid connects : silent (on_create e uid connects).
Proof.
  pose proof silent_getId as Hg. pose proof silent_connect as Hc.
  pose proof silent_GethConnection as Hn. unfold on_create. silent_tac.
Qed.

(** ** What the filter returns *)

Lemma yields_ret {A} (a : A) (R : A -> Prop) : R a -> yields (ret a) R.
Proof. intros H w b Hb. injection Hb as <-. exact H. Qed.

Lemma yields_throw {A} msg (R : A -> Prop) : yields (throw msg) R.
Proof. intros w b Hb. discriminate Hb. Qed.

Lemma yields_bind {A B} (m : M A) (f : A -> M B) (Q : A -> Prop) (R : B -> Prop) :
  yields m Q -> (forall a, Q a -> yields (f a) R) -> yields (bind m f) R.
Proof.
  intros Hm Hf w b Hb. unfold bind in Hb. specialize (Hm w).
  destruct (m w) as [[a|msg|] w']; cbn [fst] in *; try discriminate Hb.
  exact (Hf a (Hm a eq_refl) w' b Hb).
Qed.

Lemma yields_any {A} (m : M A) : yields m (fun _ => True).
Proof. intros w a _. exact Logic.I. Qed.

Lemma yields_then {A B} (m : M A) (f : A -> M B) (R : B -> Prop) :
  (forall a, yields (f a) R) -> yields (bind m f) R.
Proof.
  intro Hf. apply (yields_bind m f (fun _ => True)); [apply yields_any|].
  intros a _. apply Hf.
Qed.

Lemma yields_mapM {A B} (f : A -> M B) (R : B -> Prop) l :
  (forall x, In x l -> yields (f x) R) -> yields (mapM f l) (Forall R).
Proof.
  induction l as [|x rest IH]; intro Hf; cbn [mapM].
  - apply yields_ret. constructor.
  - apply (yields_bind _ _ R); [apply Hf; left; reflexivity|intros y Hy].
    apply (yields_bind _ _ (Forall R)).
    + apply IH. intros z Hz. apply Hf. right. exact Hz.
    + intros ys Hys. apply yields_ret. constructor; assumption.
Qed.

Lemma yields_prop_obj props k :
  yields (prop (VObj props) k) (fun x => x = field props k).
Proof. intros w a Ha. injection Ha as <-. reflexivity. Qed.

Lemma yields_index v i : yields (index v i) (fun x => get_index v i = Some x).
Proof.
  intros w a Ha. unfold index in Ha. destruct (get_index v i); [|discriminate Ha].
  injection Ha as <-. reflexivity.
Qed.

Lemma makeError_yields payload r : yields (makeError payload r) (fun a => a = VRef r).
Proof.
  unfold makeError.
  apply yields_then. intro. apply yields_then. intro. apply yields_then. intro.
  apply yields_ret. reflexivity.
Qed.

(** What [returnError] returns is no object of the view, and is an array
    only for an array. *)
Lemma returnError_yields payload r :
  yields (returnError payload r)
         (fun a => sound_doc a = true /\ (isArray a = true -> isArray payload = true)).
Proof.
  assert (Hone : forall p,
             yields (makeError p r)
                    (fun a => sound_doc a = true
                              /\ (isArray a = true -> isArray payload = true))).
  { intros p w a Ha. rewrite (makeError_yields p r w a Ha). split; [reflexivity|].
    intro H. discriminate H. }
  unfold returnError. destruct payload; try apply Hone.
  apply yields_then. intro errors. apply yields_ret. split; reflexivity.
Qed.

Lemma reject_yields payload error :
  yields (reject payload error)
         (fun a => sound_doc a = true /\ (isArray a = true -> isArray payload = true)).
Proof.
  unfold reject. destruct error; [apply returnError_yields|].
  apply yields_ret. split; [reflexivity|]. intro H. discriminate H.
Qed.

(** What [testPayload] returns for a request object is that object, when
    the filter lets it through, or no object of the view. *)
Lemma testPayload_request_object e props error :
  json (VObj props) = true ->
  yields (testPayload e (VObj props) error (VBool false))
         (fun a => sound_doc a = true /\ (isArray a = true -> False)).
Proof.
  intros Hjson w a Ha.
  assert (Hrej : forall w0 b,
             fst (reject (VObj props) error w0) = Ok b ->
             sound_doc b = true /\ (isArray b = true -> False)).
  { intros w0 b Hb. destruct (reject_yields (VObj props) error w0 b Hb) as [H1 H2].
    split; [exact H1|]. intro H. discriminate (H2 H). }
  revert Ha. unfold testPayload. js.
  destruct (truthy (field props "error")) eqn:Herr.
  { intro Ha. injection Ha as <-. unfold sound_doc. rewrite Hjson.
    cbn [permitted_doc isArray andb]. rewrite Herr.
    split; [reflexivity|discriminate]. }
  js. destruct (truthy (field props "method")) eqn:Hm.
  { destruct (allowed_method (to_string (field props "method"))) eqn:Hal;
      cbn [negb]; cbv iota.
    - intro Ha. injection Ha as <-. unfold sound_doc. rewrite Hjson.
      cbn [permitted_doc isArray andb]. rewrite Hal, !orb_true_r.
      split; [reflexivity|discriminate].
    - apply Hrej. }
  js. destruct (truthy (field props "result")).
  - cbn [truthy negb]. cbv iota. apply Hrej.
  - intro Ha. injection Ha as <-. unfold sound_doc. rewrite Hjson.
    cbn [permitted_doc isArray andb]. rewrite Herr, Hm.
    split; [reflexivity|discriminate].
Qed.

Lemma testPayload_request_yields e load error :
  json load = true ->
  yields (testPayload e load error (VBool false))
         (fun a => sound_doc a = true /\ (isArray a = true -> isArray load = true)).
Proof.
  intro Hjson.
  destruct load as [| | b | n | s | l | props | r];
    try (intros w a Ha;
         destruct (testPayload_request_object e props error Hjson w a Ha) as [H1 H2];
         split; [exact H1|intro H; destruct (H2 H)]);
    unfold testPayload;
    repeat first
      [ apply yields_ret; split; [reflexivity|intro H; first [exact H|reflexivity]]
      | apply reject_yields
      | apply yields_then; intro
      | match goal with
        | |- yields (if ?c then _ else _) _ => destruct c
        end ].
Qed.

Lemma sound_of_doc a :
  sound_doc a = true -> (isArray a = true -> False) -> sound a = true.
Proof. intros H Hn. destruct a; try exact H. destruct (Hn eq_refl). Qed.

(** What the filter returns for a request of an untrusted view. *)
Lemma filter_yields e payload :
  is_admin e = false ->
  json payload = true ->
  yields (filterRequestResponse e payload None) (fun fp => sound fp = true).
Proof.
  intros Hadmin Hjson. unfold filterRequestResponse.
  destruct (negb (isObject payload)); [apply yields_ret; reflexivity|].
  rewrite Hadmin.
  destruct payload as [| | b | n | s | loads | props | r].
  6: { apply (yields_bind _ _ (Forall (fun a => sound_doc a = true))).
       - apply yields_mapM. intros load Hin.
         assert (Hload : json load = true).
         { cbn [json] in Hjson. rewrite forallb_forall in Hjson. apply Hjson, Hin. }
         apply (yields_bind _ _ (fun req => req = VBool false));
           [apply yields_ret; reflexivity|intros req ->].
         apply yields_then. intro res.
         apply (yields_bind _ _ (fun m => m = VBool false));
           [apply yields_ret; reflexivity|intros method ->].
         intros w v Hv.
         exact (proj1 (testPayload_request_yields e load _ Hload w v Hv)).
       - intros filtered Hf. apply yields_ret. cbn [sound].
         apply forallb_forall. rewrite Forall_forall in Hf. exact Hf. }
  all: apply yields_then; intro res;
    apply (yields_bind _ _ (fun m => m = VBool false));
      [apply yields_ret; reflexivity|intros method ->];
    intros w v Hv;
    match type of Hv with
    | fst (testPayload ?e0 ?p ?er _ _) = Ok _ =>
        destruct (testPayload_request_yields e0 p er Hjson w v Hv) as [H1 H2]
    end;
    apply sound_of_doc; [exact H1|intro H; discriminate (H2 H)].
Qed.

(** ** The text of a sound payload *)

Lemma stringify_json ts v : json v = true -> JSON_stringify ts v = v.
Proof.
  induction v as [v Hv | l IH | props IH] using value_nested_ind; intro Hj.
  - destruct v; try reflexivity; try discriminate Hj; destruct Hv.
  - cbn [JSON_stringify json] in *. f_equal.
    induction IH as [|x rest Hx Hrest IHrest]; [reflexivity|].
    cbn [forallb] in Hj. apply andb_prop in Hj. destruct Hj as [Hjx Hjrest].
    cbn [map]. rewrite (Hx Hjx), (IHrest Hjrest).
    destruct x; try reflexivity. discriminate Hjx.
  - cbn [JSON_stringify json] in *. f_equal.
    induction IH as [|p rest Hp Hrest IHrest]; [reflexivity|].
    cbn [forallb] in Hj. apply andb_prop in Hj. destruct Hj as [Hjp Hjrest].
    cbn [flat_map]. rewrite (Hp Hjp), (IHrest Hjrest).
    destruct p as [k x]. cbn [fst snd] in *.
    destruct x; try reflexivity. discriminate Hjp.
Qed.

Lemma template_text_permitted ts r : permitted_doc (JSON_stringify ts (VRef r)) = true.
Proof.
  destruct r; cbn [JSON_stringify template_object flat_map snd fst app];
    destruct (t_id (get_template ts _)); reflexivity.
Qed.

Lemma not_object_text ts x :
  match x with VObj _ | VRef _ => False | _ => True end ->
  permitted_doc (JSON_stringify ts x) = true.
Proof. destruct x; intro H; try reflexivity; destruct H. Qed.

Lemma sound_doc_text ts x :
  sound_doc x = true ->
  permitted_doc (JSON_stringify ts x) = true.
Proof.
  intro H. destruct x as [| | b | n | s | l | props | r];
    try (apply not_object_text; exact Logic.I).
  - unfold sound_doc in H. apply andb_prop in H. destruct H as [Hj Hp].
    rewrite (stringify_json ts _ Hj). exact Hp.
  - apply template_text_permitted.
Qed.

(** The text of a sound payload is a permitted text. *)
Lemma sound_text ts payload :
  sound payload = true -> permitted (JSON_stringify ts payload) = true.
Proof.
  intro H. destruct payload as [| | b | n | s | l | props | r];
    try reflexivity.
  - cbn [JSON_stringify permitted]. cbn [sound] in H.
    rewrite forallb_forall in H |- *. intros y Hy.
    apply in_map_iff in Hy. destruct Hy as [x [<- Hx]].
    pose proof (sound_doc_text ts x (H x Hx)) as Hp.
    destruct (JSON_stringify ts x); try exact Hp; reflexivity.
  - pose proof (sound_doc_text ts (VObj props) H) as Hp.
    cbn [JSON_stringify] in *. exact Hp.
  - pose proof (template_text_permitted ts r) as Hp.
    destruct r; cbn [JSON_stringify template_object] in *; exact Hp.
Qed.

(** ** What an untrusted view gets written to the socket *)

Lemma silent_guards {A} (m : M A) (R : A -> Prop) :
  silent m -> yields m R -> guards m R.
Proof.
  intros Hs Hy w [Hw Hg]. destruct (Hs w) as [H1 H2]. split.
  - split; [rewrite H1; exact Hw|rewrite H2; exact Hg].
  - intros a Ha. exact (Hy w a Ha).
Qed.

Lemma silent_guards_any {A} (m : M A) : silent m -> guards m (fun _ => True).
Proof. intro Hs. apply silent_guards; [exact Hs|apply yields_any]. Qed.

Lemma guards_bind {A B} (m : M A) (f : A -> M B) (Q : A -> Prop) (R : B -> Prop) :
  guards m Q -> (forall a, Q a -> guards (f a) R) -> guards (bind m f) R.
Proof.
  intros Hm Hf w Hw. unfold bind. destruct (Hm w Hw) as [H1 H2].
  destruct (m w) as [[a|msg|] w']; cbn [fst snd] in *.
  - exact (Hf a (H2 a eq_refl) w' H1).
  - split; [exact H1|intros b Hb; discriminate Hb].
  - split; [exact H1|intros b Hb; discriminate Hb].
Qed.

Lemma guards_then {A B} (m : M A) (f : A -> M B) (R : B -> Prop) :
  guards m (fun _ => True) -> (forall a, guards (f a) R) -> guards (bind m f) R.
Proof. intros Hm Hf. apply (guards_bind m f (fun _ => True)); [exact Hm|intros a _; apply Hf]. Qed.

Lemma guards_after {A B} (m : M A) (f : A -> M B) (R : B -> Prop) :
  silent m -> (forall a, guards (f a) R) -> guards (bind m f) R.
Proof. intros Hm Hf. apply guards_then; [apply silent_guards_any, Hm|exact Hf]. Qed.

Lemma guards_ret {A} (a : A) : guards (ret a) (fun _ => True).
Proof. apply silent_guards_any, silent_ret. Qed.

(** [socket.ipcSocket.write(JSON.stringify(result))] *)
Lemma guards_write result :
  sound result = true ->
  guards (bind (stringify result) (fun data => emit (SocketWrite data)))
         (fun _ => True).
Proof.
  intros Hp w [Hw Hg]. split; [|intros; exact Logic.I].
  change (snd (bind (stringify result) (fun data => emit (SocketWrite data)) w))
    with (add_effect (SocketWrite (JSON_stringify (w_templates w) result)) w).
  unfold written_permitted. cbn [add_effect w_trace w_gates].
  split; [|exact Hg].
  rewrite writes_app. apply Forall_app. split; [exact Hw|].
  constructor; [|constructor]. apply sound_text, Hp.
Qed.

Lemma guards_callback ev jsonPayload socket err result :
  (err = CbNull -> sound result = true) ->
  guards (sendRequest_callback ev jsonPayload socket err result) (fun _ => True).
Proof.
  intro Hp. unfold sendRequest_callback.
  apply guards_after; [apply silent_emit; reflexivity|intros _].
  destruct err.
  - destruct (negb (isEmpty result)); [|apply guards_ret].
    apply guards_after; [apply silent_prop|intro rid].
    apply guards_after; [silent_tac|intro id].
    apply guards_after; [apply silent_get|intro w0].
    apply guards_after; [silent_tac|intros _].
    apply guards_after; [apply silent_register|intros _].
    apply guards_write. apply Hp. reflexivity.
  - apply guards_ret.
  - apply silent_guards_any.
    pose proof silent_returnError as He. pose proof silent_deliver as Hd. silent_tac.
Qed.

Lemma guards_update_gate modal f :
  (forall g, sound (g_payload g) = true -> sound (g_payload (f g)) = true) ->
  guards (update_gate modal f) (fun _ => True).
Proof.
  intros Hf w [Hw Hg]. split; [|intros; exact Logic.I].
  unfold update_gate, modify, written_permitted. cbn [snd set_gates w_trace w_gates].
  split; [exact Hw|].
  rewrite Forall_forall in Hg |- *. intros g Hin.
  apply in_map_iff in Hin. destruct Hin as [g0 [<- Hin0]].
  destruct (Nat.eqb (g_modal g0) modal); [apply Hf|]; apply Hg, Hin0.
Qed.

Lemma json_set_assoc k v props :
  json v = true -> json (VObj props) = true -> json (VObj (set_assoc k v props)) = true.
Proof.
  intros Hv. cbn [json]. induction props as [|[k' v'] rest IH]; cbn [set_assoc forallb snd].
  - intros _. rewrite Hv. reflexivity.
  - intro H. apply andb_prop in H. destruct H as [H1 H2].
    destruct (String.eqb k k'); cbn [forallb snd].
    + rewrite Hv, H2. reflexivity.
    + rewrite H1, (IH H2). reflexivity.
Qed.

Lemma json_field props k :
  json (VObj props) = true ->
  field props k = VUndefined \/ json (field props k) = true.
Proof.
  cbn [json]. unfold field. induction props as [|[k' v'] rest IH]; cbn [assoc forallb snd].
  - intros _. left. reflexivity.
  - intro H. apply andb_prop in H. destruct H as [H1 H2].
    destruct (String.eqb k k'); [right; exact H1|exact (IH H2)].
Qed.

Lemma field_set_assoc_method k v props :
  k <> "method"%string -> k <> "error"%string ->
  field (set_assoc k v props) "method" = field props "method"
  /\ field (set_assoc k v props) "error" = field props "error".
Proof.
  intros Hm He. split; apply field_set_assoc_other; intro H; subst k; contradiction.
Qed.

Lemma sound_set_params props v :
  json v = true ->
  sound (VObj props) = true -> sound (set_prop (VObj props) "params" v) = true.
Proof.
  intros Hv H. cbn [set_prop sound sound_doc] in *.
  apply andb_prop in H. destruct H as [Hj Hp].
  rewrite (json_set_assoc "params" v props Hv Hj). cbn [andb permitted_doc] in *.
  destruct (field_set_assoc_method "params" v props) as [-> ->];
    [discriminate|discriminate|]. exact Hp.
Qed.

(** [filteredPayload.params[0].gas = result] keeps a sound payload sound. *)
Lemma set_gas_yields payload gas :
  json gas = true ->
  sound payload = true ->
  yields (set_gas payload gas) (fun p => sound p = true).
Proof.
  intros Hgas Hp. unfold set_gas.
  destruct payload as [| | b | n | s | loads | props | r].
  7: { assert (Hj : json (VObj props) = true).
       { cbn [sound sound_doc] in Hp. apply andb_prop in Hp. exact (proj1 Hp). }
       apply (yields_bind _ _ (fun params => params = field props "params"));
         [apply yields_prop_obj|intros params ->].
       apply (yields_bind _ _ (fun first => get_index (field props "params") 0 = Some first));
         [apply yields_index|intros first Hfirst].
       apply (yields_bind _ _
                (fun first' => first <> VUndefined
                               /\ (json first = true -> json first' = true))).
       { destruct first as [| | b | n | s | l | tx | r];
           try apply yields_throw; apply yields_ret;
           (split; [discriminate|intro H]); [exact H|].
         apply json_set_assoc; assumption. }
       intros first' [Hdef Hfirst'].
       destruct (json_field props "params" Hj) as [Hparams|Hparams].
       { rewrite Hparams. apply yields_ret. exact Hp. }
       destruct (field props "params") as [| | b | n | s | [|x rest] | props' | r];
         try (apply yields_ret; exact Hp).
       - cbn [get_index nth] in Hfirst. injection Hfirst as <-.
         cbn [json forallb] in Hparams. apply andb_prop in Hparams.
         destruct Hparams as [Hx Hrest].
         apply yields_ret. apply sound_set_params; [|exact Hp].
         cbn [json forallb]. rewrite (Hfirst' Hx), Hrest. reflexivity.
       - cbn [get_index] in Hfirst. injection Hfirst as <-.
         destruct (json_field props' (string_of_nat 0) Hparams) as [Hu|Hjf];
           [destruct (Hdef Hu)|].
         apply yields_ret. apply sound_set_params; [|exact Hp].
         apply json_set_assoc; [exact (Hfirst' Hjf)|exact Hparams]. }
  all: apply yields_then; intro params; apply yields_then; intro first;
    apply yields_then; intro first';
    destruct params as [| | b0 | n0 | s0 | [|x rest] | props' | r0];
    apply yields_ret; exact Hp.
Qed.

Lemma guards_checkRequests e filteredPayload ev jsonPayload socket :
  sound filteredPayload = true ->
  guards (checkRequests e filteredPayload ev jsonPayload socket) (fun _ => True).
Proof.
  intro Hp. unfold checkRequests. cbv zeta.
  assert (Hother :
            guards
              (method <- prop filteredPayload "method" ;;
               if strict_eq method (VStr "eth_sendTransaction") then
                 params <- prop filteredPayload "params" ;;
                 first <- index params 0 ;;
                 w <- get ;;
                 let modal := w_next_modal w in
                 emit (CreatePopup modal (VArr [VStr "data"; first])) ;;;
                 modify (fun w =>
                   set_gates (w_gates w
                              ++ [mkGate modal filteredPayload ev jsonPayload socket
                                         false true])
                             (S modal) w)
               else if strict_eq method (VStr "eth_compileSolidity") then
                 params <- prop filteredPayload "params" ;;
                 source <- index params 0 ;;
                 let output := solc_compile e source in
                 errors <- (if truthy output then prop output "errors"
                            else ret VUndefined) ;;
                 response <-
                   (if negb (truthy output) || truthy errors then
                      id <- prop filteredPayload "id" ;;
                      ret (VObj [("jsonrpc", VStr "2.0");
                                 ("error", VObj [("code", VNum (-32700));
                                                 ("message", if truthy output then errors
                                                             else VStr "Compile error")]);
                                 ("id", id)])
                    else
                      contracts <- prop output "contracts" ;;
                      id <- prop filteredPayload "id" ;;
                      ret (VObj [("jsonrpc", VStr "2.0"); ("result", contracts);
                                 ("id", id)])) ;;
                 data <- stringify response ;;
                 deliver ev data ;;;
                 sendRequest_callback ev jsonPayload socket CbTrue VUndefined
               else sendRequest_callback ev jsonPayload socket CbNull filteredPayload)
              (fun _ => True)).
  { apply guards_after; [apply silent_prop|intro method].
    destruct (strict_eq method (VStr "eth_sendTransaction")).
    - apply guards_after; [apply silent_prop|intro params].
      apply guards_after; [apply silent_index|intro first].
      apply guards_after; [apply silent_get|intro w0]. cbv zeta.
      apply guards_after; [apply silent_emit; reflexivity|intros _].
      intros w [Hw Hg]. split; [|intros; exact Logic.I].
      unfold written_permitted.
      cbn [modify snd set_gates w_trace w_gates]. split; [exact Hw|].
      apply Forall_app. split; [exact Hg|]. constructor; [exact Hp|constructor].
    - destruct (strict_eq method (VStr "eth_compileSolidity")).
      + apply guards_after; [apply silent_prop|intro params].
        apply guards_after; [apply silent_index|intro source]. cbv zeta.
        apply guards_after; [silent_tac|intro errors].
        apply guards_after; [silent_tac|intro response].
        apply guards_after; [apply silent_stringify|intro data].
        apply guards_after; [apply silent_deliver|intros _].
        apply guards_callback. intro H. discriminate H.
      + apply guards_callback. intros _. exact Hp. }
  destruct filteredPayload as [| | b | n | s | loads | props | r]; try exact Hother.
  apply guards_after; [silent_tac|intro found].
  destruct (truthy found); apply guards_callback; intro H;
    [discriminate H|exact Hp].
Qed.

Lemma guards_on_closed g :
  sound (g_payload g) = true -> guards (on_closed g) (fun _ => True).
Proof.
  intro Hp. unfold on_closed. destruct (negb (g_called g)); [|apply guards_ret].
  apply guards_then; [apply guards_callback; intro H; discriminate H|intros _].
  apply guards_update_gate. intros g0 H. exact H.
Qed.

Lemma guards_on_unlockedAccount g sender webContents err result :
  json result = true ->
  sound (g_payload g) = true ->
  guards (on_unlockedAccount g sender webContents err result) (fun _ => True).
Proof.
  intros Hres Hp. unfold on_unlockedAccount. destruct (g_armed g); [|apply guards_ret].
  apply guards_then; [apply guards_update_gate; intros g0 H; exact H|intros _].
  destruct (webContents && Nat.eqb sender (g_modal g)); [|apply guards_ret].
  apply guards_then.
  - destruct (truthy err || negb (truthy result)).
    + destruct (negb (g_called g)); [|apply guards_ret].
      apply guards_callback. intro H. discriminate H.
    + apply (guards_bind _ _ (fun p => sound p = true)).
      * apply silent_guards; [apply silent_set_gas|apply set_gas_yields; assumption].
      * intros payload Hpayload.
        apply guards_then;
          [apply guards_update_gate; intros g0 _; exact Hpayload|intros _].
        destruct (negb (g_called g)); [|apply guards_ret].
        apply guards_callback. intros _. exact Hpayload.
  - intros _.
    apply guards_then; [apply guards_update_gate; intros g0 H; exact H|intros _].
    apply silent_guards_any, silent_emit. reflexivity.
Qed.

(** The listeners of the gates that are waiting when a turn begins. *)
Lemma guards_gates_loop (f : gate -> M unit) :
  (forall g, sound (g_payload g) = true -> guards (f g) (fun _ => True)) ->
  guards (bind get (fun w => eachM f (w_gates w))) (fun _ => True).
Proof.
  intro Hf.
  assert (Hloop : forall l,
             Forall (fun g => sound (g_payload g) = true) l ->
             guards (eachM f l) (fun _ => True)).
  { induction l as [|g rest IH]; intro Hl; cbn [eachM]; [apply guards_ret|].
    inversion Hl; subst.
    apply guards_then; [apply Hf; assumption|intros _]. apply IH. assumption. }
  intros w Hw. unfold bind. cbn [get]. exact (Hloop (w_gates w) (proj2 Hw) w Hw).
Qed.

Lemma guards_sendRequest e uid payload sync connects :
  is_admin e = false ->
  json payload = true ->
  guards (sendRequest e uid payload sync connects) (fun _ => True).
Proof.
  intros Hadmin Hjson. unfold sendRequest.
  apply guards_after; [apply silent_getId|intros _].
  apply guards_after; [apply silent_get|intro w0].
  apply guards_after.
  { pose proof silent_GethConnection as Hn. pose proof silent_connect as Hc.
    silent_tac. }
  intros _.
  apply guards_after; [apply silent_get|intro w1].
  destruct (negb (w_writable w1)).
  - apply silent_guards_any.
    pose proof silent_returnError as He. pose proof silent_reply as Hr. silent_tac.
  - cbv zeta.
    apply (guards_bind _ _ (fun fp => sound fp = true)).
    + apply silent_guards;
        [apply silent_filterRequestResponse|apply filter_yields; assumption].
    + intros fp Hfp. destruct (isEmpty fp).
      * apply silent_guards_any.
        pose proof silent_returnError as He. pose proof silent_deliver as Hd.
        silent_tac.
      * apply guards_after; [apply silent_get|intro w2].
        apply guards_checkRequests, Hfp.
Qed.

Lemma guards_when_live m :
  guards m (fun _ => True) -> guards (when_live m) (fun _ => True).
Proof.
  intro Hm. unfold when_live. apply guards_after; [apply silent_get|intro w0].
  destruct (w_live w0); [exact Hm|apply guards_ret].
Qed.

Lemma guards_handle e i :
  is_admin e = false -> json_input i -> guards (handle e i) (fun _ => True).
Proof.
  intros Hadmin Hjson. destruct i; cbn [handle]; cbn [json_input] in Hjson.
  - apply guards_sendRequest; assumption.
  - apply silent_guards_any, silent_on_create.
  - apply guards_when_live, silent_guards_any.
    pose proof silent_emit_to as H1. pose proof (silent_on_connect e) as H2.
    silent_tac.
  - apply silent_guards_any, silent_connect_timer.
  - apply guards_when_live, silent_guards_any, silent_on_data.
  - apply guards_when_live, silent_guards_any.
    pose proof silent_emit_to as H1. pose proof (silent_on_error e) as H2.
    silent_tac.
  - apply guards_when_live, silent_guards_any, silent_on_timeout.
  - apply guards_when_live, silent_guards_any, silent_on_end.
  - apply guards_when_live, silent_guards_any, silent_destroy.
  - apply silent_guards_any, silent_modify. intro w. split; reflexivity.
  - apply guards_gates_loop. intros g Hg.
    destruct (Nat.eqb (g_modal g) modal); [apply guards_on_closed, Hg|apply guards_ret].
  - apply guards_gates_loop. intros g Hg. apply guards_on_unlockedAccount; assumption.
Qed.

Lemma run_written_permitted e inputs :
  is_admin e = false ->
  Forall json_input inputs ->
  forall w w',
    written_permitted w -> run e inputs w = Some w' -> written_permitted w'.
Proof.
  intros Hadmin Hjson. induction Hjson as [|i rest Hi Hrest IH]; intros w w' Hw Hrun.
  - injection Hrun as <-. exact Hw.
  - cbn [run] in Hrun.
    pose proof (proj1 (guards_handle e i Hadmin Hi w Hw)) as Hstep.
    destruct (handle e i w) as [r w1]. cbn [snd] in Hstep.
    apply (IH w1 w' Hstep). destruct r; [exact Hrun|exact Hrun|discriminate Hrun].
Qed.

Lemma in_writes data tr : In (SocketWrite data) tr -> In data (writes tr).
Proof.
  intro H. unfold writes. apply in_flat_map. exists (SocketWrite data).
  split; [exact H|left; reflexivity].
Qed.


